(** * cuspatial: bounding boxes and ULP float comparison

    A shallow embedding of
    - [cpp/include/cuspatial/detail/bounding_boxes.cuh]
      (point / linestring / polygon bounding boxes), and
    - the ULP-based floating point comparator ([float_equal] and friends).

    Unsigned machine integers are [Z] with the wrap-around written out;
    floating point values are the IEEE-754 values of the Standard Library's
    [SpecFloat] (an executable model with no NaN payload). *)

From Stdlib Require Import ZArith List Bool Lia Permutation.
From Stdlib Require Import Floats.SpecFloat.
Import ListNotations.

Local Open Scope Z_scope.

(* ===================================================================== *)
(** * Part I : float comparison by units in the last place               *)
(* ===================================================================== *)

Module FloatEquality.

(** The template parameter [T]: the floating point types for which
    [uint_selector<sizeof(T)>] has a specialisation (2, 4 and 8 bytes). *)
Inductive float_type := binary16 | binary32 | binary64.

Definition sizeof (T : float_type) : Z :=
  match T with binary16 => 2 | binary32 => 4 | binary64 => 8 end.

(** IEEE-754 interchange formats: width of the exponent field and of the
    trailing significand (fraction) field. *)
Definition exponent_bits (T : float_type) : Z :=
  match T with binary16 => 5 | binary32 => 8 | binary64 => 11 end.

Definition mantissa_bits (T : float_type) : Z :=
  match T with binary16 => 10 | binary32 => 23 | binary64 => 52 end.

(** Precision and exponent bound in the convention of [SpecFloat]. *)
Definition prec (T : float_type) : Z := mantissa_bits T + 1.
Definition emax (T : float_type) : Z := 2 ^ (exponent_bits T - 1).

(** [uint_selector<size>::type] is the unsigned integer of [8 * size] bits. *)
Definition bits_width (T : float_type) : Z := 8 * sizeof T.

(** Conversion of a mathematical integer to a [w]-bit unsigned. *)
Definition wrap (w z : Z) : Z := z mod 2 ^ w.

(** [constexpr unsigned default_max_ulp = 4;] *)
Definition default_max_ulp : Z := 4.

(** [sign_bit_mask<Bits>()] : [Bits{1} << 8 * sizeof(Bits) - 1]. *)
Definition sign_bit_mask (w : Z) : Z := wrap w (Z.shiftl 1 (w - 1)).

(** ** The two views of the union [FloatingPointBits<T>]

    A value of the union is represented by its member [_b], the bit pattern;
    reading the member [_f] decodes the pattern as an IEEE-754 value. *)

Definition sign_field (T : float_type) (b : Z) : bool :=
  Z.testbit b (bits_width T - 1).

Definition exponent_field (T : float_type) (b : Z) : Z :=
  Z.land (Z.shiftr b (mantissa_bits T)) (Z.ones (exponent_bits T)).

Definition fraction_field (T : float_type) (b : Z) : Z :=
  Z.land b (Z.ones (mantissa_bits T)).

(** IEEE-754 interchange decoding of the three fields. *)
Definition float_of_fields (T : float_type) (s : bool) (E F : Z) : spec_float :=
  if E =? Z.ones (exponent_bits T) then
    if F =? 0 then S754_infinity s else S754_nan
  else if E =? 0 then
    match F with
    | Zpos m => S754_finite s m (emin (prec T) (emax T))
    | _ => S754_zero s
    end
  else
    S754_finite s (Z.to_pos (F + 2 ^ mantissa_bits T))
                (emin (prec T) (emax T) + E - 1).

Definition bits_to_float (T : float_type) (b : Z) : spec_float :=
  float_of_fields T (sign_field T b) (exponent_field T b) (fraction_field T b).

(** [std::isnan]. *)
Definition isnan (f : spec_float) : bool :=
  match f with S754_nan => true | _ => false end.

(** A bit pattern that fits the unsigned type of [T]. *)
Definition is_bits (T : float_type) (b : Z) : Prop :=
  0 <= b < 2 ^ bits_width T.

(** ** [signmagnitude_to_biased]

    [sam & sign_bit_mask<Bits>() ? ~sam + 1 : sam | sign_bit_mask<Bits>()],
    on [w]-bit unsigned integers. *)
Definition signmagnitude_to_biased (w sam : Z) : Z :=
  if negb (Z.land sam (sign_bit_mask w) =? 0)
  then wrap w (wrap w (Z.lnot sam) + 1)
  else Z.lor sam (sign_bit_mask w).

(** ** [float_equal<T, max_ulp>] *)
Definition float_equal (T : float_type) (max_ulp : Z) (flhs frhs : Z) : bool :=
  let w := bits_width T in
  let lhs := flhs in
  let rhs := frhs in
  if isnan (bits_to_float T lhs) || isnan (bits_to_float T rhs) then false
  else
    let lhsbiased := signmagnitude_to_biased w lhs in
    let rhsbiased := signmagnitude_to_biased w rhs in
    if lhsbiased >=? rhsbiased
    then wrap w (lhsbiased - rhsbiased) <=? max_ulp
    else wrap w (rhsbiased - lhsbiased) <=? max_ulp.

(** ** [not_float_equal<T, max_ulp>]

    The parameters are [FloatingPointBits<T> const&] and the body is
    [return !float_equal(lhs, rhs);].  The call names no template argument:
    the type parameter of [float_equal] is deduced from the arguments, which
    are unions, and its tolerance is the default one.  The templates are
    therefore instantiated at types that need not be floating point types,
    and an instantiation need not be well-formed. *)

(** The types a type parameter is bound to. *)
Inductive cpp_type :=
| floating (T : float_type)
| FloatingPointBits_of (U : cpp_type).

(** [sizeof]: the two members of the union have one size. *)
Fixpoint cpp_sizeof (U : cpp_type) : Z :=
  match U with
  | floating T => sizeof T
  | FloatingPointBits_of U' => cpp_sizeof U'
  end.

(** [uint_selector<size>::type], the unsigned integer of [8 * size] bits,
    is declared for the sizes 2, 4 and 8 only. *)
Definition uint_selector (size : Z) : option Z :=
  if (size =? 2) || (size =? 4) || (size =? 8) then Some (8 * size) else None.

(** The overload of [std::isnan] for an argument of type [U]: there is one
    for each floating point type, and a union converts to none of them. *)
Definition std_isnan_overload (U : cpp_type) : option float_type :=
  match U with
  | floating T => Some T
  | FloatingPointBits_of _ => None
  end.

(** The instantiation [float_equal<U, max_ulp>], when it is well-formed:
    [FloatingPointBits<U>] needs [uint_selector<sizeof(U)>::type], and
    [std::isnan(lhs._f)] needs an overload for the member [_f], of type
    [U]. *)
Definition float_equal_instance (U : cpp_type) (max_ulp : Z)
  : option (Z -> Z -> bool) :=
  match uint_selector (cpp_sizeof U), std_isnan_overload U with
  | Some _, Some T => Some (float_equal T max_ulp)
  | _, _ => None
  end.

(** The instantiation that [float_equal(lhs, rhs)] names inside
    [not_float_equal<T, max_ulp>]: the type of the arguments, and the
    default tolerance, whatever [max_ulp] is. *)
Definition not_float_equal_callee (T : float_type) (max_ulp : Z)
  : cpp_type * Z :=
  (FloatingPointBits_of (floating T), default_max_ulp).

(** The instantiation [not_float_equal<T, max_ulp>], when it is
    well-formed. *)
Definition not_float_equal (T : float_type) (max_ulp : Z)
  : option (Z -> Z -> bool) :=
  let (U, u) := not_float_equal_callee T max_ulp in
  match float_equal_instance U u with
  | Some equal => Some (fun lhs rhs => negb (equal lhs rhs))
  | None => None
  end.

(** The distance the comparator measures. *)
Definition ulp_distance (T : float_type) (a b : Z) : Z :=
  Z.abs (signmagnitude_to_biased (bits_width T) a
         - signmagnitude_to_biased (bits_width T) b).

(** ** Reading a pattern as sign and magnitude *)

(** The pattern without its sign bit. *)
Definition magnitude (T : float_type) (b : Z) : Z :=
  b mod 2 ^ (bits_width T - 1).

(** The magnitude of the infinities: the largest one that is not a NaN. *)
Definition inf_magnitude (T : float_type) : Z :=
  (2 ^ exponent_bits T - 1) * 2 ^ mantissa_bits T.

Definition signed (s : bool) (m : Z) : Z := if s then - m else m.

(** Fields of a pattern that is not a NaN. *)
Definition field_ok (T : float_type) (E F : Z) : Prop :=
  0 <= E < 2 ^ exponent_bits T /\ 0 <= F < 2 ^ mantissa_bits T /\
  E * 2 ^ mantissa_bits T + F <= inf_magnitude T.

(** [y] is the smallest representable value strictly above [x]: the value
    of [x] is below the value of [y] and no representable value lies
    strictly between them. *)
Definition adjacent_above (T : float_type) (x y : Z) : Prop :=
  SFltb (bits_to_float T x) (bits_to_float T y) = true /\
  forall z, is_bits T z ->
    ~ (SFltb (bits_to_float T x) (bits_to_float T z) = true /\
       SFltb (bits_to_float T z) (bits_to_float T y) = true).

End FloatEquality.

(* ===================================================================== *)
(** * Part II : bounding boxes                                            *)
(* ===================================================================== *)

Module BoundingBoxes.

Import FloatEquality.

(** ** Coordinates, points and boxes *)

(** [vec_2d<T>] and [box<T>]; a coordinate is an IEEE-754 value of [T]. *)
Record vec_2d := mk_vec_2d { x : spec_float; y : spec_float }.
Record box := mk_box { v1 : vec_2d; v2 : vec_2d }.

(** ** Observable actions of a call

    A call may run the polygon size validation and may enqueue a
    [thrust::reduce_by_key] on the stream it is given.  Both are recorded,
    in order, so that "before any work is scheduled" and "without invoking
    validation" are statements about the recorded actions. *)
Inductive event :=
| validate_polygon_sizes (num_vertices num_polygon_offsets num_ring_offsets : Z)
| launch_reduce_by_key (num_keys : nat).

Inductive result (A : Type) :=
| returned (a : A)
| thrown_invalid_geometry.
Arguments returned {A} a.
Arguments thrown_invalid_geometry {A}.

(** Computations that return or throw, threading the recorded actions. *)
Definition M (A : Type) : Type := list event -> result A * list event.

Definition ret {A} (a : A) : M A := fun t => (returned a, t).

Definition bind {A B} (m : M A) (k : A -> M B) : M B :=
  fun t => match m t with
           | (returned a, t') => k a t'
           | (thrown_invalid_geometry, t') => (thrown_invalid_geometry, t')
           end.

Definition emit (e : event) : M unit := fun t => (returned tt, t ++ [e]).

Definition throw {A} : M A := fun t => (thrown_invalid_geometry, t).

Notation "m1 ;; m2" := (bind m1 (fun _ => m2))
  (at level 61, right associativity).

(** ** [thrust::reduce_by_key]

    The sequential semantics of the library call: one output per group of
    consecutive keys that [binary_pred] relates to the first key of the
    group, the group's values combined left to right with [binary_op].
    Values are read at the positions of the keys only. *)
Section ReduceByKey.
Context {K V : Type}.
Variable binary_pred : K -> K -> bool.
Variable binary_op : V -> V -> V.

Fixpoint reduce_loop (temp_key : K) (temp_value : V) (kvs : list (K * V))
  : list V :=
  match kvs with
  | [] => [temp_value]
  | (key, value) :: rest =>
      if binary_pred temp_key key
      then reduce_loop temp_key (binary_op temp_value value) rest
      else temp_value :: reduce_loop key value rest
  end.

Definition reduce_by_key (keys : list K) (values : list V) : list V :=
  match combine keys values with
  | [] => []
  | (key, value) :: rest => reduce_loop key value rest
  end.
End ReduceByKey.

(** ** Contiguous runs of a keyed sequence *)
Section Runs.
Context {K V : Type}.
Variable eq_dec : forall a b : K, {a = b} + {a <> b}.
Variable op : V -> V -> V.

(** A run: its key and its values, the first one apart. *)
Record run := mk_run { run_key : K; run_head : V; run_tail : list V }.

Definition run_items (r : run) : list (K * V) :=
  (run_key r, run_head r) :: map (pair (run_key r)) (run_tail r).

(** The reduction of one run, left to right. *)
Definition reduce_run (r : run) : V := fold_left op (run_tail r) (run_head r).

(** Splitting a keyed sequence into its maximal runs of equal adjacent
    keys. *)
Fixpoint runs (kvs : list (K * V)) : list run :=
  match kvs with
  | [] => []
  | (k, v) :: rest =>
      match runs rest with
      | r :: rs =>
          if eq_dec k (run_key r)
          then mk_run k v (run_head r :: run_tail r) :: rs
          else mk_run k v [] :: r :: rs
      | [] => [mk_run k v []]
      end
  end.

(** No two neighbours of a list are equal. *)
Fixpoint adjacent_differ (l : list K) : Prop :=
  match l with
  | a :: (b :: _) as rest => a <> b /\ adjacent_differ rest
  | _ => True
  end.
End Runs.
Arguments run : clear implicits.
Arguments mk_run {K V}.

(** A run with a function applied to each of its values. *)
Definition map_run {K A B} (f : A -> B) (r : run K A) : run K B :=
  mk_run (run_key r) (f (run_head r)) (map f (run_tail r)).

(** ** Geometry ids *)

(** Modelled from the spec: [make_geometry_id_iterator], declared in
    [cuspatial/iterator_factory.cuh], which is not among the verified
    sources.  One level: the id of vertex [v] is the unique [i] such that
    [offsets[i] <= v < offsets[i+1]]; there is none when [v] lies outside
    the offsets. *)
Fixpoint owner_from (i : Z) (offsets : list Z) (v : Z) : option Z :=
  match offsets with
  | lo :: (hi :: _) as rest =>
      if (lo <=? v) && (v <? hi) then Some i else owner_from (i + 1) rest v
  | _ => None
  end.

Definition make_geometry_id_iterator (offsets : list Z) (v : Z) : option Z :=
  owner_from 0 offsets v.

(** Modelled from the spec: the two-level iterator first resolves the
    owning ring [r] of the vertex through the ring offsets, then the owning
    polygon of [r] through the polygon offsets. *)
Definition make_geometry_id_iterator2 (polygon_offsets ring_offsets : list Z)
           (v : Z) : option Z :=
  match make_geometry_id_iterator ring_offsets v with
  | Some r => make_geometry_id_iterator polygon_offsets r
  | None => None
  end.

Definition option_Z_eq_dec (a b : option Z) : {a = b} + {a <> b}.
Proof. decide equality. apply Z.eq_dec. Defined.

(** The positions [0, 1, ..., n-1] an iterator is advanced over. *)
Definition indices (n : nat) : list Z := map Z.of_nat (seq 0 n).

Section Float.
(** The coordinate type. *)
Variable T : float_type.

Definition fadd (a b : spec_float) : spec_float := SFadd (prec T) (emax T) a b.
Definition fsub (a b : spec_float) : spec_float := SFsub (prec T) (emax T) a b.

(** Modelled from the spec: [operator+] and [operator-] of [vec_2d],
    declared in [cuspatial/geometry/vec_2d.hpp], which is not among the
    verified sources; the spec's [p - (r,r)] and [p + (r,r)] are coordinate-wise. *)
Definition vec_add (a b : vec_2d) : vec_2d :=
  {| x := fadd (x a) (x b); y := fadd (y a) (y b) |}.
Definition vec_sub (a b : vec_2d) : vec_2d :=
  {| x := fsub (x a) (x b); y := fsub (y a) (y b) |}.

(** Modelled from the spec: the minimum and the maximum of two coordinates
    that [box_min] and [box_max] take.  On values that are not NaN they are
    [(b < a) ? b : a] and [(a < b) ? b : a].  For a NaN operand the spec asks
    for one rule that does not depend on the order of the arguments, and
    names two; the one taken here is the propagation of NaN (the spec's
    NaN-poisoned boxes): the result is NaN as soon as an operand is. *)
Definition fmin (a b : spec_float) : spec_float :=
  if isnan a || isnan b then S754_nan else if SFltb b a then b else a.
Definition fmax (a b : spec_float) : spec_float :=
  if isnan a || isnan b then S754_nan else if SFltb a b then b else a.

(** Modelled from the spec: [box_min] and [box_max], the element-wise
    minimum and maximum of two points; their header is not among the
    verified sources. *)
Definition box_min (a b : vec_2d) : vec_2d :=
  {| x := fmin (x a) (x b); y := fmin (y a) (y b) |}.
Definition box_max (a b : vec_2d) : vec_2d :=
  {| x := fmax (x a) (x b); y := fmax (y a) (y b) |}.

(** ** [detail::point_bounding_box<T>] *)
Record point_bounding_box := { box_offset : vec_2d }.

(** The constructor, [box_offset{expansion_radius, expansion_radius}]. *)
Definition make_point_bounding_box (expansion_radius : spec_float)
  : point_bounding_box :=
  {| box_offset := {| x := expansion_radius; y := expansion_radius |} |}.

(** [operator()] : [box<T>{point - box_offset, point + box_offset}]. *)
Definition point_bounding_box_call (f : point_bounding_box) (point : vec_2d)
  : box :=
  {| v1 := vec_sub point (box_offset f); v2 := vec_add point (box_offset f) |}.

(** ** [detail::box_minmax<T>] *)
Definition box_minmax (a b : box) : box :=
  {| v1 := box_min (box_min (v1 a) (v2 a)) (v1 b);
     v2 := box_max (box_max (v1 a) (v2 a)) (v2 b) |}.

(** ** [point_bounding_boxes]

    The radius is given in the coordinate type, where the [static_cast] of
    the source is the identity.  The transform iterator applies
    [point_bounding_box] to each point; the keys of the reduction are
    discarded, its values are the boxes written. *)
Section Ids.
Context {IdType : Type}.
(** [thrust::equal_to<IdType>]. *)
Variable id_eq_dec : forall a b : IdType, {a = b} + {a <> b}.

Definition equal_to (a b : IdType) : bool :=
  if id_eq_dec a b then true else false.

Definition point_bounding_boxes (ids : list IdType) (points : list vec_2d)
           (expansion_radius : spec_float) : M (list box) :=
  let point_bboxes :=
    map (point_bounding_box_call (make_point_bounding_box expansion_radius))
        points in
  emit (launch_reduce_by_key (length ids)) ;;
  ret (reduce_by_key equal_to box_minmax ids point_bboxes).
End Ids.

(** ** [linestring_bounding_boxes] *)
Definition linestring_bounding_boxes (linestring_offsets : list Z)
           (linestring_vertices : list vec_2d) (expansion_radius : spec_float)
  : M (list box) :=
  let num_linestrings := Z.of_nat (length linestring_offsets) - 1 in
  let num_vertices := Z.of_nat (length linestring_vertices) in
  if (num_linestrings =? 0) || (num_vertices =? 0) then ret []
  else
    let vertex_ids_iter := make_geometry_id_iterator linestring_offsets in
    point_bounding_boxes option_Z_eq_dec
      (map vertex_ids_iter (indices (length linestring_vertices)))
      linestring_vertices expansion_radius.

(** ** [polygon_bounding_boxes] *)
Section Polygons.
(** The checks of [CUSPATIAL_EXPECTS_VALID_POLYGON_SIZES], a macro of
    [cuspatial/detail/utility/validation.hpp], which is not among the
    verified sources: a parameter. *)
Variable valid_polygon_sizes : Z -> Z -> Z -> bool.

Definition CUSPATIAL_EXPECTS_VALID_POLYGON_SIZES
           (num_vertices num_polygon_offsets num_ring_offsets : Z) : M unit :=
  emit (validate_polygon_sizes num_vertices num_polygon_offsets
                               num_ring_offsets) ;;
  if valid_polygon_sizes num_vertices num_polygon_offsets num_ring_offsets
  then ret tt else throw.

Definition polygon_bounding_boxes (polygon_offsets ring_offsets : list Z)
           (polygon_vertices : list vec_2d) (expansion_radius : spec_float)
  : M (list box) :=
  let num_polys := Z.of_nat (length polygon_offsets) - 1 in
  let num_rings := Z.of_nat (length ring_offsets) - 1 in
  let num_vertices := Z.of_nat (length polygon_vertices) in
  if num_polys >? 0 then
    CUSPATIAL_EXPECTS_VALID_POLYGON_SIZES
      num_vertices (Z.of_nat (length polygon_offsets))
      (Z.of_nat (length ring_offsets)) ;;
    if (num_polys =? 0) || (num_rings =? 0) || (num_vertices =? 0)
    then ret []
    else
      let vertex_ids_iter :=
        make_geometry_id_iterator2 polygon_offsets ring_offsets in
      point_bounding_boxes option_Z_eq_dec
        (map vertex_ids_iter (indices (length polygon_vertices)))
        polygon_vertices expansion_radius
  else ret [].
End Polygons.
End Float.

(** ** Vocabulary of the statements *)

(** The box of one run of points: its expanded boxes merged left to right. *)
Definition run_box (T : float_type) (r : spec_float) {K} (rn : run K vec_2d)
  : box :=
  reduce_run box_minmax
    (map_run (point_bounding_box_call T (make_point_bounding_box r)) rn).

(** The boxes a call wrote when it returned; none when it threw. *)
Definition boxes_of (o : result (list box) * list event) : list box :=
  match fst o with returned bs => bs | thrown_invalid_geometry => [] end.

(** Single precision values and points, given by their bit patterns. *)
Definition f32 : Z -> spec_float := bits_to_float binary32.
Definition pt32 (a b : Z) : vec_2d := mk_vec_2d (f32 a) (f32 b).

Definition not_nan (a : spec_float) : Prop := isnan a = false.

(** [a <= b] for values that are not NaN: [b < a] is false. *)
Definition fle (a b : spec_float) : Prop := SFltb b a = false.

(** [a == b] in the sense of the IEEE-754 comparison. *)
Definition same_value (a b : spec_float) : Prop := SFeqb a b = true.

(** The invariant of a box: [min.x <= max.x] and [min.y <= max.y]. *)
Definition box_ordered (b : box) : Prop :=
  SFleb (x (v1 b)) (x (v2 b)) = true /\ SFleb (y (v1 b)) (y (v2 b)) = true.

(** Boxes whose four coordinates compare equal. *)
Definition box_same (a b : box) : Prop :=
  same_value (x (v1 a)) (x (v1 b)) /\ same_value (y (v1 a)) (y (v1 b)) /\
  same_value (x (v2 a)) (x (v2 b)) /\ same_value (y (v2 a)) (y (v2 b)).

(** [b] contains [c], coordinate by coordinate. *)
Definition box_contains (b c : box) : Prop :=
  SFleb (x (v1 b)) (x (v1 c)) = true /\ SFleb (x (v2 c)) (x (v2 b)) = true /\
  SFleb (y (v1 b)) (y (v1 c)) = true /\ SFleb (y (v2 c)) (y (v2 b)) = true.

(** Each of the four bounds of [b] is the bound of a box of [l]. *)
Definition box_attained (b : box) (l : list box) : Prop :=
  (exists c, In c l /\ same_value (x (v1 b)) (x (v1 c))) /\
  (exists c, In c l /\ same_value (x (v2 b)) (x (v2 c))) /\
  (exists c, In c l /\ same_value (y (v1 b)) (y (v1 c))) /\
  (exists c, In c l /\ same_value (y (v2 b)) (y (v2 c))).

(** ** Offsets and the geometries they delimit *)

Fixpoint nondecreasing (l : list Z) : Prop :=
  match l with
  | a :: (b :: _) as rest => a <= b /\ nondecreasing rest
  | _ => True
  end.

Fixpoint increasing (l : list Z) : Prop :=
  match l with
  | a :: (b :: _) as rest => a < b /\ increasing rest
  | _ => True
  end.

(** The precondition on an offset array over [n] elements: it starts at 0,
    it does not decrease, and it ends at [n]. *)
Definition offsets_ok (offsets : list Z) (n : Z) : Prop :=
  hd_error offsets = Some 0 /\ nondecreasing offsets /\ last offsets 0 = n.

(** The elements at positions [lo], ..., [hi - 1]. *)
Definition slice {A} (lo hi : Z) (l : list A) : list A :=
  firstn (Z.to_nat (hi - lo)) (skipn (Z.to_nat lo) l).

(** The groups an offset array cuts a sequence into: group [i] holds the
    elements at positions [offsets[i]], ..., [offsets[i+1] - 1]. *)
Definition geometries {A} (offsets : list Z) (l : list A) : list (list A) :=
  map (fun '(lo, hi) => slice lo hi l) (combine offsets (tl offsets)).

(** The same groups, cut off one after the other. *)
Fixpoint split_by {A} (offsets : list Z) (l : list A) : list (list A) :=
  match offsets with
  | lo :: (hi :: _) as rest =>
      firstn (Z.to_nat (hi - lo)) l
      :: split_by rest (skipn (Z.to_nat (hi - lo)) l)
  | _ => []
  end.

(** The groups that are not empty, each as the run of its index, counting
    from [i]. *)
Fixpoint geometry_runs {A} (i : Z) (gs : list (list A))
  : list (run (option Z) A) :=
  match gs with
  | [] => []
  | [] :: gs' => geometry_runs (i + 1) gs'
  | (v :: vs) :: gs' => mk_run (Some i) v vs :: geometry_runs (i + 1) gs'
  end.

(** The positions [lo], [lo + 1], ..., [lo + k - 1]. *)
Fixpoint positions (lo : Z) (k : nat) : list Z :=
  match k with
  | O => []
  | S k' => lo :: positions (lo + 1) k'
  end.

(** A size validation for the examples: at least one offset of each kind,
    at least one ring per polygon, at least three vertices per ring. *)
Definition polygon_sizes_check
           (num_vertices num_polygon_offsets num_ring_offsets : Z) : bool :=
  (0 <? num_polygon_offsets) && (0 <? num_ring_offsets)
  && (num_polygon_offsets <=? num_ring_offsets)
  && (3 * (num_ring_offsets - 1) <=? num_vertices).

(** The vertex offsets of the polygons: polygon [p] starts at the first
    vertex of its first ring, [ring_offsets[polygon_offsets[p]]]. *)
Definition polygon_vertex_offsets (polygon_offsets ring_offsets : list Z)
  : list Z :=
  map (fun k => nth (Z.to_nat k) ring_offsets 0) polygon_offsets.

(** ** Vocabulary of the rounding of [SFadd] and [SFsub] *)

(** A value of the floating point type [T]. *)
Definition is_float (T : float_type) (f : spec_float) : Prop :=
  valid_binary (prec T) (emax T) f = true.

Definition is_infinite (f : spec_float) : bool :=
  match f with S754_infinity _ => true | _ => false end.

(** A coordinate that expands by the radius [r] without producing a NaN:
    it is not a NaN, and it is not infinite when [r] is. *)
Definition coordinate_ok (T : float_type) (r c : spec_float) : Prop :=
  is_float T c /\ not_nan c /\ is_infinite c && is_infinite r = false.

(** Rounding to nearest, ties to even, of [V / 2 ^ k]. *)
Definition rne (V k : Z) : Z :=
  let q := V / 2 ^ k in
  let rem := V mod 2 ^ k in
  if 2 * rem <? 2 ^ k then q
  else if 2 ^ k <? 2 * rem then q + 1
  else if Z.even q then q else q + 1.

(** What a shift record knows of [V] once [k] bits are shifted out. *)
Definition shr_inv (V k : Z) (mrs : shr_record) : Prop :=
  shr_m mrs = V / 2 ^ k /\
  shr_r mrs = (2 ^ k <=? 2 * (V mod 2 ^ k)) /\
  shr_s mrs = negb (V mod 2 ^ k =? 0) && negb (2 * (V mod 2 ^ k) =? 2 ^ k).

(** The mantissa and the exponent of the rounding of [m * 2 ^ e]. *)
Definition rounded (prec emax : Z) (m : positive) (e : Z) : Z * Z :=
  let d := Z.pos (digits2_pos m) in
  if d <=? prec then
    let fe := fexp prec emax (d + e) in
    (Z.pos m * 2 ^ (e - fe), fe)
  else
    let n := d - prec in
    let q := rne (Z.pos m) n in
    if q =? 2 ^ prec then (2 ^ (prec - 1), e + n + 1) else (q, e + n).

Definition float_of_rounded (prec emax : Z) (s : bool) (me : Z * Z)
  : spec_float :=
  if snd me <=? emax - prec
  then S754_finite s (Z.to_pos (fst me)) (snd me)
  else S754_infinity s.

(** The number of neighbours of a key sequence that differ. *)
Fixpoint key_changes {K} (eq_dec : forall a b : K, {a = b} + {a <> b})
         (l : list K) : nat :=
  match l with
  | a :: (b :: _) as rest =>
      ((if eq_dec a b then 0 else 1) + key_changes eq_dec rest)%nat
  | _ => 0%nat
  end.

End BoundingBoxes.

(* ===================================================================== *)
(** * Part III : properties of the float comparison                       *)
(* ===================================================================== *)

Import FloatEquality.

(** ** Bits and fields *)

Lemma bits_width_split T : bits_width T = 1 + exponent_bits T + mantissa_bits T.
Proof. destruct T; reflexivity. Qed.

Lemma exponent_bits_ge T : 2 <= exponent_bits T.
Proof. destruct T; simpl; lia. Qed.

Lemma mantissa_bits_ge T : 1 <= mantissa_bits T.
Proof. destruct T; simpl; lia. Qed.

Lemma sign_bit_mask_pow2 w : 1 <= w -> sign_bit_mask w = 2 ^ (w - 1).
Proof.
  intros Hw. unfold sign_bit_mask, wrap.
  rewrite Z.shiftl_1_l. apply Z.mod_small.
  split; [apply Z.pow_nonneg; lia|].
  apply Z.pow_lt_mono_r; lia.
Qed.

Lemma land_pow2 b n :
  0 <= n -> Z.land b (2 ^ n) = if Z.testbit b n then 2 ^ n else 0.
Proof.
  intros Hn. apply Z.bits_inj'. intros k Hk.
  rewrite Z.land_spec, Z.pow2_bits_eqb by lia.
  destruct (Z.eqb_spec n k) as [->|Hne].
  - destruct (Z.testbit b k) eqn:E; simpl.
    + now rewrite Z.pow2_bits_true.
    + now rewrite Z.bits_0.
  - rewrite andb_false_r.
    destruct (Z.testbit b n).
    + now rewrite Z.pow2_bits_false.
    + now rewrite Z.bits_0.
Qed.

Lemma testbit_top w b :
  1 <= w -> 0 <= b < 2 ^ w -> Z.testbit b (w - 1) = (2 ^ (w - 1) <=? b).
Proof.
  intros Hw Hb.
  assert (Hp : 2 ^ w = 2 * 2 ^ (w - 1)).
  { rewrite <- Z.pow_succ_r by lia. f_equal. lia. }
  assert (Hpos : 0 < 2 ^ (w - 1)) by (apply Z.pow_pos_nonneg; lia).
  rewrite Z.testbit_eqb by lia.
  destruct (Z.leb_spec (2 ^ (w - 1)) b).
  - replace (b / 2 ^ (w - 1)) with 1; [reflexivity|].
    apply Z.div_unique with (r := b - 2 ^ (w - 1)); lia.
  - rewrite Z.div_small by lia. reflexivity.
Qed.

Lemma lor_pow2_small w b :
  1 <= w -> 0 <= b < 2 ^ (w - 1) -> Z.lor b (2 ^ (w - 1)) = b + 2 ^ (w - 1).
Proof.
  intros Hw Hb.
  assert (Hl : Z.land b (2 ^ (w - 1)) = 0).
  { rewrite land_pow2 by lia.
    replace (Z.testbit b (w - 1)) with false; [reflexivity|].
    symmetry. destruct (Z.eq_dec b 0) as [->|Hne]; [apply Z.bits_0|].
    apply Z.bits_above_log2; [lia|]. apply Z.log2_lt_pow2; lia. }
  rewrite <- Z.lxor_lor by exact Hl.
  symmetry. now apply Z.add_nocarry_lxor.
Qed.

(** The biased image of a non-negative pattern. *)
Lemma biased_positive w b :
  1 <= w -> 0 <= b < 2 ^ (w - 1) ->
  signmagnitude_to_biased w b = 2 ^ (w - 1) + b.
Proof.
  intros Hw Hb. unfold signmagnitude_to_biased.
  assert (Hp : 2 ^ w = 2 * 2 ^ (w - 1)).
  { rewrite <- Z.pow_succ_r by lia. f_equal. lia. }
  rewrite sign_bit_mask_pow2, land_pow2, testbit_top by lia.
  destruct (Z.leb_spec (2 ^ (w - 1)) b); [lia|]. simpl.
  rewrite lor_pow2_small by lia. lia.
Qed.

(** The biased image of a pattern with the sign bit set. *)
Lemma biased_negative w b :
  1 <= w -> 2 ^ (w - 1) <= b < 2 ^ w ->
  signmagnitude_to_biased w b = 2 ^ w - b.
Proof.
  intros Hw Hb. unfold signmagnitude_to_biased.
  assert (Hp : 2 ^ w = 2 * 2 ^ (w - 1)).
  { rewrite <- Z.pow_succ_r by lia. f_equal. lia. }
  assert (Hpos : 0 < 2 ^ (w - 1)) by (apply Z.pow_pos_nonneg; lia).
  rewrite sign_bit_mask_pow2, land_pow2, testbit_top by lia.
  destruct (Z.leb_spec (2 ^ (w - 1)) b); [|lia].
  replace (2 ^ (w - 1) =? 0) with false by (symmetry; apply Z.eqb_neq; lia).
  simpl. unfold wrap.
  rewrite Z.add_mod_idemp_l by lia.
  rewrite Z.succ_lnot.
  symmetry. apply Z.mod_unique with (q := -1); lia.
Qed.

Lemma pow2_split n : 1 <= n -> 2 ^ n = 2 * 2 ^ (n - 1).
Proof. intros. rewrite <- Z.pow_succ_r by lia. f_equal. lia. Qed.

Lemma fields_of_bits T b :
  is_bits T b ->
  sign_field T b = (2 ^ (bits_width T - 1) <=? b) /\
  exponent_field T b = magnitude T b / 2 ^ mantissa_bits T /\
  fraction_field T b = magnitude T b mod 2 ^ mantissa_bits T /\
  0 <= exponent_field T b < 2 ^ exponent_bits T.
Proof.
  intros Hb. unfold is_bits in Hb.
  pose proof (exponent_bits_ge T) as He.
  pose proof (mantissa_bits_ge T) as Hm.
  pose proof (bits_width_split T) as Hw.
  unfold sign_field, exponent_field, fraction_field, magnitude.
  rewrite testbit_top by lia.
  rewrite !Z.land_ones, Z.shiftr_div_pow2 by lia.
  replace (bits_width T - 1) with (mantissa_bits T + exponent_bits T) by lia.
  rewrite Z.pow_add_r by lia.
  set (P := 2 ^ mantissa_bits T). set (Q := 2 ^ exponent_bits T).
  assert (HP : 0 < P) by (apply Z.pow_pos_nonneg; lia).
  assert (HQ : 0 < Q) by (apply Z.pow_pos_nonneg; lia).
  rewrite Z.rem_mul_r by lia.
  pose proof (Z.mod_pos_bound b P HP) as HbP.
  pose proof (Z.mod_pos_bound (b / P) Q HQ) as HbQ.
  split; [reflexivity|]. split; [|split].
  - rewrite (Z.mul_comm P), Z.div_add by lia.
    rewrite (Z.div_small (b mod P)) by lia. reflexivity.
  - rewrite (Z.mul_comm P), Z.mod_add by lia.
    symmetry. apply Z.mod_small. lia.
  - exact HbQ.
Qed.

Lemma isnan_fields T s E F :
  0 <= E < 2 ^ exponent_bits T -> 0 <= F < 2 ^ mantissa_bits T ->
  isnan (float_of_fields T s E F) = (inf_magnitude T <? E * 2 ^ mantissa_bits T + F).
Proof.
  intros HE HF. unfold float_of_fields, inf_magnitude.
  rewrite Z.ones_equiv.
  set (P := 2 ^ mantissa_bits T) in *. set (Q := 2 ^ exponent_bits T) in *.
  destruct (Z.eqb_spec E (Z.pred Q)) as [HEm|HEm].
  - destruct (Z.eqb_spec F 0) as [HF0|HF0]; simpl; symmetry.
    + apply Z.ltb_ge. subst. lia.
    + apply Z.ltb_lt. subst E. lia.
  - assert (Hlt : (inf_magnitude T <? E * P + F) = false).
    { apply Z.ltb_ge. unfold inf_magnitude. fold P Q. nia. }
    unfold inf_magnitude in Hlt. fold P Q in Hlt. rewrite Hlt.
    destruct (E =? 0); [destruct F|]; reflexivity.
Qed.

Lemma compare_fields T s1 E1 F1 s2 E2 F2 :
  field_ok T E1 F1 -> field_ok T E2 F2 ->
  SFcompare (float_of_fields T s1 E1 F1) (float_of_fields T s2 E2 F2)
  = Some (signed s1 (E1 * 2 ^ mantissa_bits T + F1)
          ?= signed s2 (E2 * 2 ^ mantissa_bits T + F2)).
Proof.
  unfold field_ok, inf_magnitude, float_of_fields.
  rewrite Z.ones_equiv.
  pose proof (exponent_bits_ge T) as He.
  pose proof (mantissa_bits_ge T) as Hm.
  set (P := 2 ^ mantissa_bits T). set (Q := 2 ^ exponent_bits T).
  set (e0 := emin (prec T) (emax T)).
  assert (HP : 0 < P) by (apply Z.pow_pos_nonneg; lia).
  assert (HQ : 4 <= Q) by (apply (Z.pow_le_mono_r 2 2); lia).
  intros (HE1 & HF1 & Hn1) (HE2 & HF2 & Hn2).
  assert (Hcmp : forall a b c, (a ?= b) = c ->
            match c with Eq => a = b | Lt => a < b | Gt => a > b end).
  { intros a b c <-. destruct (Z.compare_spec a b); lia. }
  destruct (Z.eqb_spec E1 (Z.pred Q)) as [HEm1|HEm1];
  destruct (Z.eqb_spec E2 (Z.pred Q)) as [HEm2|HEm2];
  [ destruct (Z.eqb_spec F1 0); [|exfalso; nia];
    destruct (Z.eqb_spec F2 0); [|exfalso; nia]
  | destruct (Z.eqb_spec F1 0); [|exfalso; nia]
  | destruct (Z.eqb_spec F2 0); [|exfalso; nia]
  | ];
  try destruct (Z.eqb_spec E1 0) as [HE10|HE10];
  try destruct (Z.eqb_spec E2 0) as [HE20|HE20];
  try (destruct F1 as [|f1|f1]; [| |lia]);
  try (destruct F2 as [|f2|f2]; [| |lia]);
  destruct s1, s2; unfold signed; cbn [SFcompare]; f_equal; symmetry;
  change (Pos.compare_cont Eq) with Pos.compare;
  repeat match goal with
         | |- context [Z.to_pos ?a] =>
             let p := fresh "p" in let Hp := fresh "Hp" in
             assert (Hp : Z.pos (Z.to_pos a) = a) by (apply Z2Pos.id; lia);
             set (p := Z.to_pos a) in *; clearbody p
         end;
  repeat match goal with
         | |- context [Z.compare ?a ?b] =>
             lazymatch goal with
             | |- Z.compare a b = _ => fail
             | _ => destruct (Z.compare_spec a b)
             end
         end;
  repeat match goal with
         | |- context [Pos.compare ?a ?b] => destruct (Pos.compare_spec a b)
         end;
  cbn [CompOpp].
  all: try (apply Z.compare_eq_iff; nia).
  all: try (apply Z.compare_lt_iff; nia).
  all: try (apply Z.compare_gt_iff; nia).
Qed.

Lemma bits_width_ge T : 1 <= bits_width T.
Proof. destruct T; cbv; discriminate. Qed.

Lemma magnitude_fields T b :
  is_bits T b ->
  magnitude T b = exponent_field T b * 2 ^ mantissa_bits T + fraction_field T b
  /\ 0 <= fraction_field T b < 2 ^ mantissa_bits T.
Proof.
  intros Hb. destruct (fields_of_bits T b Hb) as (_ & HE & HF & _).
  pose proof (mantissa_bits_ge T) as Hm.
  assert (HP : 0 < 2 ^ mantissa_bits T) by (apply Z.pow_pos_nonneg; lia).
  rewrite HE, HF. split.
  - rewrite Z.mul_comm. apply Z.div_mod. lia.
  - apply Z.mod_pos_bound. lia.
Qed.

(** [signmagnitude_to_biased] is the sign-magnitude value shifted by
    [2 ^ (w - 1)]. *)
Lemma biased_signed T b :
  is_bits T b ->
  signmagnitude_to_biased (bits_width T) b
  = 2 ^ (bits_width T - 1) + signed (sign_field T b) (magnitude T b).
Proof.
  intros Hb. pose proof (bits_width_ge T) as Hw.
  destruct (fields_of_bits T b Hb) as (Hs & _). rewrite Hs.
  unfold is_bits in Hb. unfold magnitude, signed.
  pose proof (pow2_split (bits_width T) Hw) as Hp.
  assert (Hpos : 0 < 2 ^ (bits_width T - 1)) by (apply Z.pow_pos_nonneg; lia).
  destruct (Z.leb_spec (2 ^ (bits_width T - 1)) b).
  - rewrite biased_negative by lia.
    replace (b mod 2 ^ (bits_width T - 1)) with (b - 2 ^ (bits_width T - 1)); [lia|].
    apply Z.mod_unique with (q := 1); lia.
  - rewrite biased_positive, Z.mod_small by lia. reflexivity.
Qed.

Lemma biased_range T b :
  is_bits T b ->
  0 < signmagnitude_to_biased (bits_width T) b < 2 ^ bits_width T.
Proof.
  intros Hb. pose proof (bits_width_ge T) as Hw.
  pose proof (pow2_split (bits_width T) Hw) as Hp.
  assert (Hpos : 0 < 2 ^ (bits_width T - 1)) by (apply Z.pow_pos_nonneg; lia).
  unfold is_bits in Hb.
  destruct (Z.le_gt_cases (2 ^ (bits_width T - 1)) b).
  - rewrite biased_negative by lia. lia.
  - rewrite biased_positive by lia. lia.
Qed.

Lemma isnan_bits T b :
  is_bits T b ->
  isnan (bits_to_float T b) = (inf_magnitude T <? magnitude T b).
Proof.
  intros Hb. destruct (magnitude_fields T b Hb) as (Hm & HF).
  destruct (fields_of_bits T b Hb) as (_ & _ & _ & HE).
  unfold bits_to_float. rewrite isnan_fields, Hm by assumption. reflexivity.
Qed.

(** The biased integer is a monotone encoding: on patterns that are not NaN
    the IEEE-754 comparison of the values is the integer comparison of their
    biased images. *)
Lemma compare_biased T a b :
  is_bits T a -> is_bits T b ->
  isnan (bits_to_float T a) = false -> isnan (bits_to_float T b) = false ->
  SFcompare (bits_to_float T a) (bits_to_float T b)
  = Some (signmagnitude_to_biased (bits_width T) a
          ?= signmagnitude_to_biased (bits_width T) b).
Proof.
  intros Ha Hb Hna Hnb.
  rewrite isnan_bits in Hna, Hnb by assumption.
  apply Z.ltb_ge in Hna, Hnb.
  destruct (magnitude_fields T a Ha) as (Hma & HFa).
  destruct (magnitude_fields T b Hb) as (Hmb & HFb).
  destruct (fields_of_bits T a Ha) as (_ & _ & _ & HEa).
  destruct (fields_of_bits T b Hb) as (_ & _ & _ & HEb).
  unfold bits_to_float.
  rewrite compare_fields by (unfold field_ok; lia).
  rewrite !biased_signed by assumption.
  rewrite <- Hma, <- Hmb. f_equal.
  symmetry. apply Z.add_compare_mono_l.
Qed.

(** What [float_equal] computes, in integers. *)
Lemma float_equal_spec T max_ulp a b :
  is_bits T a -> is_bits T b ->
  float_equal T max_ulp a b
  = negb (isnan (bits_to_float T a) || isnan (bits_to_float T b))
    && (ulp_distance T a b <=? max_ulp).
Proof.
  intros Ha Hb. unfold float_equal, ulp_distance.
  destruct (isnan (bits_to_float T a) || isnan (bits_to_float T b));
    [reflexivity|]. cbn [negb andb].
  pose proof (biased_range T a Ha). pose proof (biased_range T b Hb).
  unfold wrap.
  destruct (Z.geb_spec (signmagnitude_to_biased (bits_width T) a)
                       (signmagnitude_to_biased (bits_width T) b)).
  - rewrite Z.mod_small, Z.abs_eq by lia. reflexivity.
  - rewrite Z.mod_small, Z.abs_neq by lia. f_equal. lia.
Qed.

(** Every integer in the biased range of the non-NaN patterns is the image
    of a non-NaN pattern. *)
Lemma biased_onto T k :
  2 ^ (bits_width T - 1) - inf_magnitude T <= k
    <= 2 ^ (bits_width T - 1) + inf_magnitude T ->
  exists z, is_bits T z /\ isnan (bits_to_float T z) = false /\
            signmagnitude_to_biased (bits_width T) z = k.
Proof.
  intros Hk. pose proof (bits_width_ge T) as Hw.
  pose proof (pow2_split (bits_width T) Hw) as Hp.
  assert (Hpos : 0 < 2 ^ (bits_width T - 1)) by (apply Z.pow_pos_nonneg; lia).
  assert (Hinf : 0 <= inf_magnitude T < 2 ^ (bits_width T - 1)).
  { unfold inf_magnitude. pose proof (exponent_bits_ge T).
    pose proof (mantissa_bits_ge T).
    replace (bits_width T - 1) with (exponent_bits T + mantissa_bits T)
      by (rewrite bits_width_split; lia).
    rewrite Z.pow_add_r by lia.
    assert (0 < 2 ^ mantissa_bits T) by (apply Z.pow_pos_nonneg; lia).
    assert (0 < 2 ^ exponent_bits T) by (apply Z.pow_pos_nonneg; lia).
    nia. }
  destruct (Z.le_gt_cases (2 ^ (bits_width T - 1)) k).
  - exists (k - 2 ^ (bits_width T - 1)).
    assert (Hz : is_bits T (k - 2 ^ (bits_width T - 1))) by (unfold is_bits; lia).
    split; [exact Hz|]. split.
    + rewrite isnan_bits by assumption. apply Z.ltb_ge.
      unfold magnitude. rewrite Z.mod_small by lia. lia.
    + rewrite biased_positive by lia. lia.
  - exists (2 ^ bits_width T - k).
    assert (Hz : is_bits T (2 ^ bits_width T - k)) by (unfold is_bits; lia).
    split; [exact Hz|]. split.
    + rewrite isnan_bits by assumption. apply Z.ltb_ge.
      unfold magnitude.
      replace ((2 ^ bits_width T - k) mod 2 ^ (bits_width T - 1))
        with (2 ^ (bits_width T - 1) - k); [lia|].
      apply Z.mod_unique with (q := 1); lia.
    + rewrite biased_negative by lia. lia.
Qed.

Lemma biased_nonnan_range T b :
  is_bits T b -> isnan (bits_to_float T b) = false ->
  2 ^ (bits_width T - 1) - inf_magnitude T
    <= signmagnitude_to_biased (bits_width T) b
    <= 2 ^ (bits_width T - 1) + inf_magnitude T.
Proof.
  intros Hb Hn. rewrite isnan_bits in Hn by assumption. apply Z.ltb_ge in Hn.
  rewrite biased_signed by assumption.
  assert (0 <= magnitude T b).
  { unfold magnitude. apply Z.mod_pos_bound, Z.pow_pos_nonneg;
      pose proof (bits_width_ge T); lia. }
  unfold signed. destruct (sign_field T b); lia.
Qed.

Lemma SFltb_not_nan a b : SFltb a b = true -> isnan a = false /\ isnan b = false.
Proof. destruct a, b; simpl; auto; discriminate. Qed.

Lemma SFltb_biased T a b :
  is_bits T a -> is_bits T b ->
  isnan (bits_to_float T a) = false -> isnan (bits_to_float T b) = false ->
  SFltb (bits_to_float T a) (bits_to_float T b)
  = (signmagnitude_to_biased (bits_width T) a
     <? signmagnitude_to_biased (bits_width T) b).
Proof.
  intros. unfold SFltb, Z.ltb. rewrite compare_biased by assumption.
  reflexivity.
Qed.

Lemma adjacent_biased_succ T x y :
  is_bits T x -> is_bits T y -> adjacent_above T x y ->
  signmagnitude_to_biased (bits_width T) y
  = signmagnitude_to_biased (bits_width T) x + 1.
Proof.
  intros Hx Hy [Hlt Hno].
  destruct (SFltb_not_nan _ _ Hlt) as [Hnx Hny].
  rewrite SFltb_biased in Hlt by assumption. apply Z.ltb_lt in Hlt.
  pose proof (biased_nonnan_range T x Hx Hnx).
  pose proof (biased_nonnan_range T y Hy Hny).
  destruct (Z.eq_dec (signmagnitude_to_biased (bits_width T) y)
                     (signmagnitude_to_biased (bits_width T) x + 1))
    as [E|NE]; [exact E|exfalso].
  destruct (biased_onto T (signmagnitude_to_biased (bits_width T) x + 1))
    as (z & Hz & Hnz & Hbz); [lia|].
  apply (Hno z Hz).
  rewrite !SFltb_biased by assumption. rewrite Hbz.
  split; apply Z.ltb_lt; lia.
Qed.

Lemma biased_succ_adjacent T x y :
  is_bits T x -> is_bits T y ->
  isnan (bits_to_float T x) = false -> isnan (bits_to_float T y) = false ->
  signmagnitude_to_biased (bits_width T) y
  = signmagnitude_to_biased (bits_width T) x + 1 ->
  adjacent_above T x y.
Proof.
  intros Hx Hy Hnx Hny Hs. split.
  - rewrite SFltb_biased by assumption. apply Z.ltb_lt. lia.
  - intros z Hz [H1 H2].
    destruct (SFltb_not_nan _ _ H1) as [_ Hnz].
    rewrite SFltb_biased in H1, H2 by assumption.
    apply Z.ltb_lt in H1, H2. lia.
Qed.


(** ** The claims about [float_equal] *)

(** C7.  [float_equal(x, x)] is true for every value [x] that is not a NaN,
    at every tolerance (an unsigned, hence non-negative, number of ULPs);
    and as soon as one side is a NaN, [float_equal] is false, at every
    tolerance and whatever the other side is. *)
Theorem float_equal_reflexive_unless_nan (T : float_type) :
  (forall x max_ulp,
      0 <= max_ulp -> isnan (bits_to_float T x) = false ->
      float_equal T max_ulp x x = true) /\
  (forall x y max_ulp,
      isnan (bits_to_float T x) = true ->
      float_equal T max_ulp x y = false /\ float_equal T max_ulp y x = false).
Proof.
  split.
  - intros x max_ulp Hu Hn. unfold float_equal. rewrite Hn. cbn [orb].
    rewrite Z.sub_diag. unfold wrap. rewrite Zmod_0_l.
    destruct (_ >=? _); apply Z.leb_le; exact Hu.
  - intros x y max_ulp Hn. unfold float_equal. rewrite Hn.
    rewrite orb_true_r. split; reflexivity.
Qed.

Lemma float_equal_reflexive_unless_nan_witness :
  float_equal binary32 0 0x3F800000 0x3F800000 = true /\
  float_equal binary32 4 0x7FC00000 0x3F800000 = false.
Proof.
  split.
  - apply (proj1 (float_equal_reflexive_unless_nan binary32));
      [lia | reflexivity].
  - apply (proj2 (float_equal_reflexive_unless_nan binary32)
             0x7FC00000 0x3F800000 4).
    reflexivity.
Defined.

(** C8.  When [y] is the smallest representable value strictly above [x]
    (neither is a NaN), the biased images of the two patterns are one apart,
    so [float_equal] is true at every tolerance of at least one ULP; and for
    two values that differ (they do not compare equal), [float_equal] at
    tolerance zero is false. *)
Theorem adjacent_values_one_ulp_apart (T : float_type) :
  (forall x y,
      is_bits T x -> is_bits T y -> adjacent_above T x y ->
      ulp_distance T x y = 1 /\
      forall max_ulp, 1 <= max_ulp -> float_equal T max_ulp x y = true) /\
  (forall x y,
      is_bits T x -> is_bits T y ->
      SFeqb (bits_to_float T x) (bits_to_float T y) = false ->
      float_equal T 0 x y = false).
Proof.
  split.
  - intros x y Hx Hy Hadj.
    pose proof (adjacent_biased_succ T x y Hx Hy Hadj) as Hs.
    destruct Hadj as [Hlt _].
    destruct (SFltb_not_nan _ _ Hlt) as [Hnx Hny].
    assert (Hd : ulp_distance T x y = 1).
    { unfold ulp_distance. rewrite Hs. lia. }
    split; [exact Hd|].
    intros max_ulp Hu. rewrite float_equal_spec by assumption.
    rewrite Hnx, Hny, Hd. cbn [orb negb andb]. apply Z.leb_le. exact Hu.
  - intros x y Hx Hy Hne. rewrite float_equal_spec by assumption.
    destruct (isnan (bits_to_float T x)) eqn:Hnx; [reflexivity|].
    destruct (isnan (bits_to_float T y)) eqn:Hny; [reflexivity|].
    cbn [orb negb andb]. apply Z.leb_gt.
    unfold SFeqb in Hne. rewrite compare_biased in Hne by assumption.
    unfold ulp_distance.
    destruct (Z.compare_spec (signmagnitude_to_biased (bits_width T) x)
                             (signmagnitude_to_biased (bits_width T) y));
      [discriminate | lia | lia].
Qed.

Lemma adjacent_values_one_ulp_apart_witness :
  ulp_distance binary32 0x3F800000 0x3F800001 = 1 /\
  float_equal binary32 0 0x3F800000 0x40000000 = false.
Proof.
  split.
  - apply (proj1 (adjacent_values_one_ulp_apart binary32)
             0x3F800000 0x3F800001).
    + unfold is_bits. vm_compute. split; [discriminate | reflexivity].
    + unfold is_bits. vm_compute. split; [discriminate | reflexivity].
    + apply biased_succ_adjacent; try reflexivity;
        unfold is_bits; vm_compute; split; (discriminate || reflexivity).
  - apply (proj2 (adjacent_values_one_ulp_apart binary32)
             0x3F800000 0x40000000).
    + unfold is_bits. vm_compute. split; [discriminate | reflexivity].
    + unfold is_bits. vm_compute. split; [discriminate | reflexivity].
    + reflexivity.
Defined.

(** C9.  The two zeros: the pattern of [+0.0] is all zeros, the pattern of
    [-0.0] is the sign bit alone.  The patterns differ, yet
    [signmagnitude_to_biased] sends both to the same integer, their ULP
    distance is 0, and [float_equal] holds between them at every tolerance,
    zero included. *)
Theorem float_equal_signed_zeros (T : float_type) (max_ulp : Z) :
  0 <= max_ulp ->
  let w := bits_width T in
  let pzero := 0 in
  let nzero := sign_bit_mask w in
  bits_to_float T pzero = S754_zero false /\
  bits_to_float T nzero = S754_zero true /\
  pzero <> nzero /\
  signmagnitude_to_biased w pzero = signmagnitude_to_biased w nzero /\
  ulp_distance T pzero nzero = 0 /\
  float_equal T max_ulp pzero nzero = true /\
  float_equal T max_ulp nzero pzero = true.
Proof.
  intros Hu w pzero nzero.
  assert (Hp : is_bits T pzero) by (destruct T; vm_compute; split; congruence).
  assert (Hn : is_bits T nzero) by (destruct T; vm_compute; split; congruence).
  assert (Hfp : bits_to_float T pzero = S754_zero false) by (destruct T; reflexivity).
  assert (Hfn : bits_to_float T nzero = S754_zero true) by (destruct T; reflexivity).
  assert (Hd : ulp_distance T pzero nzero = 0) by (destruct T; reflexivity).
  assert (Hd' : ulp_distance T nzero pzero = 0) by (destruct T; reflexivity).
  repeat split; try assumption.
  - destruct T; vm_compute; discriminate.
  - destruct T; reflexivity.
  - rewrite float_equal_spec, Hfp, Hfn, Hd by assumption.
    apply Z.leb_le. exact Hu.
  - rewrite float_equal_spec, Hfp, Hfn, Hd' by assumption.
    apply Z.leb_le. exact Hu.
Qed.

Lemma float_equal_signed_zeros_witness :
  float_equal binary32 0 0 0x80000000 = true.
Proof.
  apply (float_equal_signed_zeros binary32 0). lia.
Defined.

(** C10.  [not_float_equal] does not return the negation of [float_equal]
    at its tolerance: it returns nothing, for no type and no tolerance can
    it be instantiated.  Its call of [float_equal] passes the unions, so
    [float_equal] is instantiated at [FloatingPointBits<T>], where
    [std::isnan] has no overload; [float_equal] itself is well-formed at
    each of the three floating point types.  The same call names the
    default tolerance whatever [max_ulp] is: between 1.0 and the next value
    above it the negation of [float_equal] is [true] at the tolerance 0 and
    [false] at the default tolerance. *)
Theorem not_float_equal_ill_formed :
  (forall T max_ulp, not_float_equal T max_ulp = None) /\
  (forall T max_ulp,
      float_equal_instance (floating T) max_ulp
      = Some (float_equal T max_ulp)) /\
  (forall T max_ulp,
      not_float_equal_callee T max_ulp
      = (FloatingPointBits_of (floating T), default_max_ulp)) /\
  negb (float_equal binary32 0 0x3F800000 0x3F800001) = true /\
  negb (float_equal binary32 default_max_ulp 0x3F800000 0x3F800001) = false.
Proof.
  repeat split.
  - intros T max_ulp. destruct T; reflexivity.
  - intros T max_ulp. destruct T; reflexivity.
Qed.

(* ===================================================================== *)
(** * Part IV : properties of the bounding boxes                          *)
(* ===================================================================== *)

Import BoundingBoxes.

(** ** [reduce_by_key] reduces run by run *)

Section RunFacts.
Context {K V : Type}.
Variable eq_dec : forall a b : K, {a = b} + {a <> b}.
Variable op : V -> V -> V.

Lemma combine_fst_snd (l : list (K * V)) : combine (map fst l) (map snd l) = l.
Proof. induction l as [|[a b] l IH]; simpl; congruence. Qed.

Lemma runs_items (kvs : list (K * V)) : flat_map run_items (runs eq_dec kvs) = kvs.
Proof.
  induction kvs as [|[k v] rest IH]; [reflexivity|].
  simpl. destruct (runs eq_dec rest) as [|r rs] eqn:E.
  - simpl in *. now rewrite <- IH.
  - destruct (eq_dec k (run_key r)) as [->|Hne].
    + rewrite <- IH. destruct r; reflexivity.
    + rewrite <- IH. reflexivity.
Qed.

Lemma runs_adjacent_differ (kvs : list (K * V)) :
  adjacent_differ (map run_key (runs eq_dec kvs)).
Proof.
  induction kvs as [|[k v] rest IH]; [exact I|].
  simpl. destruct (runs eq_dec rest) as [|r rs] eqn:E; [exact I|].
  destruct (eq_dec k (run_key r)) as [Heq|Hne].
  - simpl in *. destruct rs; [exact I|]. rewrite Heq. exact IH.
  - simpl in *. split; assumption.
Qed.

Lemma reduce_loop_same (k : K) (acc : V) vs rest :
  reduce_loop (equal_to eq_dec) op k acc (map (pair k) vs ++ rest)
  = reduce_loop (equal_to eq_dec) op k (fold_left op vs acc) rest.
Proof.
  revert acc. induction vs as [|v vs IH]; intros acc; [reflexivity|].
  simpl. unfold equal_to at 1.
  destruct (eq_dec k k) as [_|Hne]; [|congruence].
  apply IH.
Qed.

Lemma reduce_loop_runs k acc (rs : list (run K V)) :
  adjacent_differ (k :: map run_key rs) ->
  reduce_loop (equal_to eq_dec) op k acc (flat_map run_items rs)
  = acc :: map (reduce_run op) rs.
Proof.
  revert k acc. induction rs as [|r rs IH]; intros k acc Hadj; [reflexivity|].
  destruct Hadj as [Hne Hadj].
  cbn [flat_map run_items app]. cbn [reduce_loop].
  unfold equal_to at 1.
  destruct (eq_dec k (run_key r)) as [Heq|_]; [contradiction|].
  cbn [map]. f_equal.
  rewrite reduce_loop_same. apply IH. exact Hadj.
Qed.

(** A sequence given as a list of runs whose neighbours have different keys
    is reduced to one value per run. *)
Lemma reduce_by_key_run_list (rs : list (run K V)) :
  adjacent_differ (map run_key rs) ->
  reduce_by_key (equal_to eq_dec) op (map fst (flat_map run_items rs))
                (map snd (flat_map run_items rs))
  = map (reduce_run op) rs.
Proof.
  intros Hadj. unfold reduce_by_key. rewrite combine_fst_snd.
  destruct rs as [|r rs]; [reflexivity|].
  cbn [flat_map run_items app].
  rewrite reduce_loop_same, reduce_loop_runs by exact Hadj.
  reflexivity.
Qed.

(** Every keyed sequence is reduced run by run. *)
Lemma reduce_by_key_runs (keys : list K) (values : list V) :
  reduce_by_key (equal_to eq_dec) op keys values
  = map (reduce_run op) (runs eq_dec (combine keys values)).
Proof.
  pose proof (runs_items (combine keys values)) as Hi.
  pose proof (runs_adjacent_differ (combine keys values)) as Ha.
  rewrite <- (reduce_by_key_run_list _ Ha), Hi.
  unfold reduce_by_key. now rewrite combine_fst_snd.
Qed.
End RunFacts.

(** Mapping the values of a keyed sequence maps the values of its runs. *)
Lemma runs_map {K A B} (eq_dec : forall a b : K, {a = b} + {a <> b})
      (f : A -> B) (keys : list K) (values : list A) :
  runs eq_dec (combine keys (map f values))
  = map (map_run f) (runs eq_dec (combine keys values)).
Proof.
  revert values. induction keys as [|k keys IH]; intros [|v values];
    try reflexivity.
  simpl. rewrite IH.
  destruct (runs eq_dec (combine keys values)) as [|r rs]; [reflexivity|].
  simpl. destruct (eq_dec k (run_key r)); reflexivity.
Qed.

(** ** Claim C1 *)



(** ** The order of the coordinates *)

Lemma SFltb_asym a b : SFltb a b = true -> SFltb b a = false.
Proof.
  unfold SFltb.
  destruct a as [[]|[]| |[] m1 e1], b as [[]|[]| |[] m2 e2]; cbn [SFcompare];
    try discriminate; try reflexivity;
    change (Pos.compare_cont Eq) with Pos.compare;
    rewrite (Z.compare_antisym e1 e2), (Pos.compare_antisym m1 m2);
    destruct (e1 ?= e2); cbn [CompOpp]; try discriminate; try reflexivity;
    destruct (m1 ?= m2)%positive; cbn [CompOpp]; try discriminate; reflexivity.
Qed.

Lemma SFltb_negtrans a b c :
  isnan b = false -> SFltb a c = true -> SFltb a b = true \/ SFltb b c = true.
Proof.
  unfold SFltb.
  destruct a as [[]|[]| |[] m1 e1], b as [[]|[]| |[] m2 e2],
           c as [[]|[]| |[] m3 e3]; cbn [SFcompare isnan];
    intros Hn H; try discriminate; auto;
    change (Pos.compare_cont Eq) with Pos.compare in *;
    repeat match goal with
           | H : context [Z.compare ?a ?b] |- _ => destruct (Z.compare_spec a b)
           | |- context [Z.compare ?a ?b] => destruct (Z.compare_spec a b)
           end;
    repeat match goal with
           | H : context [Pos.compare ?a ?b] |- _ => destruct (Pos.compare_spec a b)
           | |- context [Pos.compare ?a ?b] => destruct (Pos.compare_spec a b)
           end;
    cbn [CompOpp] in *; try discriminate; auto; exfalso; lia.
Qed.
Lemma SFleb_fle a b :
  SFleb a b = true <-> not_nan a /\ not_nan b /\ fle a b.
Proof.
  unfold fle, not_nan, SFleb, SFltb.
  destruct a as [[]|[]| |[] m1 e1], b as [[]|[]| |[] m2 e2];
    cbn [SFcompare isnan]; try (split; [auto | intros (? & ? & ?); congruence]);
    try (split; [discriminate | intros (? & ? & ?); congruence]);
    change (Pos.compare_cont Eq) with Pos.compare;
    rewrite (Z.compare_antisym e1 e2), (Pos.compare_antisym m1 m2);
    destruct (e1 ?= e2); cbn [CompOpp];
    try (split; [auto | intros (? & ? & ?); congruence]);
    try (split; [discriminate | intros (? & ? & ?); congruence]);
    destruct (m1 ?= m2)%positive; cbn [CompOpp];
    try (split; [auto | intros (? & ? & ?); congruence]);
    try (split; [discriminate | intros (? & ? & ?); congruence]).
Qed.

Lemma SFeqb_fle a b :
  SFeqb a b = true <-> not_nan a /\ not_nan b /\ fle a b /\ fle b a.
Proof.
  unfold fle, not_nan, SFeqb, SFltb.
  destruct a as [[]|[]| |[] m1 e1], b as [[]|[]| |[] m2 e2];
    cbn [SFcompare isnan]; try (split; [auto | intros (? & ? & ? & ?); congruence]);
    try (split; [discriminate | intros (? & ? & ? & ?); congruence]);
    change (Pos.compare_cont Eq) with Pos.compare;
    rewrite (Z.compare_antisym e1 e2), (Pos.compare_antisym m1 m2);
    destruct (e1 ?= e2); cbn [CompOpp];
    try (split; [auto | intros (? & ? & ? & ?); congruence]);
    try (split; [discriminate | intros (? & ? & ? & ?); congruence]);
    destruct (m1 ?= m2)%positive; cbn [CompOpp];
    try (split; [auto | intros (? & ? & ? & ?); congruence]);
    try (split; [discriminate | intros (? & ? & ? & ?); congruence]).
Qed.

(** Values that compare equal are the same value, the two zeros apart. *)
Lemma SFeqb_same a b :
  SFeqb a b = true ->
  a = b \/ exists s s', a = S754_zero s /\ b = S754_zero s'.
Proof.
  unfold SFeqb.
  destruct a as [s1|[]| |[] m1 e1], b as [s2|[]| |[] m2 e2];
    cbn [SFcompare]; try discriminate; auto;
    try (right; eauto; fail);
    change (Pos.compare_cont Eq) with Pos.compare;
    destruct (Z.compare_spec e1 e2); try discriminate;
    destruct (Pos.compare_spec m1 m2); cbn [CompOpp]; try discriminate;
    intros _; left; congruence.
Qed.

Lemma fle_refl a : fle a a.
Proof.
  unfold fle. destruct (SFltb a a) eqn:E; [|reflexivity].
  now rewrite (SFltb_asym _ _ E) in E.
Qed.

Lemma fle_trans a b c : not_nan b -> fle a b -> fle b c -> fle a c.
Proof.
  unfold fle, not_nan. intros Hb Hab Hbc.
  destruct (SFltb c a) eqn:E; [|reflexivity].
  destruct (SFltb_negtrans c b a Hb E); congruence.
Qed.

Lemma SFltb_nan_l a : SFltb S754_nan a = false.
Proof. reflexivity. Qed.

Lemma SFltb_nan_r a : SFltb a S754_nan = false.
Proof. destruct a; reflexivity. Qed.

Lemma fmin_cases a b : fmin a b = a \/ fmin a b = b.
Proof.
  unfold fmin. destruct a, b; cbn [isnan orb]; auto;
    match goal with |- context [SFltb ?u ?v] => destruct (SFltb u v) end; auto.
Qed.

Lemma fmax_cases a b : fmax a b = a \/ fmax a b = b.
Proof.
  unfold fmax. destruct a, b; cbn [isnan orb]; auto;
    match goal with |- context [SFltb ?u ?v] => destruct (SFltb u v) end; auto.
Qed.

Lemma fmin_not_nan a b : not_nan a -> not_nan b -> not_nan (fmin a b).
Proof. intros. destruct (fmin_cases a b) as [-> | ->]; assumption. Qed.

Lemma fmax_not_nan a b : not_nan a -> not_nan b -> not_nan (fmax a b).
Proof. intros. destruct (fmax_cases a b) as [-> | ->]; assumption. Qed.

Lemma fmin_le_l a b : fle (fmin a b) a.
Proof.
  unfold fmin. destruct (isnan a || isnan b); [apply SFltb_nan_r|].
  destruct (SFltb b a) eqn:E; [|apply fle_refl].
  unfold fle. now apply SFltb_asym.
Qed.

Lemma fmin_le_r a b : fle (fmin a b) b.
Proof.
  unfold fmin. destruct (isnan a || isnan b); [apply SFltb_nan_r|].
  destruct (SFltb b a) eqn:E; [apply fle_refl|exact E].
Qed.

Lemma fmax_ge_l a b : fle a (fmax a b).
Proof.
  unfold fmax. destruct (isnan a || isnan b); [apply SFltb_nan_l|].
  destruct (SFltb a b) eqn:E; [|apply fle_refl].
  unfold fle. now apply SFltb_asym.
Qed.

Lemma fmax_ge_r a b : fle b (fmax a b).
Proof.
  unfold fmax. destruct (isnan a || isnan b); [apply SFltb_nan_l|].
  destruct (SFltb a b) eqn:E; [apply fle_refl|exact E].
Qed.

Lemma fmin_glb c a b : fle c a -> fle c b -> fle c (fmin a b).
Proof. intros. destruct (fmin_cases a b) as [-> | ->]; assumption. Qed.

Lemma fmax_lub c a b : fle a c -> fle b c -> fle (fmax a b) c.
Proof. intros. destruct (fmax_cases a b) as [-> | ->]; assumption. Qed.
Ltac nn := repeat first [assumption | apply fmin_not_nan | apply fmax_not_nan].

Ltac fle_search n :=
  lazymatch n with
  | O => fail
  | S ?n' =>
      match goal with
      | |- fle _ (fmin _ _) => apply fmin_glb; fle_search n
      | |- fle (fmax _ _) _ => apply fmax_lub; fle_search n
      | |- fle ?a ?a => apply fle_refl
      | H : fle ?a ?b |- fle ?a ?b => exact H
      | |- fle (fmin ?u ?v) ?t =>
          solve [apply (fle_trans _ u _); [nn | apply fmin_le_l | fle_search n']]
      | |- fle (fmin ?u ?v) ?t =>
          solve [apply (fle_trans _ v _); [nn | apply fmin_le_r | fle_search n']]
      | |- fle ?s (fmax ?u ?v) =>
          solve [apply (fle_trans _ u _); [nn | fle_search n' | apply fmax_ge_l]]
      | |- fle ?s (fmax ?u ?v) =>
          solve [apply (fle_trans _ v _); [nn | fle_search n' | apply fmax_ge_r]]
      | H : fle ?s ?m |- fle ?s ?t =>
          solve [apply (fle_trans _ m _); [nn | exact H | fle_search n']]
      end
  end.

Ltac fle_auto := fle_search 6%nat.

Section Intervals.
Variables a1 a2 b1 b2 c1 c2 : spec_float.
Hypothesis Ha : SFleb a1 a2 = true.
Hypothesis Hb : SFleb b1 b2 = true.
Hypothesis Hc : SFleb c1 c2 = true.

(** The merged interval of [(p1, p2)] and [(q1, q2)] runs from
    [fmin (fmin p1 p2) q1] to [fmax (fmax p1 p2) q2]. *)
Lemma merge_commutes :
  same_value (fmin (fmin a1 a2) b1) (fmin (fmin b1 b2) a1) /\
  same_value (fmax (fmax a1 a2) b2) (fmax (fmax b1 b2) a2).
Proof.
  apply SFleb_fle in Ha, Hb. destruct Ha as (? & ? & ?), Hb as (? & ? & ?).
  unfold same_value. rewrite !SFeqb_fle.
  repeat split; try (nn; fail); fle_auto.
Qed.

Lemma merge_associates :
  same_value
    (fmin (fmin (fmin (fmin a1 a2) b1) (fmax (fmax a1 a2) b2)) c1)
    (fmin (fmin a1 a2) (fmin (fmin b1 b2) c1)) /\
  same_value
    (fmax (fmax (fmin (fmin a1 a2) b1) (fmax (fmax a1 a2) b2)) c2)
    (fmax (fmax a1 a2) (fmax (fmax b1 b2) c2)).
Proof.
  apply SFleb_fle in Ha, Hb, Hc.
  destruct Ha as (? & ? & ?), Hb as (? & ? & ?), Hc as (? & ? & ?).
  unfold same_value. rewrite !SFeqb_fle.
  repeat split; try (nn; fail); fle_auto.
Qed.

Lemma merge_ordered :
  SFleb (fmin (fmin a1 a2) b1) (fmax (fmax a1 a2) b2) = true.
Proof.
  apply SFleb_fle in Ha, Hb. destruct Ha as (? & ? & ?), Hb as (? & ? & ?).
  rewrite SFleb_fle.
  repeat split; try (nn; fail); fle_auto.
Qed.
End Intervals.

(** ** Claim C4 *)

(** C4 as stated fails.  Boxes whose corners are out of order: [a] is the
    point (0,0) expanded by the radius -5, [d] the point (-2.5,-2.5)
    expanded by -2.5.  [box_minmax] gives different boxes for [a], [b] in
    the two orders, and for [z], [d], [z] in the two bracketings. *)
Lemma box_minmax_not_commutative_nor_associative :
  let expand r p :=
    point_bounding_box_call binary32 (make_point_bounding_box r) p in
  let a := expand (f32 0xC0A00000) (pt32 0 0) in
  let b := expand (f32 0) (pt32 0x40400000 0x40400000) in
  let z := expand (f32 0) (pt32 0 0) in
  let d := expand (f32 0xC0200000) (pt32 0xC0200000 0xC0200000) in
  a = mk_box (pt32 0x40A00000 0x40A00000) (pt32 0xC0A00000 0xC0A00000) /\
  box_minmax a b <> box_minmax b a /\
  ~ box_same (box_minmax a b) (box_minmax b a) /\
  box_minmax (box_minmax z d) z <> box_minmax z (box_minmax d z) /\
  ~ box_same (box_minmax (box_minmax z d) z) (box_minmax z (box_minmax d z)).
Proof.
  cbv zeta. repeat split.
  - vm_compute. discriminate.
  - unfold box_same, same_value. vm_compute. intros (H & _). discriminate.
  - vm_compute. discriminate.
  - unfold box_same, same_value. vm_compute. intros (H & _). discriminate.
Qed.

(** C4, as the code has it.  On boxes that satisfy the box invariant
    ([min.x <= max.x] and [min.y <= max.y], which leaves no NaN coordinate)
    [box_minmax] is commutative and associative up to the comparison of the
    coordinates: the two sides have coordinates that compare equal, that is,
    identical ones except that a zero may differ in sign.  The result
    satisfies the invariant again. *)
Theorem box_minmax_commutative_associative (a b c : box) :
  box_ordered a -> box_ordered b -> box_ordered c ->
  box_same (box_minmax a b) (box_minmax b a) /\
  box_same (box_minmax (box_minmax a b) c) (box_minmax a (box_minmax b c)) /\
  box_ordered (box_minmax a b) /\
  (forall u v, same_value u v ->
     u = v \/ exists s s', u = S754_zero s /\ v = S754_zero s').
Proof.
  intros [Hax Hay] [Hbx Hby] [Hcx Hcy].
  destruct a as [[a1x a1y] [a2x a2y]], b as [[b1x b1y] [b2x b2y]],
           c as [[c1x c1y] [c2x c2y]].
  cbn [x y v1 v2] in *.
  unfold box_same, box_ordered, box_minmax, box_min, box_max. cbn [x y v1 v2].
  pose proof (merge_commutes _ _ _ _ Hax Hbx) as [? ?].
  pose proof (merge_commutes _ _ _ _ Hay Hby) as [? ?].
  pose proof (merge_associates _ _ _ _ c1x c2x Hax Hbx Hcx) as [? ?].
  pose proof (merge_associates _ _ _ _ c1y c2y Hay Hby Hcy) as [? ?].
  pose proof (merge_ordered _ _ _ _ Hax Hbx).
  pose proof (merge_ordered _ _ _ _ Hay Hby).
  repeat split; try assumption.
  intros u v. apply SFeqb_same.
Qed.

Lemma box_minmax_commutative_associative_witness :
  box_same
    (box_minmax (mk_box (pt32 0 0) (pt32 0x40000000 0x40000000))
                (mk_box (pt32 0x80000000 0x40A00000) (pt32 0 0x40E00000)))
    (box_minmax (mk_box (pt32 0x80000000 0x40A00000) (pt32 0 0x40E00000))
                (mk_box (pt32 0 0) (pt32 0x40000000 0x40000000))).
Proof.
  apply (box_minmax_commutative_associative
           (mk_box (pt32 0 0) (pt32 0x40000000 0x40000000))
           (mk_box (pt32 0x80000000 0x40A00000) (pt32 0 0x40E00000))
           (mk_box (pt32 0 0) (pt32 0 0)));
    split; reflexivity.
Defined.

(** ** Claim C3 *)

(** C3.  The control flow of [polygon_bounding_boxes].  With no polygon
    (also with no polygon offset at all) the call returns at once, nothing
    written, nothing validated, nothing enqueued.  With at least one polygon
    the sizes are validated first; if the validation rejects them the call
    throws, with the validation as its only action: no reduction was
    enqueued and no box written.  If the validation accepts them and the
    ring count or the vertex count is zero, the call returns nothing written
    and enqueues nothing. *)
Theorem polygon_bounding_boxes_control_flow
        (T : float_type) (valid_polygon_sizes : Z -> Z -> Z -> bool)
        (polygon_offsets ring_offsets : list Z) (polygon_vertices : list vec_2d)
        (expansion_radius : spec_float) (t : list event) :
  let num_polys := Z.of_nat (length polygon_offsets) - 1 in
  let num_rings := Z.of_nat (length ring_offsets) - 1 in
  let num_vertices := Z.of_nat (length polygon_vertices) in
  let call := polygon_bounding_boxes T valid_polygon_sizes polygon_offsets
                ring_offsets polygon_vertices expansion_radius t in
  let validation := validate_polygon_sizes num_vertices
                      (Z.of_nat (length polygon_offsets))
                      (Z.of_nat (length ring_offsets)) in
  (num_polys <= 0 -> call = (returned [], t)) /\
  (0 < num_polys ->
   valid_polygon_sizes num_vertices (Z.of_nat (length polygon_offsets))
                       (Z.of_nat (length ring_offsets)) = false ->
   call = (thrown_invalid_geometry, t ++ [validation])) /\
  (0 < num_polys ->
   valid_polygon_sizes num_vertices (Z.of_nat (length polygon_offsets))
                       (Z.of_nat (length ring_offsets)) = true ->
   num_rings = 0 \/ num_vertices = 0 ->
   call = (returned [], t ++ [validation])).
Proof.
  cbv zeta. unfold polygon_bounding_boxes.
  repeat split.
  - intros H. destruct (Z.gtb_spec (Z.of_nat (length polygon_offsets) - 1) 0);
      [lia | reflexivity].
  - intros H Hv. destruct (Z.gtb_spec (Z.of_nat (length polygon_offsets) - 1) 0);
      [|lia].
    unfold CUSPATIAL_EXPECTS_VALID_POLYGON_SIZES, bind, emit, throw.
    rewrite Hv. reflexivity.
  - intros H Hv Hz.
    destruct (Z.gtb_spec (Z.of_nat (length polygon_offsets) - 1) 0); [|lia].
    unfold CUSPATIAL_EXPECTS_VALID_POLYGON_SIZES, bind, emit, ret.
    rewrite Hv.
    replace ((Z.of_nat (length polygon_offsets) - 1 =? 0)
             || (Z.of_nat (length ring_offsets) - 1 =? 0)
             || (Z.of_nat (length polygon_vertices) =? 0)) with true;
      [reflexivity|].
    symmetry. destruct Hz as [Hz | Hz]; rewrite Hz; cbn;
      rewrite ?orb_true_r; reflexivity.
Qed.

Lemma polygon_bounding_boxes_control_flow_witness :
  polygon_bounding_boxes binary32 polygon_sizes_check [0; 1] [0; 4]
    [pt32 0 0; pt32 0 0] (f32 0) []
  = (thrown_invalid_geometry, [validate_polygon_sizes 2 2 2]).
Proof.
  apply (proj1 (proj2 (polygon_bounding_boxes_control_flow binary32
           polygon_sizes_check [0; 1] [0; 4] [pt32 0 0; pt32 0 0] (f32 0) [])));
    [simpl; lia | reflexivity].
Defined.

(** ** Geometry ids cut the vertices into runs *)

Lemma last_cons_indep {A} (a : A) l d d' : last (a :: l) d = last (a :: l) d'.
Proof.
  revert a. induction l as [|b l IH]; intros a; [reflexivity|].
  change (last (b :: l) d = last (b :: l) d'). apply IH.
Qed.

Lemma nondecreasing_tail a l : nondecreasing (a :: l) -> nondecreasing l.
Proof. destruct l; [exact (fun _ => I)|]. now intros [_ H]. Qed.

Lemma nondecreasing_hd_le_last a l d :
  nondecreasing (a :: l) -> a <= last (a :: l) d.
Proof.
  revert a. induction l as [|b l IH]; intros a H; [simpl; lia|].
  destruct H as [Hab H]. specialize (IH b H).
  change (last (a :: b :: l) d) with (last (b :: l) d). lia.
Qed.

Lemma indices_positions n : indices n = positions 0 n.
Proof.
  unfold indices. change 0 with (Z.of_nat 0). generalize 0%nat.
  induction n as [|n IH]; intros a; [reflexivity|].
  simpl. f_equal. rewrite IH. f_equal. lia.
Qed.

Lemma positions_length lo k : length (positions lo k) = k.
Proof. revert lo. induction k; intros; simpl; congruence. Qed.

Lemma positions_app lo k1 k2 :
  positions lo (k1 + k2)
  = positions lo k1 ++ positions (lo + Z.of_nat k1) k2.
Proof.
  revert lo. induction k1 as [|k1 IH]; intros lo.
  - simpl. f_equal. lia.
  - cbn [Nat.add positions app]. f_equal. rewrite IH. do 2 f_equal. lia.
Qed.

Lemma positions_bounds lo k v : In v (positions lo k) -> lo <= v < lo + Z.of_nat k.
Proof.
  revert lo. induction k as [|k IH]; intros lo; [intros []|].
  intros [<- | H]; [lia|]. apply IH in H. lia.
Qed.

Lemma combine_app {A B} (a1 a2 : list A) (b1 b2 : list B) :
  length a1 = length b1 ->
  combine (a1 ++ a2) (b1 ++ b2) = combine a1 b1 ++ combine a2 b2.
Proof.
  revert b1. induction a1 as [|x a1 IH]; intros [|y b1] H; try discriminate;
    [reflexivity|].
  simpl. f_equal. apply IH. now injection H.
Qed.

Lemma combine_repeat {A B} (k : A) (vs : list B) :
  combine (repeat k (length vs)) vs = map (pair k) vs.
Proof. induction vs; simpl; congruence. Qed.

Lemma map_constant {A B} (f : A -> B) (c : B) (l : list A) :
  (forall v, In v l -> f v = c) -> map f l = repeat c (length l).
Proof.
  induction l as [|v l IH]; intros H; [reflexivity|].
  simpl. rewrite H by (left; reflexivity). f_equal.
  apply IH. intros w Hw. apply H. now right.
Qed.

Lemma map_owner_block i lo hi rest k :
  lo + Z.of_nat k <= hi ->
  map (owner_from i (lo :: hi :: rest)) (positions lo k) = repeat (Some i) k.
Proof.
  intros Hk. rewrite <- (positions_length lo k) at 2.
  apply map_constant. intros v Hv. apply positions_bounds in Hv.
  cbn [owner_from].
  destruct (Z.leb_spec lo v); [|lia]. destruct (Z.ltb_spec v hi); [|lia].
  reflexivity.
Qed.

Lemma map_owner_skip i lo hi rest k :
  map (owner_from i (lo :: hi :: rest)) (positions hi k)
  = map (owner_from (i + 1) (hi :: rest)) (positions hi k).
Proof.
  apply map_ext_in. intros v Hv. apply positions_bounds in Hv.
  cbn [owner_from]. destruct (Z.ltb_spec v hi); [lia|].
  now rewrite andb_false_r.
Qed.

(** The ids of the vertices, paired with the vertices, are the items of the
    runs of the geometries that are not empty. *)
Lemma owner_runs {A} (offsets : list Z) (i lo : Z) (vs : list A) :
  hd_error offsets = Some lo -> nondecreasing offsets ->
  last offsets lo = lo + Z.of_nat (length vs) ->
  combine (map (owner_from i offsets) (positions lo (length vs))) vs
  = flat_map run_items (geometry_runs i (split_by offsets vs)).
Proof.
  revert i lo vs. induction offsets as [|a offsets IH]; intros i lo vs Hhd Hnd Hlast;
    [discriminate|].
  injection Hhd as ->.
  destruct offsets as [|hi rest].
  - simpl in Hlast. assert (length vs = 0)%nat as Hl by lia.
    destruct vs; [reflexivity | discriminate].
  - destruct Hnd as [Hle Hnd].
    pose proof (nondecreasing_hd_le_last hi rest lo Hnd) as Hhl.
    change (last (lo :: hi :: rest) lo) with (last (hi :: rest) lo) in Hlast.
    set (k := Z.to_nat (hi - lo)).
    assert (Hk : (k <= length vs)%nat) by lia.
    cbn [split_by]. fold k.
    assert (Hf : length (firstn k vs) = k) by (rewrite length_firstn; lia).
    assert (Hs : length (skipn k vs) = (length vs - k)%nat) by apply length_skipn.
    assert (Hv : vs = firstn k vs ++ skipn k vs) by (symmetry; apply firstn_skipn).
    set (f := firstn k vs) in *. set (s := skipn k vs) in *. clearbody f s.
    assert (Hsl : lo + Z.of_nat (length vs) = hi + Z.of_nat (length s)) by lia.
    replace (length vs) with (k + length s)%nat by lia.
    rewrite Hv, positions_app, map_app.
    replace (lo + Z.of_nat k) with hi by lia.
    rewrite combine_app by (now rewrite length_map, positions_length).
    rewrite map_owner_block by lia. rewrite map_owner_skip.
    rewrite (IH (i + 1) hi s); [|reflexivity|exact Hnd|].
    + rewrite <- Hf at 1. rewrite combine_repeat.
      destruct f as [|v f]; reflexivity.
    + rewrite (last_cons_indep hi rest hi lo). lia.
Qed.

Lemma geometry_runs_keys_above {A} (gs : list (list A)) i j :
  j < i -> adjacent_differ (Some j :: map run_key (geometry_runs i gs)).
Proof.
  revert i j. induction gs as [|g gs IH]; intros i j Hlt; [exact I|].
  destruct g as [|v vs].
  - cbn [geometry_runs]. apply IH. lia.
  - cbn [geometry_runs map run_key]. split.
    + intros E. injection E. lia.
    + apply IH. lia.
Qed.

Lemma geometry_runs_adjacent_differ {A} (gs : list (list A)) i :
  adjacent_differ (map run_key (geometry_runs i gs)).
Proof.
  pose proof (geometry_runs_keys_above gs i (i - 1)) as H.
  specialize (H ltac:(lia)).
  destruct (geometry_runs i gs) as [|r rs]; [exact I|].
  cbn [map] in *. destruct H as [_ H]. exact H.
Qed.

(** One run per geometry that is not empty. *)
Lemma geometry_runs_length {A} (gs : list (list A)) i :
  length (geometry_runs i gs)
  = length (filter (fun g => match g with [] => false | _ => true end) gs).
Proof.
  revert i. induction gs as [|g gs IH]; intros i; [reflexivity|].
  destruct g; simpl; rewrite IH; reflexivity.
Qed.

Lemma split_by_cons {A} lo hi rest (l : list A) :
  split_by (lo :: hi :: rest) l
  = firstn (Z.to_nat (hi - lo)) l
    :: split_by (hi :: rest) (skipn (Z.to_nat (hi - lo)) l).
Proof. reflexivity. Qed.

Lemma geometries_split_by {A} (offsets : list Z) (lo : Z) (vs : list A) :
  hd_error offsets = Some lo -> 0 <= lo -> nondecreasing offsets ->
  geometries offsets vs = split_by offsets (skipn (Z.to_nat lo) vs).
Proof.
  revert lo. induction offsets as [|a offsets IH]; intros lo Hhd Hlo Hnd;
    [discriminate|].
  injection Hhd as ->. destruct offsets as [|hi rest]; [reflexivity|].
  destruct Hnd as [Hle Hnd].
  rewrite split_by_cons.
  unfold geometries in *. cbn [tl combine map].
  f_equal.
  rewrite skipn_skipn.
  replace (Z.to_nat (hi - lo) + Z.to_nat lo)%nat with (Z.to_nat hi) by lia.
  apply (IH hi); [reflexivity | lia | exact Hnd].
Qed.

Lemma increasing_nondecreasing l : increasing l -> nondecreasing l.
Proof.
  induction l as [|a l IH]; [exact (fun _ => I)|].
  destruct l as [|b l]; [exact (fun _ => I)|].
  intros [H1 H2]. split; [lia | apply IH, H2].
Qed.

(** When the offsets increase strictly no geometry is empty. *)
Lemma geometry_runs_length_increasing {A} (offsets : list Z) (i lo : Z)
      (vs : list A) :
  hd_error offsets = Some lo -> increasing offsets ->
  last offsets lo = lo + Z.of_nat (length vs) ->
  length (geometry_runs i (split_by offsets vs)) = (length offsets - 1)%nat.
Proof.
  revert i lo vs. induction offsets as [|a offsets IH]; intros i lo vs Hhd Hinc Hlast;
    [discriminate|].
  injection Hhd as ->. destruct offsets as [|hi rest]; [reflexivity|].
  destruct Hinc as [Hlt Hinc].
  pose proof (nondecreasing_hd_le_last hi rest lo
                (increasing_nondecreasing _ Hinc)) as Hhl.
  change (last (lo :: hi :: rest) lo) with (last (hi :: rest) lo) in Hlast.
  rewrite split_by_cons. set (k := Z.to_nat (hi - lo)).
  assert (Hf : length (firstn k vs) = k) by (rewrite length_firstn; lia).
  assert (Hs : length (skipn k vs) = (length vs - k)%nat) by apply length_skipn.
  destruct (firstn k vs) as [|v f] eqn:E; [simpl in Hf; lia|].
  cbn [geometry_runs length].
  rewrite (IH (i + 1) hi (skipn k vs)); [simpl; lia | reflexivity | exact Hinc |].
  rewrite (last_cons_indep hi rest hi lo). lia.
Qed.

(** ** The boxes of a sequence of geometries *)

Lemma reduce_by_key_of_runs {K V} (eq_dec : forall a b : K, {a = b} + {a <> b})
      (op : V -> V -> V) (keys : list K) (values : list V) (rs : list (run K V)) :
  combine keys values = flat_map run_items rs ->
  adjacent_differ (map run_key rs) ->
  reduce_by_key (equal_to eq_dec) op keys values = map (reduce_run op) rs.
Proof.
  intros Hc Ha. rewrite <- (reduce_by_key_run_list eq_dec op rs Ha).
  unfold reduce_by_key. now rewrite Hc, combine_fst_snd.
Qed.

Lemma combine_map_values {K A B} (f : A -> B) (ks : list K) (vs : list A) :
  combine ks (map f vs) = map (fun kv => (fst kv, f (snd kv))) (combine ks vs).
Proof.
  revert vs. induction ks as [|k ks IH]; intros [|v vs]; try reflexivity.
  simpl. now rewrite IH.
Qed.

Lemma run_items_map_run {K A B} (f : A -> B) (rs : list (run K A)) :
  flat_map run_items (map (map_run f) rs)
  = map (fun kv => (fst kv, f (snd kv))) (flat_map run_items rs).
Proof.
  induction rs as [|r rs IH]; [reflexivity|].
  cbn [map flat_map]. rewrite IH, map_app. f_equal.
  unfold run_items, map_run. cbn [run_key run_head run_tail map fst snd].
  f_equal. now rewrite !map_map.
Qed.

Lemma run_key_map_run {K A B} (f : A -> B) (rs : list (run K A)) :
  map run_key (map (map_run f) rs) = map run_key rs.
Proof. rewrite map_map. reflexivity. Qed.

(** Vertices tagged with the ids of an offset array: one box per geometry
    that has a vertex, in order. *)
Lemma geometry_boxes (T : float_type) (offsets : list Z)
      (vertices : list vec_2d) (r : spec_float) (t : list event) :
  offsets_ok offsets (Z.of_nat (length vertices)) ->
  point_bounding_boxes T option_Z_eq_dec
    (map (owner_from 0 offsets) (indices (length vertices))) vertices r t
  = (returned (map (run_box T r) (geometry_runs 0 (geometries offsets vertices))),
     t ++ [launch_reduce_by_key (length vertices)]).
Proof.
  intros (Hhd & Hnd & Hlast).
  unfold point_bounding_boxes, bind, emit, ret.
  rewrite length_map, indices_positions, positions_length. f_equal. f_equal.
  rewrite (geometries_split_by offsets 0 vertices Hhd ltac:(lia) Hnd).
  change (skipn (Z.to_nat 0) vertices) with vertices.
  set (rs := geometry_runs 0 (split_by offsets vertices)).
  unfold run_box. rewrite <- map_map with (g := reduce_run box_minmax).
  apply reduce_by_key_of_runs.
  - rewrite combine_map_values, run_items_map_run. f_equal.
    apply (owner_runs offsets 0 0 vertices Hhd Hnd). lia.
  - rewrite run_key_map_run. apply geometry_runs_adjacent_differ.
Qed.

(** ** Claim C6 *)

(** C6 as stated fails.  Offsets [0,0,5] over five vertices satisfy the
    precondition and describe two linestrings, the first one empty: one box
    is written, not two. *)
Lemma linestring_bounding_boxes_empty_linestring :
  let offsets := [0; 0; 5] in
  let vertices := [pt32 0 0; pt32 0x40000000 0x40000000;
                   pt32 0x40A00000 0x40A00000; pt32 0x40A00000 0x40A00000;
                   pt32 0x40E00000 0x40E00000] in
  nondecreasing offsets /\
  last offsets 0 = Z.of_nat (length vertices) /\
  Z.of_nat (length offsets) - 1 = 2 /\
  length (boxes_of (linestring_bounding_boxes binary32 offsets vertices
                      (f32 0) [])) = 1%nat.
Proof. cbv zeta. repeat split; simpl; lia. Qed.

(** C6, as the code has it.  With no linestring or no vertex the call
    returns at once: nothing written, no error, nothing enqueued.  Otherwise,
    for offsets that start at 0, do not decrease and end at the vertex
    count, one reduction is enqueued and one box is written per linestring
    that has at least one vertex, in order: the merge of its expanded
    vertices.  That makes exactly N boxes when the offsets increase
    strictly, as for offsets [0,3,5] over 5 vertices, which give 2 boxes. *)
Theorem linestring_bounding_boxes_count
        (T : float_type) (linestring_offsets : list Z)
        (vertices : list vec_2d) (r : spec_float) (t : list event) :
  let N := Z.of_nat (length linestring_offsets) - 1 in
  let call := linestring_bounding_boxes T linestring_offsets vertices r t in
  let linestrings := geometries linestring_offsets vertices in
  (N = 0 \/ vertices = [] -> call = (returned [], t)) /\
  (offsets_ok linestring_offsets (Z.of_nat (length vertices)) ->
   N <> 0 -> vertices <> [] ->
   call = (returned (map (run_box T r) (geometry_runs 0 linestrings)),
           t ++ [launch_reduce_by_key (length vertices)]) /\
   length (boxes_of call)
   = length (filter (fun g => match g with [] => false | _ => true end)
                    linestrings) /\
   (increasing linestring_offsets -> Z.of_nat (length (boxes_of call)) = N)) /\
  length (boxes_of (linestring_bounding_boxes binary32 [0; 3; 5]
                      [pt32 0 0; pt32 0x40000000 0x40000000;
                       pt32 0x40A00000 0x40A00000; pt32 0x40A00000 0x40A00000;
                       pt32 0x40E00000 0x40E00000] (f32 0) [])) = 2%nat.
Proof.
  cbv zeta. split; [|split; [|reflexivity]].
  - intros H. unfold linestring_bounding_boxes.
    replace ((Z.of_nat (length linestring_offsets) - 1 =? 0)
             || (Z.of_nat (length vertices) =? 0)) with true; [reflexivity|].
    symmetry. apply orb_true_iff. destruct H as [H | ->].
    + left. now apply Z.eqb_eq.
    + right. reflexivity.
  - intros Hok HN Hv.
    assert (Hcall : linestring_bounding_boxes T linestring_offsets vertices r t
              = (returned (map (run_box T r)
                   (geometry_runs 0 (geometries linestring_offsets vertices))),
                 t ++ [launch_reduce_by_key (length vertices)])).
    { unfold linestring_bounding_boxes.
      destruct (Z.eqb_spec (Z.of_nat (length linestring_offsets) - 1) 0);
        [contradiction|].
      destruct (Z.eqb_spec (Z.of_nat (length vertices)) 0) as [E|_].
      - destruct vertices; [contradiction | discriminate].
      - cbn [orb]. apply geometry_boxes. exact Hok. }
    rewrite Hcall. unfold boxes_of. cbn [fst].
    rewrite length_map. split; [reflexivity|]. split.
    + apply geometry_runs_length.
    + intros Hinc. destruct Hok as (Hhd & Hnd & Hlast).
      rewrite (geometries_split_by linestring_offsets 0 vertices Hhd ltac:(lia) Hnd).
      change (skipn (Z.to_nat 0) vertices) with vertices.
      rewrite (geometry_runs_length_increasing linestring_offsets 0 0 vertices
                 Hhd Hinc ltac:(lia)).
      destruct linestring_offsets; [discriminate|]. simpl length. lia.
Qed.

Lemma linestring_bounding_boxes_count_witness :
  Z.of_nat (length (boxes_of (linestring_bounding_boxes binary32 [0; 1; 3]
                      [pt32 0 0; pt32 0x40000000 0x40000000;
                       pt32 0x40A00000 0x40A00000] (f32 0x3F800000) []))) = 2.
Proof.
  apply (proj1 (proj2 (linestring_bounding_boxes_count binary32 [0; 1; 3]
            [pt32 0 0; pt32 0x40000000 0x40000000; pt32 0x40A00000 0x40A00000]
            (f32 0x3F800000) []))).
  - repeat split; simpl; lia.
  - simpl. lia.
  - discriminate.
  - simpl. lia.
Defined.

(** ** The two-level ids of a polygon sequence *)

Lemma nondecreasing_hd_le_nth a l j :
  nondecreasing (a :: l) -> (j < length (a :: l))%nat -> a <= nth j (a :: l) 0.
Proof.
  revert a j. induction l as [|b l IH]; intros a j H Hj.
  - destruct j as [|[|j]]; simpl in *; lia.
  - destruct j as [|j]; [simpl; lia|].
    destruct H as [Hab H]. specialize (IH b j H).
    change (nth (S j) (a :: b :: l) 0) with (nth j (b :: l) 0).
    simpl in Hj. simpl length in IH. lia.
Qed.

Lemma nondecreasing_nth l i j :
  nondecreasing l -> (i <= j < length l)%nat -> nth i l 0 <= nth j l 0.
Proof.
  revert i j. induction l as [|a l IH]; intros i j H Hij; [simpl in Hij; lia|].
  destruct i as [|i].
  - apply (nondecreasing_hd_le_nth a l j H). lia.
  - destruct j as [|j]; [lia|].
    change (nth i l 0 <= nth j l 0). apply IH.
    + eapply nondecreasing_tail, H.
    + simpl in Hij. lia.
Qed.

Lemma last_nth (l : list Z) d : last l d = nth (length l - 1) l d.
Proof.
  induction l as [|a l IH]; [reflexivity|].
  destruct l as [|b l]; [reflexivity|].
  change (last (a :: b :: l) d) with (last (b :: l) d). rewrite IH.
  simpl. now rewrite Nat.sub_0_r.
Qed.

Lemma owner_from_cons i lo hi rest v :
  owner_from i (lo :: hi :: rest) v
  = if (lo <=? v) && (v <? hi) then Some i
    else owner_from (i + 1) (hi :: rest) v.
Proof. reflexivity. Qed.

(** What a found owner satisfies. *)
Lemma owner_from_sound offsets i v j :
  owner_from i offsets v = Some j ->
  exists k : nat, j = i + Z.of_nat k /\ (S k < length offsets)%nat /\
                  nth k offsets 0 <= v < nth (S k) offsets 0.
Proof.
  revert i. induction offsets as [|lo offsets IH]; intros i H; [discriminate|].
  destruct offsets as [|hi rest]; [discriminate|].
  rewrite owner_from_cons in H.
  destruct ((lo <=? v) && (v <? hi)) eqn:E.
  - injection H as <-. exists 0%nat. apply andb_true_iff in E.
    destruct E as [E1 E2]. apply Z.leb_le in E1. apply Z.ltb_lt in E2.
    simpl. repeat split; lia.
  - destruct (IH _ H) as (k & -> & Hk & Hv). exists (S k).
    repeat split; [lia | simpl in *; lia | exact (proj1 Hv) | exact (proj2 Hv)].
Qed.

(** In offsets that do not decrease, the group a position lies in is its
    owner. *)
Lemma owner_from_complete offsets i v (k : nat) :
  nondecreasing offsets -> (S k < length offsets)%nat ->
  nth k offsets 0 <= v < nth (S k) offsets 0 ->
  owner_from i offsets v = Some (i + Z.of_nat k).
Proof.
  revert i k. induction offsets as [|lo offsets IH]; intros i k Hnd Hk Hv;
    [simpl in Hk; lia|].
  destruct offsets as [|hi rest]; [simpl in Hk; lia|].
  rewrite owner_from_cons. destruct k as [|k].
  - simpl in Hv. destruct (Z.leb_spec lo v); [|lia].
    destruct (Z.ltb_spec v hi); [|lia]. cbn. f_equal. lia.
  - destruct Hnd as [Hle Hnd].
    change (nth (S k) (lo :: hi :: rest) 0) with (nth k (hi :: rest) 0) in Hv.
    pose proof (nondecreasing_hd_le_nth hi rest k Hnd) as Hh.
    simpl in Hk. simpl length in Hh. specialize (Hh ltac:(lia)).
    destruct (Z.ltb_spec v hi); [lia|]. rewrite andb_false_r.
    rewrite (IH (i + 1) k Hnd); [f_equal; lia | simpl; lia |].
    exact Hv.
Qed.

(** Every position between the first and the last offset lies in a group. *)
Lemma owner_exists offsets v :
  nondecreasing offsets -> (1 <= length offsets)%nat ->
  nth 0 offsets 0 <= v < last offsets 0 ->
  exists k : nat, (S k < length offsets)%nat /\
                  nth k offsets 0 <= v < nth (S k) offsets 0.
Proof.
  induction offsets as [|lo offsets IH]; intros Hnd Hl Hv; [simpl in Hl; lia|].
  destruct offsets as [|hi rest]; [simpl in Hv; lia|].
  destruct Hnd as [Hle Hnd].
  destruct (Z.lt_ge_cases v hi) as [Hlt | Hge].
  - exists 0%nat. simpl in *. split; lia.
  - destruct (IH Hnd) as (k & Hk & Hkv); [simpl; lia | |].
    + change (last (lo :: hi :: rest) 0) with (last (hi :: rest) 0) in Hv.
      simpl nth. lia.
    + exists (S k). split; [simpl in *; lia | exact Hkv].
Qed.

Lemma nondecreasing_range l a :
  nondecreasing l -> In a l -> nth 0 l 0 <= a <= last l 0.
Proof.
  intros Hnd Hin. apply (In_nth _ _ 0) in Hin. destruct Hin as (k & Hk & <-).
  rewrite last_nth. split; apply nondecreasing_nth; trivial; lia.
Qed.

Lemma last_map_Z (f : Z -> Z) (l : list Z) d :
  l <> [] -> last (map f l) d = f (last l d).
Proof.
  induction l as [|a l IH]; [congruence|]. intros _.
  destruct l as [|b l]; [reflexivity|].
  change (last (map f (b :: l)) d = f (last (b :: l) d)).
  apply IH. discriminate.
Qed.

Lemma nondecreasing_map_nth po ro :
  nondecreasing po -> nondecreasing ro ->
  (forall a, In a po -> 0 <= a < Z.of_nat (length ro)) ->
  nondecreasing (polygon_vertex_offsets po ro).
Proof.
  intros Hpo Hro. induction po as [|a po IH]; intros Hin; [exact I|].
  destruct po as [|b po]; [exact I|].
  destruct Hpo as [Hab Hpo].
  split.
  - apply nondecreasing_nth; [exact Hro|].
    pose proof (Hin a (or_introl eq_refl)).
    pose proof (Hin b (or_intror (or_introl eq_refl))). lia.
  - apply IH; [exact Hpo|]. intros c Hc. apply Hin. now right.
Qed.

Lemma polygon_vertex_offsets_ok po ro n :
  offsets_ok po (Z.of_nat (length ro) - 1) -> offsets_ok ro n ->
  offsets_ok (polygon_vertex_offsets po ro) n.
Proof.
  intros (Hhp & Hnp & Hlp) (Hhr & Hnr & Hlr).
  destruct po as [|p0 po]; [discriminate|]. injection Hhp as ->.
  destruct ro as [|r0 ro]; [discriminate|]. injection Hhr as ->.
  assert (Hin : forall a, In a (0 :: po) -> 0 <= a < Z.of_nat (length (0 :: ro))).
  { intros a Ha. pose proof (nondecreasing_range _ a Hnp Ha) as Hr.
    simpl nth in Hr. lia. }
  repeat split.
  - apply nondecreasing_map_nth; assumption.
  - unfold polygon_vertex_offsets.
    rewrite last_map_Z by discriminate. rewrite Hlp.
    rewrite <- Hlr, last_nth. f_equal. lia.
Qed.

Lemma nth_polygon_vertex_offsets po ro k :
  hd_error ro = Some 0 ->
  nth k (polygon_vertex_offsets po ro) 0
  = nth (Z.to_nat (nth k po 0)) ro 0.
Proof.
  intros Hhd. unfold polygon_vertex_offsets.
  rewrite <- (map_nth (fun k => nth (Z.to_nat k) ro 0) po 0 k).
  f_equal. destruct ro; [discriminate|]. now injection Hhd as ->.
Qed.

(** Under the preconditions the two-level id of a vertex is its one-level
    id in the vertex offsets of the polygons. *)
Lemma two_level_owner po ro n v :
  offsets_ok po (Z.of_nat (length ro) - 1) -> offsets_ok ro n ->
  0 <= v < n ->
  make_geometry_id_iterator2 po ro v
  = owner_from 0 (polygon_vertex_offsets po ro) v.
Proof.
  intros Hpo Hro Hv.
  pose proof (polygon_vertex_offsets_ok po ro n Hpo Hro) as (_ & Hnv & _).
  destruct Hpo as (Hhp & Hnp & Hlp). destruct Hro as (Hhr & Hnr & Hlr).
  unfold make_geometry_id_iterator2, make_geometry_id_iterator.
  assert (Hro0 : nth 0 ro 0 = 0) by (destruct ro; [discriminate | now injection Hhr]).
  assert (Hpo0 : nth 0 po 0 = 0) by (destruct po; [discriminate | now injection Hhp]).
  assert (Hlro : (1 <= length ro)%nat) by (destruct ro; [discriminate | simpl; lia]).
  assert (Hlpo : (1 <= length po)%nat) by (destruct po; [discriminate | simpl; lia]).
  destruct (owner_exists ro v Hnr Hlro ltac:(lia)) as (r & Hr & Hrv).
  rewrite (owner_from_complete ro 0 v r Hnr Hr Hrv).
  destruct (owner_exists po (Z.of_nat r) Hnp Hlpo ltac:(lia)) as (p & Hp & Hpr).
  change (0 + Z.of_nat r) with (Z.of_nat r).
  rewrite (owner_from_complete po 0 (Z.of_nat r) p Hnp Hp Hpr).
  symmetry. apply owner_from_complete.
  - exact Hnv.
  - unfold polygon_vertex_offsets. now rewrite length_map.
  - rewrite !nth_polygon_vertex_offsets by exact Hhr.
    assert (Hb : nth (S p) po 0 <= Z.of_nat (length ro) - 1).
    { rewrite <- Hlp, last_nth. apply nondecreasing_nth; [exact Hnp | lia]. }
    assert (Ha : 0 <= nth p po 0).
    { pose proof (nondecreasing_nth po 0 p Hnp ltac:(lia)). lia. }
    split.
    + apply Z.le_trans with (nth r ro 0); [|lia].
      apply nondecreasing_nth; [exact Hnr | lia].
    + apply Z.lt_le_trans with (nth (S r) ro 0); [lia|].
      apply nondecreasing_nth; [exact Hnr | lia].
Qed.

(** ** A polygon is the concatenation of its rings *)

Lemma firstn_plus {A} (a b : nat) (l : list A) :
  firstn (a + b) l = firstn a l ++ firstn b (skipn a l).
Proof.
  revert l. induction a as [|a IH]; intros l; [reflexivity|].
  destruct l as [|v l]; [now rewrite !firstn_nil|].
  simpl. f_equal. apply IH.
Qed.

Lemma nondecreasing_skipn k l : nondecreasing l -> nondecreasing (skipn k l).
Proof.
  revert l. induction k as [|k IH]; intros l H; [exact H|].
  destruct l as [|a l]; [exact I|]. apply IH. eapply nondecreasing_tail, H.
Qed.

Lemma skipn_split_by {A} (k : nat) (offsets : list Z) (l : list A) :
  nondecreasing offsets -> (k < length offsets)%nat ->
  skipn k (split_by offsets l)
  = split_by (skipn k offsets)
      (skipn (Z.to_nat (nth k offsets 0 - nth 0 offsets 0)) l).
Proof.
  revert offsets l. induction k as [|k IH]; intros offsets l Hnd Hk.
  - rewrite Z.sub_diag. reflexivity.
  - destruct offsets as [|lo [|hi rest]]; try (simpl in Hk; lia).
    destruct Hnd as [Hle Hnd].
    rewrite split_by_cons. cbn [skipn].
    rewrite (IH (hi :: rest)) by (trivial; simpl in *; lia).
    rewrite skipn_skipn. f_equal. f_equal.
    pose proof (nondecreasing_hd_le_nth hi rest k Hnd ltac:(simpl in *; lia)).
    change (nth (S k) (lo :: hi :: rest) 0) with (nth k (hi :: rest) 0).
    simpl nth at 2 4. lia.
Qed.

Lemma concat_firstn_split_by {A} (k : nat) (offsets : list Z) (l : list A) :
  nondecreasing offsets -> (k < length offsets)%nat ->
  concat (firstn k (split_by offsets l))
  = firstn (Z.to_nat (nth k offsets 0 - nth 0 offsets 0)) l.
Proof.
  revert offsets l. induction k as [|k IH]; intros offsets l Hnd Hk.
  - rewrite Z.sub_diag. reflexivity.
  - destruct offsets as [|lo [|hi rest]]; try (simpl in Hk; lia).
    destruct Hnd as [Hle Hnd].
    rewrite split_by_cons. cbn [firstn concat].
    rewrite (IH (hi :: rest)) by (trivial; simpl in *; lia).
    rewrite <- firstn_plus. f_equal.
    pose proof (nondecreasing_hd_le_nth hi rest k Hnd ltac:(simpl in *; lia)).
    change (nth (S k) (lo :: hi :: rest) 0) with (nth k (hi :: rest) 0).
    simpl nth at 2 4. lia.
Qed.

Lemma split_by_two_levels {A} (po ro : list Z) (a : Z) (vs : list A) :
  hd_error po = Some a -> nondecreasing po -> nondecreasing ro ->
  last po a - a < Z.of_nat (length ro) ->
  split_by (map (fun b => nth (Z.to_nat (b - a)) ro 0) po) vs
  = map (@concat A) (split_by po (split_by ro vs)).
Proof.
  revert ro a vs. induction po as [|a0 po IH]; intros ro a vs Hhd Hnp Hnr Hl;
    [discriminate|].
  injection Hhd as ->. destruct po as [|b rest]; [reflexivity|].
  destruct Hnp as [Hab Hnp].
  change (last (a :: b :: rest) a) with (last (b :: rest) a) in Hl.
  pose proof (nondecreasing_hd_le_last b rest a Hnp) as Hbl.
  cbn [map]. rewrite !split_by_cons. cbn [map].
  assert (Hk : (Z.to_nat (b - a) < length ro)%nat) by lia.
  rewrite Z.sub_diag.
  rewrite (concat_firstn_split_by (Z.to_nat (b - a)) ro vs Hnr Hk).
  f_equal.
  rewrite (skipn_split_by (Z.to_nat (b - a)) ro vs Hnr Hk).
  rewrite <- (IH (skipn (Z.to_nat (b - a)) ro) b).
  - cbn [map]. rewrite Z.sub_diag. f_equal. f_equal.
    + rewrite nth_skipn. f_equal. lia.
    + apply map_ext_in. intros c Hc. rewrite nth_skipn. f_equal.
      assert (b <= c).
      { pose proof (nondecreasing_range (b :: rest) c Hnp (or_intror Hc)) as Hr.
        simpl nth in Hr. lia. }
      lia.
  - reflexivity.
  - exact Hnp.
  - apply nondecreasing_skipn, Hnr.
  - rewrite length_skipn. rewrite (last_cons_indep b rest b a). lia.
Qed.

(** Grouping the vertices by the vertex offsets of the polygons is grouping
    them into rings, the rings into polygons, and concatenating the rings of
    each polygon. *)
Lemma polygon_geometries {A} (po ro : list Z) (vs : list A) :
  offsets_ok po (Z.of_nat (length ro) - 1) ->
  offsets_ok ro (Z.of_nat (length vs)) ->
  geometries (polygon_vertex_offsets po ro) vs
  = map (@concat A) (geometries po (geometries ro vs)).
Proof.
  intros Hpo Hro.
  pose proof (polygon_vertex_offsets_ok po ro _ Hpo Hro) as (Hhv & Hnv & _).
  destruct Hpo as (Hhp & Hnp & Hlp). destruct Hro as (Hhr & Hnr & Hlr).
  rewrite (geometries_split_by _ 0 vs Hhv ltac:(lia) Hnv).
  rewrite (geometries_split_by ro 0 vs Hhr ltac:(lia) Hnr).
  rewrite (geometries_split_by po 0 _ Hhp ltac:(lia) Hnp).
  cbn [Z.to_nat skipn].
  rewrite <- (split_by_two_levels po ro 0 vs Hhp Hnp Hnr ltac:(lia)).
  f_equal. apply map_ext. intros b. now rewrite Z.sub_0_r.
Qed.

(** ** Rounding of [SFadd] and [SFsub] *)

Lemma digits2_pos_bounds (m : positive) :
  2 ^ (Z.pos (digits2_pos m) - 1) <= Z.pos m < 2 ^ Z.pos (digits2_pos m).
Proof.
  induction m as [m IH|m IH|]; cbn [digits2_pos];
    rewrite ?Pos2Z.inj_succ.
  - replace (Z.succ (Z.pos (digits2_pos m)) - 1) with (Z.succ (Z.pos (digits2_pos m) - 1)) by lia.
    rewrite !Z.pow_succ_r by lia. lia.
  - replace (Z.succ (Z.pos (digits2_pos m)) - 1) with (Z.succ (Z.pos (digits2_pos m) - 1)) by lia.
    rewrite !Z.pow_succ_r by lia. lia.
  - simpl. lia.
Qed.

Lemma digits2_pos_unique (m : positive) (k : Z) :
  2 ^ (k - 1) <= Z.pos m < 2 ^ k -> Z.pos (digits2_pos m) = k.
Proof.
  intros Hk. pose proof (digits2_pos_bounds m) as Hd.
  set (d := Z.pos (digits2_pos m)) in *.
  assert (0 < d) by (unfold d; lia).
  destruct (Z.lt_trichotomy d k) as [Hlt | [Heq | Hgt]]; [|exact Heq|].
  - assert (2 ^ d <= 2 ^ (k - 1)) by (apply Z.pow_le_mono_r; lia). lia.
  - assert (0 <= k).
    { destruct (Z.le_gt_cases 0 k); [trivial|].
      rewrite (Z.pow_neg_r 2 k) in Hk by lia. lia. }
    assert (2 ^ k <= 2 ^ (d - 1)) by (apply Z.pow_le_mono_r; lia). lia.
Qed.

Lemma digits2_pos_mono (m1 m2 : positive) :
  (m1 <= m2)%positive -> Z.pos (digits2_pos m1) <= Z.pos (digits2_pos m2).
Proof.
  intros Hle. pose proof (digits2_pos_bounds m1) as H1.
  pose proof (digits2_pos_bounds m2) as H2.
  destruct (Z.le_gt_cases (Z.pos (digits2_pos m1)) (Z.pos (digits2_pos m2)));
    [trivial|].
  assert (2 ^ Z.pos (digits2_pos m2) <= 2 ^ (Z.pos (digits2_pos m1) - 1))
    by (apply Z.pow_le_mono_r; lia).
  lia.
Qed.

Lemma iter_pos_swap {A} (f : A -> A) (p : positive) (a : A) :
  iter_pos f p (f a) = f (iter_pos f p a).
Proof.
  revert a. induction p as [p IH|p IH|]; intros a; cbn [iter_pos].
  - now rewrite !IH.
  - now rewrite !IH.
  - reflexivity.
Qed.

Lemma iter_pos_succ {A} (f : A -> A) (p : positive) (a : A) :
  iter_pos f (Pos.succ p) a = f (iter_pos f p a).
Proof.
  revert a. induction p as [p IH|p IH|]; intros a; cbn [iter_pos Pos.succ].
  - rewrite !IH. now rewrite !iter_pos_swap.
  - now rewrite !iter_pos_swap.
  - reflexivity.
Qed.

Lemma shr_inv_0 (V : Z) : shr_inv V 0 (Build_shr_record V false false).
Proof.
  unfold shr_inv. cbn [shr_m shr_r shr_s]. rewrite Z.pow_0_r, Z.div_1_r, Z.mod_1_r.
  repeat split.
Qed.

Lemma shr_1_m (mrs : shr_record) :
  0 <= shr_m mrs ->
  shr_m (shr_1 mrs) = shr_m mrs / 2 /\
  shr_r (shr_1 mrs) = Z.odd (shr_m mrs) /\
  shr_s (shr_1 mrs) = shr_r mrs || shr_s mrs.
Proof.
  destruct mrs as [m r s]. cbn [shr_m shr_r shr_s]. intros Hm.
  destruct m as [|[p|p|]|p]; cbn [shr_1 shr_m shr_r shr_s]; try lia;
    repeat split.
  - rewrite Pos2Z.inj_xI. apply Z.div_unique with (r := 1); lia.
  - rewrite Pos2Z.inj_xO. apply Z.div_unique with (r := 0); lia.
Qed.

Lemma shr_inv_step (V k : Z) (mrs : shr_record) :
  0 <= V -> 0 <= k -> shr_inv V k mrs -> shr_inv V (k + 1) (shr_1 mrs).
Proof.
  intros HV Hk (Hm & Hr & Hs).
  assert (Hp : 0 < 2 ^ k) by (apply Z.pow_pos_nonneg; lia).
  assert (Hm0 : 0 <= shr_m mrs) by (rewrite Hm; apply Z.div_pos; lia).
  destruct (shr_1_m mrs Hm0) as (Hm' & Hr' & Hs').
  unfold shr_inv. rewrite Hm', Hr', Hs', Hm, Hr, Hs.
  rewrite Z.pow_add_r, Z.pow_1_r by lia.
  rewrite Z.rem_mul_r by lia.
  rewrite Z.div_div by lia.
  pose proof (Z.mod_pos_bound V (2 ^ k) Hp) as Hrem.
  set (rem := V mod 2 ^ k) in *. set (q := V / 2 ^ k) in *.
  pose proof (Z.mod_pos_bound q 2 ltac:(lia)) as Hq2.
  assert (Hodd : Z.odd q = (q mod 2 =? 1)).
  { rewrite Zodd_mod. reflexivity. }
  rewrite Hodd.
  set (P := 2 ^ k) in *.
  assert (Hb : q mod 2 = 0 \/ q mod 2 = 1) by lia.
  repeat split.
  - destruct Hb as [-> | ->]; rewrite ?Z.mul_0_r, ?Z.mul_1_r, ?Z.add_0_r;
      destruct (Z.leb_spec (P * 2) (2 * rem));
      destruct (Z.leb_spec (P * 2) (2 * (rem + P))); cbn; lia.
  - destruct Hb as [-> | ->]; rewrite ?Z.mul_0_r, ?Z.mul_1_r, ?Z.add_0_r;
      destruct (Z.leb_spec P (2 * rem)); destruct (Z.eqb_spec rem 0);
      destruct (Z.eqb_spec (2 * rem) P);
      destruct (Z.eqb_spec (rem + P) 0);
      destruct (Z.eqb_spec (2 * (rem + P)) (P * 2));
      destruct (Z.eqb_spec (2 * rem) (P * 2));
      cbn; try reflexivity; lia.
Qed.

Lemma shr_inv_iter (V : Z) (p : positive) :
  0 <= V ->
  shr_inv V (Z.pos p) (iter_pos shr_1 p (Build_shr_record V false false)).
Proof.
  intros HV. induction p as [|p IH] using Pos.peano_ind.
  - change (iter_pos shr_1 1 ?a) with (shr_1 a).
    apply (shr_inv_step V 0); [lia | lia | apply shr_inv_0].
  - rewrite iter_pos_succ, Pos2Z.inj_succ.
    apply (shr_inv_step V (Z.pos p)); [lia | lia | exact IH].
Qed.

Lemma shr_inv_round (V k : Z) (mrs : shr_record) :
  0 <= V -> 0 <= k -> shr_inv V k mrs ->
  round_nearest_even (shr_m mrs) (loc_of_shr_record mrs) = rne V k.
Proof.
  intros HV Hk (Hm & Hr & Hs). destruct mrs as [m r s].
  cbn [shr_m shr_r shr_s] in *. unfold rne. subst m.
  assert (Hp : 0 < 2 ^ k) by (apply Z.pow_pos_nonneg; lia).
  pose proof (Z.mod_pos_bound V (2 ^ k) Hp) as Hrem.
  set (rem := V mod 2 ^ k) in *. set (q := V / 2 ^ k) in *.
  destruct (Z.ltb_spec (2 * rem) (2 ^ k));
    destruct (Z.ltb_spec (2 ^ k) (2 * rem));
    destruct (Z.leb_spec (2 ^ k) (2 * rem));
    destruct (Z.eqb_spec rem 0); destruct (Z.eqb_spec (2 * rem) (2 ^ k));
    try lia; subst r s; cbn; reflexivity.
Qed.

Lemma rne_bounds (V k : Z) :
  0 <= V -> 0 <= k -> V / 2 ^ k <= rne V k <= V / 2 ^ k + 1.
Proof.
  intros. unfold rne.
  destruct (_ <? _); [lia|]. destruct (_ <? _); [lia|].
  destruct (Z.even _); lia.
Qed.

Lemma rne_mono (V1 V2 k : Z) :
  0 <= V1 <= V2 -> 0 <= k -> rne V1 k <= rne V2 k.
Proof.
  intros HV Hk.
  assert (Hp : 0 < 2 ^ k) by (apply Z.pow_pos_nonneg; lia).
  assert (Hq : V1 / 2 ^ k <= V2 / 2 ^ k) by (apply Z.div_le_mono; lia).
  pose proof (rne_bounds V1 k ltac:(lia) Hk).
  pose proof (rne_bounds V2 k ltac:(lia) Hk).
  destruct (Z.eq_dec (V1 / 2 ^ k) (V2 / 2 ^ k)) as [E|NE]; [|lia].
  assert (Hrem : V1 mod 2 ^ k <= V2 mod 2 ^ k).
  { pose proof (Z.div_mod V1 (2 ^ k) ltac:(lia)).
    pose proof (Z.div_mod V2 (2 ^ k) ltac:(lia)). nia. }
  unfold rne. rewrite E.
  destruct (Z.ltb_spec (2 * (V1 mod 2 ^ k)) (2 ^ k));
    destruct (Z.ltb_spec (2 * (V2 mod 2 ^ k)) (2 ^ k));
    destruct (Z.ltb_spec (2 ^ k) (2 * (V1 mod 2 ^ k)));
    destruct (Z.ltb_spec (2 ^ k) (2 * (V2 mod 2 ^ k)));
    destruct (Z.even (V2 / 2 ^ k)); lia.
Qed.

Section Rounding.
Variables prec emax : Z.
Hypothesis Hprec : 0 < prec.

Lemma pos_iter_xO (m d : positive) :
  Z.pos (Pos.iter xO m d) = Z.pos m * 2 ^ Z.pos d.
Proof.
  induction d as [|d IH] using Pos.peano_ind.
  - simpl. lia.
  - rewrite Pos.iter_succ, Pos2Z.inj_xO, IH, Pos2Z.inj_succ, Z.pow_succ_r by lia.
    lia.
Qed.

Lemma shr_fexp_noshift (m e : Z) :
  fexp prec emax (Zdigits2 m + e) = e ->
  shr_fexp prec emax m e loc_Exact = (Build_shr_record m false false, e).
Proof.
  intros H. unfold shr_fexp, shr. rewrite H, Z.sub_diag. reflexivity.
Qed.

Lemma binary_round_aux_exact (s : bool) (m : positive) (e : Z) :
  fexp prec emax (Z.pos (digits2_pos m) + e) = e ->
  binary_round_aux prec emax s (Z.pos m) e loc_Exact
  = float_of_rounded prec emax s (Z.pos m, e).
Proof.
  intros H. unfold binary_round_aux.
  rewrite (shr_fexp_noshift (Z.pos m) e H).
  cbn [shr_m loc_of_shr_record round_nearest_even].
  rewrite (shr_fexp_noshift (Z.pos m) e H).
  reflexivity.
Qed.

Lemma binary_round_rounded (s : bool) (m : positive) (e : Z) :
  emin prec emax <= e ->
  binary_round prec emax s m e
  = float_of_rounded prec emax s (rounded prec emax m e).
Proof.
  intros He. unfold binary_round, rounded.
  pose proof (digits2_pos_bounds m) as Hd.
  set (d := Z.pos (digits2_pos m)) in *.
  assert (Hd0 : 0 < d) by (unfold d; lia).
  destruct (Z.leb_spec d prec) as [Hdp | Hdp].
  - (* no bit is lost *)
    set (fe := fexp prec emax (d + e)).
    assert (Hfe : fe <= e) by (unfold fe, fexp; lia).
    assert (Hfe' : fe = Z.max (d + e - prec) (emin prec emax)) by reflexivity.
    unfold shl_align.
    destruct (fe - e) as [|k|k] eqn:Ek; try lia.
    + assert (fe = e) by lia.
      rewrite binary_round_aux_exact by (fold d; fold fe; lia).
      replace (e - fe) with 0 by lia. rewrite Z.pow_0_r, Z.mul_1_r.
      now replace fe with e by lia.
    + assert (Hk : e - fe = Z.pos k) by lia.
      assert (Hmz : Z.pos (Pos.iter xO m k) = Z.pos m * 2 ^ (e - fe))
        by (rewrite Hk; apply pos_iter_xO).
      rewrite binary_round_aux_exact.
      * now rewrite Hmz.
      * rewrite (digits2_pos_unique _ (d + (e - fe))).
        -- replace (d + (e - fe) + fe) with (d + e) by lia. reflexivity.
        -- rewrite Hmz.
           replace (d + (e - fe) - 1) with ((d - 1) + (e - fe)) by lia.
           rewrite !Z.pow_add_r by lia.
           assert (0 < 2 ^ (e - fe)) by (apply Z.pow_pos_nonneg; lia).
           nia.
  - (* [d - prec] bits are rounded away *)
    set (n := d - prec).
    assert (Hfe : fexp prec emax (d + e) = e + n) by (unfold fexp, n; lia).
    rewrite Hfe. unfold shl_align.
    destruct (e + n - e) as [|k|k] eqn:Ek; try lia.
    assert (Hk : n = Z.pos k) by lia.
    unfold binary_round_aux.
    unfold shr_fexp at 1. unfold Zdigits2. fold d. rewrite Hfe, Ek.
    unfold shr at 1.
    pose proof (shr_inv_iter (Z.pos m) k ltac:(lia)) as Hinv.
    rewrite <- Hk in Hinv.
    cbn [shr_record_of_loc].
    rewrite (shr_inv_round (Z.pos m) n _ ltac:(lia) ltac:(lia) Hinv).
    replace (e + Z.pos k) with (e + n) by lia.
    (* the rounded mantissa has [prec] or [prec + 1] digits *)
    assert (Hp : 0 < 2 ^ n) by (apply Z.pow_pos_nonneg; lia).
    assert (Hq : 2 ^ (prec - 1) <= Z.pos m / 2 ^ n < 2 ^ prec).
    { replace d with (prec + n) in Hd by lia.
      replace (prec + n - 1) with ((prec - 1) + n) in Hd by lia.
      rewrite !Z.pow_add_r in Hd by lia. split.
      - apply Z.div_le_lower_bound; lia.
      - apply Z.div_lt_upper_bound; lia. }
    pose proof (rne_bounds (Z.pos m) n ltac:(lia) ltac:(lia)) as Hb.
    set (q := rne (Z.pos m) n) in *.
    assert (Hpp : 0 < 2 ^ (prec - 1)) by (apply Z.pow_pos_nonneg; lia).
    assert (H2 : 2 ^ prec = 2 * 2 ^ (prec - 1)).
    { rewrite <- Z.pow_succ_r by lia. f_equal. lia. }
    destruct q as [|qp|qp] eqn:Eq; try lia.
    destruct (Z.eqb_spec (Z.pos qp) (2 ^ prec)) as [Ecarry | Ecarry].
    + (* carry: one more shift *)
      unfold shr_fexp. unfold Zdigits2.
      rewrite (digits2_pos_unique qp (prec + 1))
        by (replace (prec + 1 - 1) with prec by lia;
            rewrite Z.pow_add_r, Z.pow_1_r by lia; lia).
      replace (fexp prec emax (prec + 1 + (e + n)) - (e + n)) with 1
        by (unfold fexp; lia).
      cbn [shr_record_of_loc shr iter_pos].
      destruct (shr_1_m (Build_shr_record (Z.pos qp) false false)) as (Hm1 & _);
        [cbn; lia|].
      cbn [shr_m] in Hm1. rewrite Hm1, Ecarry, H2.
      rewrite Z.mul_comm, Z.div_mul by lia.
      unfold float_of_rounded. cbn [fst snd].
      destruct (2 ^ (prec - 1)) eqn:E2; try lia.
      reflexivity.
    + rewrite shr_fexp_noshift.
      * cbn [shr_m]. unfold float_of_rounded. cbn [fst snd]. reflexivity.
      * unfold Zdigits2. rewrite (digits2_pos_unique qp prec) by lia.
        unfold fexp. lia.
Qed.
End Rounding.

Section RoundingOrder.
Variables prec emax : Z.
Hypothesis Hprec : 0 < prec.

Lemma rne_digits_bounds (m : positive) :
  prec < Z.pos (digits2_pos m) ->
  2 ^ (prec - 1) <= rne (Z.pos m) (Z.pos (digits2_pos m) - prec) <= 2 ^ prec.
Proof.
  intros Hd. pose proof (digits2_pos_bounds m) as Hb.
  set (d := Z.pos (digits2_pos m)) in *. set (n := d - prec).
  assert (Hp : 0 < 2 ^ n) by (apply Z.pow_pos_nonneg; lia).
  assert (Hq : 2 ^ (prec - 1) <= Z.pos m / 2 ^ n < 2 ^ prec).
  { replace d with (prec + n) in Hb by lia.
    replace (prec + n - 1) with ((prec - 1) + n) in Hb by lia.
    rewrite !Z.pow_add_r in Hb by lia. split.
    - apply Z.div_le_lower_bound; lia.
    - apply Z.div_lt_upper_bound; lia. }
  pose proof (rne_bounds (Z.pos m) n ltac:(lia) ltac:(lia)). lia.
Qed.

Lemma rounded_positive (m : positive) (e : Z) :
  emin prec emax <= e -> 0 < fst (rounded prec emax m e).
Proof.
  intros He. unfold rounded.
  assert (Hpp : 0 < 2 ^ (prec - 1)) by (apply Z.pow_pos_nonneg; lia).
  destruct (Z.leb_spec (Z.pos (digits2_pos m)) prec) as [Hd | Hd].
  - cbn [fst].
    assert (0 < 2 ^ (e - fexp prec emax (Z.pos (digits2_pos m) + e))).
    { apply Z.pow_pos_nonneg; [lia|]. unfold fexp. lia. }
    lia.
  - pose proof (rne_digits_bounds m Hd).
    destruct (_ =? _); cbn [fst]; lia.
Qed.

(** Rounding does not decrease: the results are ordered by exponent, then
    by mantissa. *)
Lemma rounded_mono (m1 m2 : positive) (e : Z) :
  (m1 <= m2)%positive -> emin prec emax <= e ->
  snd (rounded prec emax m1 e) < snd (rounded prec emax m2 e) \/
  (snd (rounded prec emax m1 e) = snd (rounded prec emax m2 e) /\
   fst (rounded prec emax m1 e) <= fst (rounded prec emax m2 e)).
Proof.
  intros Hm He. pose proof (digits2_pos_mono m1 m2 Hm) as Hd.
  unfold rounded.
  set (d1 := Z.pos (digits2_pos m1)) in *.
  set (d2 := Z.pos (digits2_pos m2)) in *.
  destruct (Z.leb_spec d1 prec) as [H1 | H1];
    destruct (Z.leb_spec d2 prec) as [H2 | H2]; try lia.
  - cbn [fst snd]. unfold fexp.
    destruct (Z.lt_ge_cases (Z.max (d1 + e - prec) (emin prec emax))
                            (Z.max (d2 + e - prec) (emin prec emax)))
      as [Hlt | Hge]; [left; exact Hlt|].
    right. assert (E : Z.max (d1 + e - prec) (emin prec emax)
                       = Z.max (d2 + e - prec) (emin prec emax)) by lia.
    split; [exact E|]. rewrite E.
    apply Z.mul_le_mono_nonneg_r; [apply Z.pow_nonneg; lia | lia].
  - left. pose proof (rne_digits_bounds m2 H2).
    assert (fexp prec emax (d1 + e) <= e) by (unfold fexp; lia).
    destruct (_ =? _); cbn [fst snd]; lia.
  - pose proof (rne_digits_bounds m1 H1) as Hb1.
    pose proof (rne_digits_bounds m2 H2) as Hb2.
    fold d1 in Hb1. fold d2 in Hb2.
    destruct (Z.eq_dec d1 d2) as [E | NE].
    + rewrite <- E in *.
      pose proof (rne_mono (Z.pos m1) (Z.pos m2) (d1 - prec) ltac:(lia)
                    ltac:(lia)) as Hq.
      destruct (Z.eqb_spec (rne (Z.pos m1) (d1 - prec)) (2 ^ prec));
        destruct (Z.eqb_spec (rne (Z.pos m2) (d1 - prec)) (2 ^ prec));
        cbn [fst snd]; lia.
    + destruct (Z.eqb_spec (rne (Z.pos m1) (d1 - prec)) (2 ^ prec));
        destruct (Z.eqb_spec (rne (Z.pos m2) (d2 - prec)) (2 ^ prec));
        cbn [fst snd]; lia.
Qed.

Lemma float_of_rounded_le (r1 r2 : Z * Z) :
  0 < fst r1 -> 0 < fst r2 ->
  snd r1 < snd r2 \/ (snd r1 = snd r2 /\ fst r1 <= fst r2) ->
  SFleb (float_of_rounded prec emax false r1)
        (float_of_rounded prec emax false r2) = true /\
  SFleb (float_of_rounded prec emax true r2)
        (float_of_rounded prec emax true r1) = true.
Proof.
  destruct r1 as [a1 e1], r2 as [a2 e2]. cbn [fst snd]. intros Ha1 Ha2 Hle.
  unfold float_of_rounded. cbn [fst snd].
  destruct (Z.leb_spec e1 (emax - prec)); destruct (Z.leb_spec e2 (emax - prec));
    try lia; unfold SFleb; cbn [SFcompare]; try (split; reflexivity).
  change (Pos.compare_cont Eq) with Pos.compare.
  destruct Hle as [Hlt | [-> Hle]].
  - rewrite (proj2 (Z.compare_lt_iff e1 e2) Hlt).
    rewrite (proj2 (Z.compare_gt_iff e2 e1) Hlt). split; reflexivity.
  - rewrite Z.compare_refl.
    rewrite !Pos2Z.inj_compare, !Z2Pos.id by lia.
    rewrite (Z.compare_antisym a1 a2).
    destruct (Z.compare_spec a1 a2); cbn [CompOpp]; try (split; reflexivity).
    lia.
Qed.

Lemma float_of_rounded_sign (s : bool) (r : Z * Z) :
  float_of_rounded prec emax s r = S754_infinity s \/
  exists m e, float_of_rounded prec emax s r = S754_finite s m e.
Proof.
  unfold float_of_rounded. destruct (_ <=? _); eauto.
Qed.

(** [binary_normalize] is monotone in the integer it normalizes. *)
Lemma binary_normalize_mono (m1 m2 e : Z) :
  emin prec emax <= e -> m1 <= m2 ->
  SFleb (binary_normalize prec emax m1 e false)
        (binary_normalize prec emax m2 e false) = true.
Proof.
  intros He Hm. unfold binary_normalize.
  destruct m1 as [|p1|p1], m2 as [|p2|p2]; try lia; try reflexivity;
    rewrite ?binary_round_rounded by assumption.
  - destruct (float_of_rounded_sign false (rounded prec emax p2 e))
      as [-> | (m & e' & ->)]; reflexivity.
  - pose proof (rounded_positive p1 e He). pose proof (rounded_positive p2 e He).
    apply (float_of_rounded_le _ _); trivial.
    apply rounded_mono; [lia | exact He].
  - destruct (float_of_rounded_sign true (rounded prec emax p1 e))
      as [-> | (m & e' & ->)]; reflexivity.
  - destruct (float_of_rounded_sign true (rounded prec emax p1 e))
      as [-> | (m & e' & ->)];
    destruct (float_of_rounded_sign false (rounded prec emax p2 e))
      as [-> | (m' & e'' & ->)]; reflexivity.
  - pose proof (rounded_positive p1 e He). pose proof (rounded_positive p2 e He).
    apply (float_of_rounded_le (rounded prec emax p2 e) (rounded prec emax p1 e));
      trivial.
    apply rounded_mono; [lia | exact He].
Qed.
End RoundingOrder.

Lemma prec_positive (T : float_type) : 0 < prec T.
Proof. destruct T; reflexivity. Qed.

Lemma valid_exponent (T : float_type) s m e :
  is_float T (S754_finite s m e) -> emin (prec T) (emax T) <= e.
Proof.
  unfold is_float, valid_binary, bounded, canonical_mantissa.
  intros H. apply andb_true_iff in H. destruct H as [H _].
  apply Z.eqb_eq in H. unfold fexp in H. lia.
Qed.

Lemma SFleb_refl_finite s m e :
  SFleb (S754_finite s m e) (S754_finite s m e) = true.
Proof.
  unfold SFleb. cbn [SFcompare].
  change (Pos.compare_cont Eq) with Pos.compare.
  rewrite Z.compare_refl, Pos.compare_refl. destruct s; reflexivity.
Qed.

(** The expanded interval of a coordinate is ordered. *)
Lemma expand_ordered (T : float_type) (c r : spec_float) :
  is_float T r -> SFleb (S754_zero false) r = true ->
  coordinate_ok T r c ->
  SFleb (fsub T c r) (fadd T c r) = true.
Proof.
  intros Hr Hr0 (Hc & Hn & Hi). unfold fsub, fadd.
  destruct r as [sr|[]| |[] mr er]; try discriminate;
    destruct c as [sc|sc| |sc mc ec]; try discriminate.
  - destruct sc, sr; reflexivity.
  - destruct sc, sr; reflexivity.
  - cbn [SFsub SFadd]. apply SFleb_refl_finite.
  - destruct sc; reflexivity.
  - reflexivity.
  - reflexivity.
  - destruct sc; reflexivity.
  - cbn [SFsub SFadd]. cbn [negb cond_Zopp].
    apply binary_normalize_mono.
    + apply prec_positive.
    + pose proof (valid_exponent T _ _ _ Hr). pose proof (valid_exponent T _ _ _ Hc).
      lia.
    + lia.
Qed.

(** ** Claim C5 *)

(** C5 as stated fails.  A point with a NaN coordinate, radius 0: the box
    written has NaN corners and does not satisfy the invariant. *)
Lemma point_bounding_boxes_nan_coordinate :
  let boxes := boxes_of (point_bounding_boxes binary32 Z.eq_dec [0]
                           [pt32 0x7FC00000 0] (f32 0) []) in
  SFleb (S754_zero false) (f32 0) = true /\
  boxes = [mk_box (mk_vec_2d S754_nan (f32 0)) (mk_vec_2d S754_nan (f32 0))] /\
  exists b, In b boxes /\ ~ box_ordered b.
Proof.
  cbv zeta. split; [reflexivity|]. split; [reflexivity|].
  eexists. split; [left; reflexivity|].
  intros [H _]. vm_compute in H. discriminate.
Qed.

Lemma fold_box_minmax_ordered (l : list box) (b : box) :
  box_ordered b -> Forall box_ordered l ->
  box_ordered (fold_left box_minmax l b).
Proof.
  revert b. induction l as [|c l IH]; intros b Hb Hl; [exact Hb|].
  inversion Hl as [|? ? Hc Hl']; subst. cbn [fold_left]. apply IH; [|exact Hl'].
  destruct Hb as [Hbx Hby], Hc as [Hcx Hcy]. split.
  - exact (merge_ordered _ _ _ _ Hbx Hcx).
  - exact (merge_ordered _ _ _ _ Hby Hcy).
Qed.

Lemma point_box_ordered (T : float_type) (r : spec_float) (p : vec_2d) :
  is_float T r -> SFleb (S754_zero false) r = true ->
  coordinate_ok T r (x p) -> coordinate_ok T r (y p) ->
  box_ordered (point_bounding_box_call T (make_point_bounding_box r) p).
Proof.
  intros Hr Hr0 Hx Hy. split; cbn; apply expand_ordered; assumption.
Qed.

Lemma run_points_in {K A} (eq_dec : forall a b : K, {a = b} + {a <> b})
      (keys : list K) (values : list A) (rn : run K A) :
  In rn (runs eq_dec (combine keys values)) ->
  forall v, In v (run_head rn :: run_tail rn) -> In v values.
Proof.
  intros Hrn v Hv.
  assert (Hi : In (run_key rn, v) (flat_map run_items (runs eq_dec (combine keys values)))).
  { apply in_flat_map. exists rn. split; [exact Hrn|].
    unfold run_items. destruct Hv as [<- | Hv]; [now left|].
    right. now apply in_map. }
  rewrite runs_items in Hi. eapply in_combine_r, Hi.
Qed.

Lemma point_bounding_boxes_ordered_boxes
      (T : float_type) {IdType} (eq_dec : forall a b : IdType, {a = b} + {a <> b})
      (ids : list IdType) (points : list vec_2d) (r : spec_float) t :
  is_float T r -> SFleb (S754_zero false) r = true ->
  (forall p, In p points -> coordinate_ok T r (x p) /\ coordinate_ok T r (y p)) ->
  Forall box_ordered (boxes_of (point_bounding_boxes T eq_dec ids points r t)).
Proof.
  intros Hr Hr0 Hp. unfold boxes_of, point_bounding_boxes, bind, emit, ret.
  cbn [fst]. rewrite reduce_by_key_runs, runs_map, map_map.
  apply Forall_forall. intros b Hb. apply in_map_iff in Hb.
  destruct Hb as (rn & <- & Hrn).
  pose proof (run_points_in eq_dec ids points rn Hrn) as Hin.
  unfold reduce_run, map_run. cbn [run_head run_tail].
  apply fold_box_minmax_ordered.
  - destruct (Hp (run_head rn)) as [Hx Hy]; [apply Hin; now left|].
    now apply point_box_ordered.
  - apply Forall_forall. intros c Hc. apply in_map_iff in Hc.
    destruct Hc as (p & <- & Hpin).
    destruct (Hp p) as [Hx Hy]; [apply Hin; now right|].
    now apply point_box_ordered.
Qed.

(** C5, as the code has it.  When the radius is a value of the coordinate
    type that is not negative (hence not a NaN), and no coordinate of a
    point is a NaN, nor infinite together with the radius, every box written
    by [point_bounding_boxes], and so by [linestring_bounding_boxes] and
    [polygon_bounding_boxes], satisfies [min.x <= max.x] and
    [min.y <= max.y].  Boxes with equal corners occur: a single point
    expanded by the radius 0. *)
Theorem bounding_boxes_ordered
        (T : float_type) (r : spec_float) (points : list vec_2d) (t : list event) :
  is_float T r -> SFleb (S754_zero false) r = true ->
  (forall p, In p points -> coordinate_ok T r (x p) /\ coordinate_ok T r (y p)) ->
  (forall (IdType : Type) (eq_dec : forall a b : IdType, {a = b} + {a <> b})
          (ids : list IdType),
      Forall box_ordered
             (boxes_of (point_bounding_boxes T eq_dec ids points r t))) /\
  (forall linestring_offsets,
      Forall box_ordered
             (boxes_of (linestring_bounding_boxes T linestring_offsets points r t))) /\
  (forall valid_polygon_sizes polygon_offsets ring_offsets,
      Forall box_ordered
             (boxes_of (polygon_bounding_boxes T valid_polygon_sizes
                          polygon_offsets ring_offsets points r t))) /\
  boxes_of (point_bounding_boxes binary32 Z.eq_dec [0] [pt32 0x40A00000 0]
              (f32 0) [])
  = [mk_box (pt32 0x40A00000 0) (pt32 0x40A00000 0)].
Proof.
  intros Hr Hr0 Hp. split; [|split; [|split; [|reflexivity]]].
  - intros IdType eq_dec ids. now apply point_bounding_boxes_ordered_boxes.
  - intros offsets. unfold linestring_bounding_boxes.
    destruct (_ || _); [constructor|].
    now apply point_bounding_boxes_ordered_boxes.
  - intros valid po ro. unfold polygon_bounding_boxes.
    destruct (_ >? _); [|constructor].
    unfold CUSPATIAL_EXPECTS_VALID_POLYGON_SIZES.
    unfold bind at 1 2. unfold emit at 1.
    destruct (valid _ _ _); [|constructor].
    unfold ret at 1.
    destruct (_ || _); [constructor|].
    now apply point_bounding_boxes_ordered_boxes.
Qed.

Lemma bounding_boxes_ordered_witness :
  Forall box_ordered
    (boxes_of (point_bounding_boxes binary32 Z.eq_dec [4; 4; 9]
       [pt32 0 0x80000000; pt32 0x40000000 0xC0A00000; pt32 0x7F800000 0x00000001]
       (f32 0x3F800000) [])).
Proof.
  refine (proj1 (bounding_boxes_ordered binary32 (f32 0x3F800000)
     [pt32 0 0x80000000; pt32 0x40000000 0xC0A00000; pt32 0x7F800000 0x00000001]
     [] _ _ _) Z Z.eq_dec [4; 4; 9]).
  - reflexivity.
  - reflexivity.
  - intros p [<- | [<- | [<- | []]]]; repeat split; reflexivity.
Defined.

(** ** A merge of ordered boxes is their bounding box *)

Lemma SFleb_trans a b c :
  SFleb a b = true -> SFleb b c = true -> SFleb a c = true.
Proof.
  rewrite !SFleb_fle. intros (? & ? & ?) (? & ? & ?).
  repeat split; trivial. now apply fle_trans with b.
Qed.

Lemma SFleb_refl_not_nan a : not_nan a -> SFleb a a = true.
Proof. intros. apply SFleb_fle. repeat split; trivial. apply fle_refl. Qed.

Lemma same_value_refl a : not_nan a -> same_value a a.
Proof.
  intros. apply SFeqb_fle. repeat split; trivial; apply fle_refl.
Qed.

Section IntervalBounds.
Variables a1 a2 b1 b2 : spec_float.
Hypothesis Ha : SFleb a1 a2 = true.
Hypothesis Hb : SFleb b1 b2 = true.

(** The merged interval contains both intervals, and its ends are ends of
    the two intervals. *)
Lemma merge_contains :
  SFleb (fmin (fmin a1 a2) b1) a1 = true /\
  SFleb (fmin (fmin a1 a2) b1) b1 = true /\
  SFleb a2 (fmax (fmax a1 a2) b2) = true /\
  SFleb b2 (fmax (fmax a1 a2) b2) = true.
Proof.
  apply SFleb_fle in Ha, Hb. destruct Ha as (? & ? & ?), Hb as (? & ? & ?).
  rewrite !SFleb_fle. repeat split; try (nn; fail); fle_auto.
Qed.

Lemma merge_attained :
  (same_value (fmin (fmin a1 a2) b1) a1 \/ same_value (fmin (fmin a1 a2) b1) b1) /\
  (same_value (fmax (fmax a1 a2) b2) a2 \/ same_value (fmax (fmax a1 a2) b2) b2).
Proof.
  apply SFleb_fle in Ha, Hb. destruct Ha as (Hn1 & Hn2 & Hle), Hb as (? & ? & ?).
  unfold same_value. split.
  - destruct (fmin_cases (fmin a1 a2) b1) as [E | E]; rewrite E.
    + left. apply SFeqb_fle. repeat split; try (nn; fail); fle_auto.
    + right. now apply same_value_refl.
  - destruct (fmax_cases (fmax a1 a2) b2) as [E | E]; rewrite E.
    + left. apply SFeqb_fle. repeat split; try (nn; fail); fle_auto.
    + right. now apply same_value_refl.
Qed.
End IntervalBounds.

Lemma same_value_trans a b c : same_value a b -> same_value b c -> same_value a c.
Proof.
  unfold same_value. rewrite !SFeqb_fle.
  intros (? & ? & ? & ?) (? & ? & ? & ?).
  repeat split; trivial; now apply fle_trans with b.
Qed.

Lemma box_contains_trans a b c :
  box_contains a b -> box_contains b c -> box_contains a c.
Proof.
  intros (H1 & H2 & H3 & H4) (G1 & G2 & G3 & G4).
  repeat split; eapply SFleb_trans; eassumption.
Qed.

Lemma box_minmax_contains a b :
  box_ordered a -> box_ordered b ->
  box_contains (box_minmax a b) a /\ box_contains (box_minmax a b) b.
Proof.
  intros [Hax Hay] [Hbx Hby].
  destruct (merge_contains _ _ _ _ Hax Hbx) as (? & ? & ? & ?).
  destruct (merge_contains _ _ _ _ Hay Hby) as (? & ? & ? & ?).
  split; repeat split; assumption.
Qed.

(** A merge of ordered boxes is their bounding box: it contains each of
    them, and each of its four bounds is the bound of one of them. *)
Lemma fold_box_minmax_bounding (l : list box) (b : box) :
  box_ordered b -> Forall box_ordered l ->
  Forall (box_contains (fold_left box_minmax l b)) (b :: l) /\
  box_attained (fold_left box_minmax l b) (b :: l).
Proof.
  revert b. induction l as [|c l IH]; intros b Hb Hl.
  - destruct Hb as [Hx Hy].
    apply SFleb_fle in Hx, Hy. destruct Hx as (? & ? & _), Hy as (? & ? & _).
    cbn [fold_left]. split.
    + constructor; [|constructor].
      repeat split; now apply SFleb_refl_not_nan.
    + repeat split; exists b; (split; [now left | now apply same_value_refl]).
  - inversion Hl as [|? ? Hc Hl']; subst. cbn [fold_left].
    assert (Hbc : box_ordered (box_minmax b c)).
    { destruct Hb as [Hbx Hby], Hc as [Hcx Hcy]. split.
      - exact (merge_ordered _ _ _ _ Hbx Hcx).
      - exact (merge_ordered _ _ _ _ Hby Hcy). }
    destruct (IH _ Hbc Hl') as (Hcont & Hatt).
    destruct (box_minmax_contains b c Hb Hc) as [Hcb Hcc].
    inversion Hcont as [|? ? Hc0 Hcl]; subst. split.
    + constructor; [eapply box_contains_trans; eassumption|].
      constructor; [eapply box_contains_trans; eassumption | exact Hcl].
    + destruct Hb as [Hbx Hby], Hc as [Hcx Hcy].
      destruct (merge_attained _ _ _ _ Hbx Hcx) as [Hx1 Hx2].
      destruct (merge_attained _ _ _ _ Hby Hcy) as [Hy1 Hy2].
      destruct Hatt as (A1 & A2 & A3 & A4).
      assert (Hlift : forall (g : box -> spec_float) res,
                 (exists d, In d (box_minmax b c :: l) /\ same_value res (g d)) ->
                 (same_value (g (box_minmax b c)) (g b) \/
                  same_value (g (box_minmax b c)) (g c)) ->
                 exists d, In d (b :: c :: l) /\ same_value res (g d)).
      { intros g res (d & [<- | Hd] & Hs) Hor.
        - destruct Hor as [Ho | Ho].
          + exists b. split; [now left | eapply same_value_trans; eassumption].
          + exists c. split; [right; now left | eapply same_value_trans; eassumption].
        - exists d. split; [right; now right | exact Hs]. }
      repeat split.
      * apply (Hlift (fun d => x (v1 d)) _ A1 Hx1).
      * apply (Hlift (fun d => x (v2 d)) _ A2 Hx2).
      * apply (Hlift (fun d => y (v1 d)) _ A3 Hy1).
      * apply (Hlift (fun d => y (v2 d)) _ A4 Hy2).
Qed.

(** ** Claim C2 *)

(** C2 as stated fails.  Three polygons, the second one without a ring:
    the offsets satisfy the preconditions and pass the size validation, and
    two boxes are written for the three polygons. *)
Lemma polygon_bounding_boxes_empty_polygon :
  let polygon_offsets := [0; 1; 1; 3] in
  let ring_offsets := [0; 3; 6; 9] in
  let vertices := [pt32 0 0; pt32 0x40000000 0; pt32 0 0x40000000;
                   pt32 0x40A00000 0x40A00000; pt32 0x40E00000 0x40A00000;
                   pt32 0x40A00000 0x40E00000;
                   pt32 0 0; pt32 0x40000000 0; pt32 0 0x40000000] in
  offsets_ok polygon_offsets (Z.of_nat (length ring_offsets) - 1) /\
  offsets_ok ring_offsets (Z.of_nat (length vertices)) /\
  Z.of_nat (length polygon_offsets) - 1 = 3 /\
  polygon_sizes_check (Z.of_nat (length vertices))
    (Z.of_nat (length polygon_offsets)) (Z.of_nat (length ring_offsets)) = true /\
  length (boxes_of (polygon_bounding_boxes binary32 polygon_sizes_check
                      polygon_offsets ring_offsets vertices (f32 0) []))
  = 2%nat.
Proof.
  cbv zeta. unfold offsets_ok.
  repeat split; try reflexivity; simpl; lia.
Qed.

Lemma geometries_length {A} (offsets : list Z) (l : list A) :
  length (geometries offsets l) = (length offsets - 1)%nat.
Proof.
  unfold geometries. rewrite length_map, length_combine.
  destruct offsets as [|a offsets]; [reflexivity|].
  cbn [tl length]. lia.
Qed.

Lemma filter_all {A} (f : A -> bool) (l : list A) :
  (forall a, In a l -> f a = true) -> filter f l = l.
Proof.
  induction l as [|a l IH]; intros H; [reflexivity|].
  simpl. rewrite H by (now left). f_equal. apply IH.
  intros b Hb. apply H. now right.
Qed.

Lemma run_box_bounding (T : float_type) (r : spec_float) {K}
      (rn : run K vec_2d) :
  is_float T r -> SFleb (S754_zero false) r = true ->
  (forall p, In p (run_head rn :: run_tail rn) ->
             coordinate_ok T r (x p) /\ coordinate_ok T r (y p)) ->
  let expanded := map (point_bounding_box_call T (make_point_bounding_box r))
                      (run_head rn :: run_tail rn) in
  Forall (box_contains (run_box T r rn)) expanded /\
  box_attained (run_box T r rn) expanded.
Proof.
  intros Hr Hr0 Hp. cbv zeta. unfold run_box, reduce_run, map_run.
  cbn [run_head run_tail map].
  apply fold_box_minmax_bounding.
  - destruct (Hp (run_head rn)) as [Hx Hy]; [now left|].
    now apply point_box_ordered.
  - apply Forall_forall. intros c Hc. apply in_map_iff in Hc.
    destruct Hc as (p & <- & Hpin).
    destruct (Hp p) as [Hx Hy]; [now right|].
    now apply point_box_ordered.
Qed.

(** C2, as the code has it.  For polygon offsets over the rings and ring
    offsets over the vertices that start at 0, do not decrease and end at
    the ring count and the vertex count, sizes that pass the validation, and
    at least one polygon, ring and vertex: every vertex of every ring of
    polygon [p], holes included, gets the id [p]; one box is written per
    polygon that has at least one vertex, in polygon order, and it is the
    merge of the expanded vertices of all the rings of that polygon.  The
    number of boxes is the number of polygons exactly when no polygon is
    without a vertex.  When moreover the radius is not negative and no
    coordinate is a NaN, nor infinite together with the radius, the box of a
    polygon is the bounding box of the expanded vertices of all its rings:
    it contains each of them and each of its four bounds is the bound of
    one of them.  For a triangle (0,0), (2,0), (2,2) with the hole (5,5),
    (7,7), (5,7) the box is {(0,0),(7,7)}. *)
Theorem polygon_bounding_boxes_all_rings
        (T : float_type) (valid_polygon_sizes : Z -> Z -> Z -> bool)
        (polygon_offsets ring_offsets : list Z) (vertices : list vec_2d)
        (r : spec_float) (t : list event) :
  let num_polys := Z.of_nat (length polygon_offsets) - 1 in
  let num_rings := Z.of_nat (length ring_offsets) - 1 in
  let num_vertices := Z.of_nat (length vertices) in
  let rings := geometries ring_offsets vertices in
  let polygons := map (@concat vec_2d) (geometries polygon_offsets rings) in
  let call := polygon_bounding_boxes T valid_polygon_sizes polygon_offsets
                ring_offsets vertices r t in
  let expand := point_bounding_box_call T (make_point_bounding_box r) in
  (offsets_ok polygon_offsets num_rings ->
   offsets_ok ring_offsets num_vertices ->
   valid_polygon_sizes num_vertices (Z.of_nat (length polygon_offsets))
                       (Z.of_nat (length ring_offsets)) = true ->
   0 < num_polys -> num_rings <> 0 -> num_vertices <> 0 ->
   combine (map (make_geometry_id_iterator2 polygon_offsets ring_offsets)
                (indices (length vertices))) vertices
   = flat_map run_items (geometry_runs 0 polygons) /\
   call = (returned (map (run_box T r) (geometry_runs 0 polygons)),
           t ++ [validate_polygon_sizes num_vertices
                   (Z.of_nat (length polygon_offsets))
                   (Z.of_nat (length ring_offsets));
                 launch_reduce_by_key (length vertices)]) /\
   length (boxes_of call)
   = length (filter (fun g => match g with [] => false | _ => true end)
                    polygons) /\
   ((forall g, In g polygons -> g <> []) ->
    Z.of_nat (length (boxes_of call)) = num_polys) /\
   (is_float T r -> SFleb (S754_zero false) r = true ->
    (forall p, In p vertices ->
               coordinate_ok T r (x p) /\ coordinate_ok T r (y p)) ->
    forall rn, In rn (geometry_runs 0 polygons) ->
      Forall (box_contains (run_box T r rn))
             (map expand (run_head rn :: run_tail rn)) /\
      box_attained (run_box T r rn)
                   (map expand (run_head rn :: run_tail rn)))) /\
  boxes_of (polygon_bounding_boxes binary32 polygon_sizes_check [0; 2] [0; 3; 6]
              [pt32 0 0; pt32 0x40000000 0; pt32 0x40000000 0x40000000;
               pt32 0x40A00000 0x40A00000; pt32 0x40E00000 0x40E00000;
               pt32 0x40A00000 0x40E00000] (f32 0) [])
  = [mk_box (pt32 0 0) (pt32 0x40E00000 0x40E00000)].
Proof.
  cbv zeta. split; [|vm_compute; reflexivity].
  intros Hpo Hro Hvalid Hp Hr Hv.
  pose proof (polygon_vertex_offsets_ok _ _ _ Hpo Hro) as Hvo.
  assert (Hids : map (make_geometry_id_iterator2 polygon_offsets ring_offsets)
                     (indices (length vertices))
                 = map (owner_from 0 (polygon_vertex_offsets polygon_offsets
                                         ring_offsets))
                       (indices (length vertices))).
  { apply map_ext_in. intros v Hin. rewrite indices_positions in Hin.
    apply positions_bounds in Hin.
    apply (two_level_owner _ _ (Z.of_nat (length vertices))); trivial; lia. }
  rewrite <- (polygon_geometries polygon_offsets ring_offsets vertices Hpo Hro).
  set (vo := polygon_vertex_offsets polygon_offsets ring_offsets) in *.
  assert (Hcall : polygon_bounding_boxes T valid_polygon_sizes polygon_offsets
                    ring_offsets vertices r t
            = (returned (map (run_box T r)
                           (geometry_runs 0 (geometries vo vertices))),
               t ++ [validate_polygon_sizes (Z.of_nat (length vertices))
                       (Z.of_nat (length polygon_offsets))
                       (Z.of_nat (length ring_offsets));
                     launch_reduce_by_key (length vertices)])).
  { unfold polygon_bounding_boxes.
    destruct (Z.gtb_spec (Z.of_nat (length polygon_offsets) - 1) 0); [|lia].
    unfold CUSPATIAL_EXPECTS_VALID_POLYGON_SIZES.
    unfold bind at 1 2. unfold emit at 1. rewrite Hvalid. unfold ret at 1.
    destruct (Z.eqb_spec (Z.of_nat (length polygon_offsets) - 1) 0); [lia|].
    destruct (Z.eqb_spec (Z.of_nat (length ring_offsets) - 1) 0); [lia|].
    destruct (Z.eqb_spec (Z.of_nat (length vertices)) 0); [lia|].
    cbn [orb]. rewrite Hids.
    rewrite (geometry_boxes T vo vertices r _ Hvo).
    now rewrite <- app_assoc. }
  assert (Hruns : combine (map (make_geometry_id_iterator2 polygon_offsets
                                  ring_offsets) (indices (length vertices)))
                          vertices
                  = flat_map run_items (geometry_runs 0 (geometries vo vertices))).
  { rewrite Hids, indices_positions.
    destruct Hvo as (Hhd & Hnd & Hlast).
    rewrite (geometries_split_by vo 0 vertices Hhd ltac:(lia) Hnd).
    apply (owner_runs vo 0 0 vertices Hhd Hnd). lia. }
  split; [exact Hruns|]. split; [exact Hcall|].
  rewrite Hcall. unfold boxes_of. cbn [fst]. rewrite length_map.
  split; [apply geometry_runs_length|]. split.
  - intros Hne. rewrite geometry_runs_length, filter_all.
    + rewrite geometries_length. unfold vo, polygon_vertex_offsets.
      rewrite length_map. lia.
    + intros g Hg. specialize (Hne g Hg).
      destruct g; [congruence | reflexivity].
  - intros Hfr Hr0 Hcoord rn Hrn.
    apply run_box_bounding; trivial.
    intros p Hpin. apply Hcoord.
    assert (Hi : In (run_key rn, p)
                    (flat_map run_items (geometry_runs 0 (geometries vo vertices)))).
    { apply in_flat_map. exists rn. split; [exact Hrn|].
      unfold run_items. destruct Hpin as [<- | Hpin]; [now left|].
      right. now apply in_map. }
    rewrite <- Hruns in Hi. eapply in_combine_r, Hi.
Qed.

Lemma polygon_bounding_boxes_all_rings_witness :
  Z.of_nat (length (boxes_of (polygon_bounding_boxes binary32 polygon_sizes_check
     [0; 1; 3] [0; 3; 6; 9]
     [pt32 0 0; pt32 0x40000000 0; pt32 0 0x40000000;
      pt32 0x40A00000 0x40A00000; pt32 0x40E00000 0x40A00000;
      pt32 0x40A00000 0x40E00000;
      pt32 0 0; pt32 0x40000000 0; pt32 0 0x40000000] (f32 0x3F800000) [])))
  = 2.
Proof.
  apply (proj1 (polygon_bounding_boxes_all_rings binary32 polygon_sizes_check
     [0; 1; 3] [0; 3; 6; 9]
     [pt32 0 0; pt32 0x40000000 0; pt32 0 0x40000000;
      pt32 0x40A00000 0x40A00000; pt32 0x40E00000 0x40A00000;
      pt32 0x40A00000 0x40E00000;
      pt32 0 0; pt32 0x40000000 0; pt32 0 0x40000000] (f32 0x3F800000) [])).
  - repeat split; try reflexivity; simpl; lia.
  - repeat split; try reflexivity; simpl; lia.
  - reflexivity.
  - simpl; lia.
  - simpl; lia.
  - simpl; lia.
  - intros g Hg. simpl in Hg.
    destruct Hg as [<- | [<- | []]]; discriminate.
Defined.

(* ===================================================================== *)
(** * Part V : further properties of the float comparison                 *)
(* ===================================================================== *)

Lemma float_equal_comm (T : float_type) (max_ulp a b : Z) :
  float_equal T max_ulp a b = float_equal T max_ulp b a.
Proof.
  unfold float_equal. rewrite (orb_comm (isnan (bits_to_float T a))).
  destruct (_ || _); [reflexivity|].
  set (la := signmagnitude_to_biased (bits_width T) a).
  set (lb := signmagnitude_to_biased (bits_width T) b).
  destruct (Z.geb_spec la lb); destruct (Z.geb_spec lb la);
    try reflexivity; try lia.
  now replace la with lb by lia.
Qed.

(** X1.  [float_equal] is symmetric in its two arguments, at every
    tolerance and for all patterns, NaN included. *)
Theorem float_equal_symmetric (T : float_type) (max_ulp a b : Z) :
  float_equal T max_ulp a b = float_equal T max_ulp b a.
Proof. apply float_equal_comm. Qed.

(** X2.  [float_equal] grows with the tolerance: values equal within
    [max_ulp] are equal within every larger tolerance. *)
Theorem float_equal_tolerance_monotone (T : float_type) (u u' a b : Z) :
  u <= u' -> float_equal T u a b = true -> float_equal T u' a b = true.
Proof.
  intros Hu. unfold float_equal.
  destruct (_ || _); [discriminate|].
  destruct (_ >=? _); intros H; apply Z.leb_le in H; apply Z.leb_le; lia.
Qed.

Lemma float_equal_tolerance_monotone_witness :
  float_equal binary32 4 0x3F800000 0x3F800001 = true.
Proof.
  apply (float_equal_tolerance_monotone binary32 1 4); [lia | reflexivity].
Defined.

(** X3.  Tolerances add up along a chain: if [a] equals [b] within [u]
    ULPs and [b] equals [c] within [v] ULPs, then [a] equals [c] within
    [u + v] ULPs. *)
Theorem float_equal_triangle (T : float_type) (u v a b c : Z) :
  is_bits T a -> is_bits T b -> is_bits T c ->
  float_equal T u a b = true -> float_equal T v b c = true ->
  float_equal T (u + v) a c = true.
Proof.
  intros Ha Hb Hc. rewrite !float_equal_spec by assumption.
  unfold ulp_distance. intros H1 H2.
  apply andb_true_iff in H1, H2. destruct H1 as [N1 D1], H2 as [N2 D2].
  apply negb_true_iff, orb_false_iff in N1, N2.
  destruct N1 as [Na _], N2 as [_ Nc]. rewrite Na, Nc. cbn [orb negb andb].
  apply Z.leb_le in D1, D2. apply Z.leb_le. lia.
Qed.

Lemma float_equal_triangle_witness :
  float_equal binary32 (1 + 2) 0x3F800000 0x3F800003 = true.
Proof.
  apply (float_equal_triangle binary32 1 2 0x3F800000 0x3F800001 0x3F800003);
    try reflexivity; unfold is_bits; vm_compute; split; congruence.
Defined.

(** X4.  On a [w]-bit pattern, [signmagnitude_to_biased] is [2 ^ (w - 1)]
    plus the sign-magnitude value of the pattern: the pattern itself when
    the sign bit is clear, minus the pattern without its sign bit when it
    is set.  The result fits [w] bits and is never 0. *)
Theorem signmagnitude_to_biased_value (w sam : Z) :
  1 <= w -> 0 <= sam < 2 ^ w ->
  signmagnitude_to_biased w sam
  = 2 ^ (w - 1)
    + (if sam <? 2 ^ (w - 1) then sam else - (sam - 2 ^ (w - 1))) /\
  0 < signmagnitude_to_biased w sam < 2 ^ w.
Proof.
  intros Hw Hs. pose proof (pow2_split w Hw) as Hp.
  assert (Hpos : 0 < 2 ^ (w - 1)) by (apply Z.pow_pos_nonneg; lia).
  destruct (Z.ltb_spec sam (2 ^ (w - 1))).
  - rewrite biased_positive by lia. lia.
  - rewrite biased_negative by lia. lia.
Qed.

Lemma signmagnitude_to_biased_value_witness :
  signmagnitude_to_biased 4 15 = 1 /\ signmagnitude_to_biased 4 7 = 15.
Proof.
  split.
  - apply (proj1 (signmagnitude_to_biased_value 4 15 ltac:(lia) ltac:(lia))).
  - apply (proj1 (signmagnitude_to_biased_value 4 7 ltac:(lia) ltac:(lia))).
Defined.

(** X5.  [signmagnitude_to_biased] collapses the two zeros and nothing
    else: two [w]-bit patterns have the same image exactly when they are
    the same pattern or the two zero patterns, [0] and the sign bit alone. *)
Theorem signmagnitude_to_biased_collapses_zeros_only (w a b : Z) :
  1 <= w -> 0 <= a < 2 ^ w -> 0 <= b < 2 ^ w ->
  (signmagnitude_to_biased w a = signmagnitude_to_biased w b <->
   a = b \/ (a = 0 /\ b = sign_bit_mask w) \/ (a = sign_bit_mask w /\ b = 0)).
Proof.
  intros Hw Ha Hb. pose proof (pow2_split w Hw) as Hp.
  assert (Hpos : 0 < 2 ^ (w - 1)) by (apply Z.pow_pos_nonneg; lia).
  rewrite sign_bit_mask_pow2 by exact Hw.
  destruct (Z.lt_ge_cases a (2 ^ (w - 1)));
    destruct (Z.lt_ge_cases b (2 ^ (w - 1)));
    rewrite ?(biased_positive w a), ?(biased_positive w b),
            ?(biased_negative w a), ?(biased_negative w b) by lia;
    lia.
Qed.

Lemma signmagnitude_to_biased_collapses_zeros_only_witness :
  signmagnitude_to_biased 32 0 = signmagnitude_to_biased 32 0x80000000.
Proof.
  apply (proj2 (signmagnitude_to_biased_collapses_zeros_only 32 0 0x80000000
                  ltac:(lia) ltac:(lia) ltac:(lia))).
  right. left. split; reflexivity.
Defined.

(** X6.  The biased integer orders the values: for two patterns that are
    not NaN, the IEEE-754 comparisons [<], [<=] and [==] of the values are
    the integer comparisons of their biased images. *)
Theorem biased_order_is_float_order (T : float_type) (a b : Z) :
  is_bits T a -> is_bits T b ->
  isnan (bits_to_float T a) = false -> isnan (bits_to_float T b) = false ->
  let ba := signmagnitude_to_biased (bits_width T) a in
  let bb := signmagnitude_to_biased (bits_width T) b in
  SFltb (bits_to_float T a) (bits_to_float T b) = (ba <? bb) /\
  SFleb (bits_to_float T a) (bits_to_float T b) = (ba <=? bb) /\
  SFeqb (bits_to_float T a) (bits_to_float T b) = (ba =? bb).
Proof.
  intros Ha Hb Na Nb. cbv zeta.
  unfold SFltb, SFleb, SFeqb.
  rewrite compare_biased by assumption.
  set (ba := signmagnitude_to_biased (bits_width T) a).
  set (bb := signmagnitude_to_biased (bits_width T) b).
  destruct (Z.compare_spec ba bb); repeat split; symmetry;
    first [apply Z.ltb_lt | apply Z.ltb_ge | idtac];
    first [apply Z.leb_le | apply Z.leb_gt | idtac];
    first [apply Z.eqb_eq | apply Z.eqb_neq | idtac]; lia.
Qed.

Lemma biased_order_is_float_order_witness :
  SFltb (bits_to_float binary32 0xBF800000) (bits_to_float binary32 0x00000001)
  = (signmagnitude_to_biased 32 0xBF800000 <? signmagnitude_to_biased 32 1).
Proof.
  apply (biased_order_is_float_order binary32 0xBF800000 0x00000001);
    try reflexivity; unfold is_bits; vm_compute; split; congruence.
Defined.

(** X7.  A value and its negation are twice its magnitude apart: for a
    pattern [m] with the sign bit clear, the ULP distance to the pattern
    with the sign bit set is [2 * m], so the two are [float_equal] exactly
    when neither is a NaN and [2 * m <= max_ulp]. *)
Theorem float_equal_across_zero (T : float_type) (max_ulp m : Z) :
  0 <= m < 2 ^ (bits_width T - 1) ->
  let neg := m + 2 ^ (bits_width T - 1) in
  sign_field T neg = true /\ magnitude T neg = m /\
  ulp_distance T m neg = 2 * m /\
  float_equal T max_ulp m neg
  = negb (isnan (bits_to_float T m)) && (2 * m <=? max_ulp).
Proof.
  intros Hm. cbv zeta. pose proof (bits_width_ge T) as Hw.
  pose proof (pow2_split (bits_width T) Hw) as Hp.
  assert (Hb1 : is_bits T m) by (unfold is_bits; lia).
  assert (Hb2 : is_bits T (m + 2 ^ (bits_width T - 1))) by (unfold is_bits; lia).
  assert (Hmag : magnitude T (m + 2 ^ (bits_width T - 1)) = m).
  { unfold magnitude. apply eq_sym, Z.mod_unique with (q := 1); lia. }
  assert (Hd : ulp_distance T m (m + 2 ^ (bits_width T - 1)) = 2 * m).
  { unfold ulp_distance. rewrite biased_positive, biased_negative by lia. lia. }
  split; [|split; [exact Hmag|split; [exact Hd|]]].
  - destruct (fields_of_bits T _ Hb2) as (-> & _). apply Z.leb_le. lia.
  - rewrite float_equal_spec, Hd by assumption.
    rewrite (isnan_bits T m Hb1), (isnan_bits T _ Hb2), Hmag.
    unfold magnitude. rewrite Z.mod_small by lia.
    now rewrite orb_diag.
Qed.

Lemma float_equal_across_zero_witness :
  float_equal binary32 4 2 (2 + 2 ^ 31) = true /\
  float_equal binary32 4 3 (3 + 2 ^ 31) = false.
Proof.
  split.
  - refine (eq_trans (proj2 (proj2 (proj2
      (float_equal_across_zero binary32 4 2 _)))) _); [simpl; lia | reflexivity].
  - refine (eq_trans (proj2 (proj2 (proj2
      (float_equal_across_zero binary32 4 3 _)))) _); [simpl; lia | reflexivity].
Defined.

(** X8.  Reading the float member of [FloatingPointBits<T>] gives, for
    every pattern of the width of [T], a value of the format of [T]: a
    zero, an infinity, a NaN, or a finite number with a canonical mantissa
    and an exponent in range. *)
Theorem bits_to_float_valid (T : float_type) (b : Z) :
  is_bits T b -> is_float T (bits_to_float T b).
Proof.
  intros Hb. destruct (fields_of_bits T b Hb) as (_ & _ & _ & HE).
  destruct (magnitude_fields T b Hb) as (_ & HF).
  unfold is_float, bits_to_float, float_of_fields.
  set (E := exponent_field T b) in *. set (F := fraction_field T b) in *.
  pose proof (exponent_bits_ge T) as He. pose proof (mantissa_bits_ge T) as Hm.
  rewrite Z.ones_equiv.
  assert (Hmax : 2 ^ exponent_bits T = 2 * emax T).
  { unfold emax. apply pow2_split. lia. }
  assert (Hemax : 2 <= emax T).
  { unfold emax. apply (Z.pow_le_mono_r 2 1); lia. }
  assert (Hprec : prec T = mantissa_bits T + 1) by reflexivity.
  destruct (Z.eqb_spec E (Z.pred (2 ^ exponent_bits T))).
  - destruct (F =? 0); reflexivity.
  - destruct (Z.eqb_spec E 0).
    + destruct F as [|p|p]; try reflexivity.
      cbn [valid_binary]. unfold bounded, canonical_mantissa, fexp, emin.
      pose proof (digits2_pos_bounds p) as Hd.
      assert (Z.pos (digits2_pos p) <= mantissa_bits T).
      { destruct (Z.le_gt_cases (Z.pos (digits2_pos p)) (mantissa_bits T));
          [trivial|].
        assert (2 ^ mantissa_bits T <= 2 ^ (Z.pos (digits2_pos p) - 1))
          by (apply Z.pow_le_mono_r; lia).
        lia. }
      apply andb_true_iff. split; [apply Z.eqb_eq | apply Z.leb_le]; lia.
    + cbn [valid_binary]. unfold bounded, canonical_mantissa, fexp, emin.
      assert (Hp : 0 < 2 ^ mantissa_bits T) by (apply Z.pow_pos_nonneg; lia).
      rewrite (digits2_pos_unique _ (prec T)).
      * apply andb_true_iff. split; [apply Z.eqb_eq | apply Z.leb_le]; lia.
      * rewrite Z2Pos.id by lia. rewrite Hprec.
        replace (mantissa_bits T + 1 - 1) with (mantissa_bits T) by lia.
        rewrite Z.pow_add_r, Z.pow_1_r by lia. lia.
Qed.

Lemma bits_to_float_valid_witness :
  is_float binary64 (bits_to_float binary64 0x3FF0000000000001).
Proof.
  apply bits_to_float_valid. unfold is_bits. vm_compute. split; congruence.
Defined.

Lemma SFcompare_refl_not_nan (f : spec_float) :
  isnan f = false -> SFcompare f f = Some Eq.
Proof.
  destruct f as [[]|[]| |[] m e]; cbn [SFcompare isnan]; try reflexivity;
    try discriminate; intros _;
    change (Pos.compare_cont Eq) with Pos.compare;
    now rewrite Z.compare_refl, Pos.compare_refl.
Qed.

(** X9.  Away from NaN the float member determines the pattern: two
    patterns of the width of [T] that read as the same value, not a NaN,
    are the same pattern.  (The two zeros read as different values, [+0]
    and [-0].) *)
Theorem bits_to_float_injective (T : float_type) (a b : Z) :
  is_bits T a -> is_bits T b ->
  isnan (bits_to_float T a) = false ->
  bits_to_float T a = bits_to_float T b -> a = b.
Proof.
  intros Ha Hb Na E.
  assert (Nb : isnan (bits_to_float T b) = false) by (now rewrite <- E).
  pose proof (compare_biased T a b Ha Hb Na Nb) as Hc.
  rewrite <- E, SFcompare_refl_not_nan in Hc by exact Na.
  injection Hc as Hc. symmetry in Hc. apply Z.compare_eq in Hc.
  pose proof (bits_width_ge T) as Hw.
  pose proof (pow2_split (bits_width T) Hw) as Hp.
  assert (Hpos : 0 < 2 ^ (bits_width T - 1)) by (apply Z.pow_pos_nonneg; lia).
  unfold is_bits in Ha, Hb.
  destruct (Z.lt_ge_cases a (2 ^ (bits_width T - 1)));
    destruct (Z.lt_ge_cases b (2 ^ (bits_width T - 1)));
    rewrite ?(biased_positive _ a), ?(biased_positive _ b),
            ?(biased_negative _ a), ?(biased_negative _ b) in Hc by lia;
    try lia.
  - assert (a = 0) by lia. assert (b = 2 ^ (bits_width T - 1)) by lia.
    subst a b. exfalso. destruct T; vm_compute in E; discriminate.
  - assert (b = 0) by lia. assert (a = 2 ^ (bits_width T - 1)) by lia.
    subst a b. exfalso. destruct T; vm_compute in E; discriminate.
Qed.

Lemma bits_to_float_injective_witness : 0x40A00000 = 0x40A00000.
Proof.
  apply (bits_to_float_injective binary32 0x40A00000 0x40A00000);
    try reflexivity; unfold is_bits; vm_compute; split; congruence.
Defined.

(** X11.  With the tolerance 0, [float_equal] is the IEEE-754 equality
    [==] of the two values: false when either is a NaN, true for the two
    zeros, and otherwise true exactly for equal patterns. *)
Theorem float_equal_zero_tolerance (T : float_type) (a b : Z) :
  is_bits T a -> is_bits T b ->
  float_equal T 0 a b = SFeqb (bits_to_float T a) (bits_to_float T b).
Proof.
  intros Ha Hb.
  destruct (isnan (bits_to_float T a)) eqn:Na.
  { unfold float_equal. rewrite Na. cbn [orb].
    destruct (bits_to_float T a); try discriminate. reflexivity. }
  destruct (isnan (bits_to_float T b)) eqn:Nb.
  { unfold float_equal. rewrite Na, Nb. cbn [orb].
    destruct (bits_to_float T b); try discriminate.
    destruct (bits_to_float T a); reflexivity. }
  rewrite (float_equal_spec T 0 a b Ha Hb), Na, Nb. cbn [orb negb andb].
  unfold SFeqb. rewrite (compare_biased T a b Ha Hb Na Nb).
  unfold ulp_distance.
  set (ba := signmagnitude_to_biased (bits_width T) a).
  set (bb := signmagnitude_to_biased (bits_width T) b).
  destruct (Z.compare_spec ba bb); destruct (Z.leb_spec (Z.abs (ba - bb)) 0);
    try reflexivity; lia.
Qed.

Lemma float_equal_zero_tolerance_witness :
  float_equal binary32 0 0 0x80000000 = SFeqb (f32 0) (f32 0x80000000).
Proof.
  apply (float_equal_zero_tolerance binary32 0 0x80000000);
    unfold is_bits; simpl; lia.
Defined.

Lemma inf_magnitude_range (T : float_type) :
  0 < inf_magnitude T < 2 ^ (bits_width T - 1).
Proof. destruct T; unfold inf_magnitude; simpl; lia. Qed.

(** X12.  Infinity is within tolerance of the largest finite values: the
    pattern [k] places below that of positive infinity is a value strictly
    below infinity, and [float_equal] accepts it against infinity whenever
    [k <= max_ulp]; with the default tolerance the four largest finite
    values compare equal to infinity. *)
Theorem float_equal_infinity_and_largest_finite
        (T : float_type) (max_ulp k : Z) :
  0 < k <= inf_magnitude T ->
  let inf := inf_magnitude T in
  bits_to_float T inf = S754_infinity false /\
  SFltb (bits_to_float T (inf - k)) (S754_infinity false) = true /\
  float_equal T max_ulp (inf - k) inf = (k <=? max_ulp).
Proof.
  intros Hk. cbv zeta. pose proof (inf_magnitude_range T) as Hi.
  assert (Hw : 2 ^ bits_width T = 2 * 2 ^ (bits_width T - 1)).
  { rewrite <- Z.pow_succ_r by (destruct T; simpl; lia). f_equal. lia. }
  assert (Ha : is_bits T (inf_magnitude T - k)) by (unfold is_bits; lia).
  assert (Hb : is_bits T (inf_magnitude T)) by (unfold is_bits; lia).
  assert (Hinf : bits_to_float T (inf_magnitude T) = S754_infinity false)
    by (destruct T; reflexivity).
  assert (Hm : forall b, 0 <= b <= inf_magnitude T ->
                 magnitude T b = b /\ sign_field T b = false).
  { intros b Hbr. split.
    - unfold magnitude. apply Z.mod_small. lia.
    - destruct (fields_of_bits T b ltac:(unfold is_bits; lia)) as (-> & _).
      apply Z.leb_gt. lia. }
  destruct (Hm (inf_magnitude T - k) ltac:(lia)) as [Ma Sa].
  destruct (Hm (inf_magnitude T) ltac:(lia)) as [Mb Sb].
  assert (Na : isnan (bits_to_float T (inf_magnitude T - k)) = false).
  { rewrite isnan_bits by exact Ha. rewrite Ma. apply Z.ltb_ge. lia. }
  assert (Nb : isnan (bits_to_float T (inf_magnitude T)) = false)
    by (now rewrite Hinf).
  pose proof (biased_signed T _ Ha) as Ba. rewrite Ma, Sa in Ba.
  pose proof (biased_signed T _ Hb) as Bb. rewrite Mb, Sb in Bb.
  cbn [signed] in Ba, Bb.
  split; [exact Hinf|]. split.
  - rewrite <- Hinf. rewrite (SFltb_biased T _ _ Ha Hb Na Nb), Ba, Bb.
    apply Z.ltb_lt. lia.
  - rewrite (float_equal_spec T max_ulp _ _ Ha Hb), Na, Nb.
    cbn [orb negb andb]. unfold ulp_distance. rewrite Ba, Bb.
    f_equal. lia.
Qed.

Lemma float_equal_infinity_and_largest_finite_witness :
  float_equal binary32 default_max_ulp (inf_magnitude binary32 - 4)
              (inf_magnitude binary32) = true.
Proof.
  apply (proj2 (proj2 (float_equal_infinity_and_largest_finite binary32
                         default_max_ulp 4 ltac:(vm_compute; split; [reflexivity | discriminate])))).
Defined.

(* ===================================================================== *)
(** * Part VI : further properties of the bounding boxes                  *)
(* ===================================================================== *)

Lemma reduce_loop_length {K V} (eq_dec : forall a b : K, {a = b} + {a <> b})
      (op : V -> V -> V) (k : K) (v : V) (kvs : list (K * V)) :
  length (reduce_loop (equal_to eq_dec) op k v kvs)
  = S (key_changes eq_dec (k :: map fst kvs)).
Proof.
  revert k v. induction kvs as [|[k' v'] kvs IH]; intros k v; [reflexivity|].
  cbn [reduce_loop map fst key_changes]. unfold equal_to at 1.
  destruct (eq_dec k k') as [<- | Hne].
  - rewrite IH. reflexivity.
  - cbn [length]. rewrite IH. reflexivity.
Qed.

Lemma key_changes_bound {K} (eq_dec : forall a b : K, {a = b} + {a <> b})
      (l : list K) : (key_changes eq_dec l < Nat.max 1 (length l))%nat.
Proof.
  induction l as [|a l IH]; [simpl; lia|].
  destruct l as [|b l]; [simpl; lia|].
  change (key_changes eq_dec (a :: b :: l))
    with ((if eq_dec a b then 0 else 1) + key_changes eq_dec (b :: l))%nat.
  cbn [length] in *. destruct (eq_dec a b); lia.
Qed.

Lemma map_fst_combine {A B} (l : list A) (l' : list B) :
  length l = length l' -> map fst (combine l l') = l.
Proof.
  revert l'. induction l as [|a l IH]; intros [|b l'] H; try discriminate;
    [reflexivity|].
  simpl. f_equal. apply IH. now injection H.
Qed.

(** X13.  [point_bounding_boxes] writes as many boxes as the id sequence
    has runs: none for no id, and otherwise one more than the number of
    neighbouring ids that differ; never more boxes than ids. *)
Theorem point_bounding_boxes_count
        (T : float_type) {IdType : Type}
        (eq_dec : forall a b : IdType, {a = b} + {a <> b})
        (ids : list IdType) (points : list vec_2d) (r : spec_float)
        (t : list event) :
  length ids = length points ->
  let boxes := boxes_of (point_bounding_boxes T eq_dec ids points r t) in
  length boxes
  = match ids with [] => 0%nat | _ => S (key_changes eq_dec ids) end /\
  (length boxes <= length ids)%nat.
Proof.
  intros Hlen. cbv zeta.
  unfold boxes_of, point_bounding_boxes, bind, emit, ret. cbn [fst].
  assert (H : length (reduce_by_key (equal_to eq_dec) box_minmax ids
                (map (point_bounding_box_call T (make_point_bounding_box r))
                     points))
              = match ids with [] => 0%nat | _ => S (key_changes eq_dec ids) end).
  { unfold reduce_by_key.
    destruct ids as [|k ids], points as [|p points]; try discriminate;
      [reflexivity|].
    cbn [map combine]. rewrite reduce_loop_length. do 2 f_equal.
    f_equal. apply map_fst_combine. rewrite length_map.
    now injection Hlen. }
  split; [exact H|]. rewrite H.
  destruct ids as [|k ids]; [simpl; lia|].
  pose proof (key_changes_bound eq_dec (k :: ids)). cbn [length] in *. lia.
Qed.

Lemma point_bounding_boxes_count_witness :
  length (boxes_of (point_bounding_boxes binary32 Z.eq_dec [3; 3; 8; 3]
            [pt32 0 0; pt32 0 0; pt32 0 0; pt32 0 0] (f32 0) [])) = 3%nat.
Proof.
  apply (proj1 (point_bounding_boxes_count binary32 Z.eq_dec [3; 3; 8; 3]
            [pt32 0 0; pt32 0 0; pt32 0 0; pt32 0 0] (f32 0) [] eq_refl)).
Defined.

Lemma reduce_loop_all_differ {K V}
      (eq_dec : forall a b : K, {a = b} + {a <> b})
      (op : V -> V -> V) (k : K) (v : V) (kvs : list (K * V)) :
  adjacent_differ (k :: map fst kvs) ->
  reduce_loop (equal_to eq_dec) op k v kvs = v :: map snd kvs.
Proof.
  revert k v. induction kvs as [|[k' v'] kvs IH]; intros k v H; [reflexivity|].
  destruct H as [Hne H]. cbn [reduce_loop map snd]. unfold equal_to at 1.
  destruct (eq_dec k k'); [contradiction|]. f_equal. now apply IH.
Qed.

Lemma map_snd_combine {A B} (l : list A) (l' : list B) :
  length l = length l' -> map snd (combine l l') = l'.
Proof.
  revert l'. induction l as [|a l IH]; intros [|b l'] H; try discriminate;
    [reflexivity|].
  simpl. f_equal. apply IH. now injection H.
Qed.

(** X14.  When no two neighbouring ids are equal, nothing is merged: each
    point gets a box of its own, its expansion [{p - (r,r), p + (r,r)}], in
    the order of the points. *)
Theorem point_bounding_boxes_all_ids_differ
        (T : float_type) {IdType : Type}
        (eq_dec : forall a b : IdType, {a = b} + {a <> b})
        (ids : list IdType) (points : list vec_2d) (r : spec_float)
        (t : list event) :
  length ids = length points -> adjacent_differ ids ->
  boxes_of (point_bounding_boxes T eq_dec ids points r t)
  = map (point_bounding_box_call T (make_point_bounding_box r)) points.
Proof.
  intros Hlen Hd.
  unfold boxes_of, point_bounding_boxes, bind, emit, ret. cbn [fst].
  unfold reduce_by_key.
  destruct ids as [|k ids], points as [|p points]; try discriminate;
    [reflexivity|].
  cbn [map combine].
  assert (Hl : length ids
               = length (map (point_bounding_box_call T
                                (make_point_bounding_box r)) points))
    by (rewrite length_map; now injection Hlen).
  rewrite reduce_loop_all_differ.
  - f_equal. now apply map_snd_combine.
  - now rewrite map_fst_combine.
Qed.

Lemma point_bounding_boxes_all_ids_differ_witness :
  boxes_of (point_bounding_boxes binary32 Z.eq_dec [0; 1; 0]
              [pt32 0 0; pt32 0x40000000 0; pt32 0 0x40A00000] (f32 0) [])
  = map (point_bounding_box_call binary32 (make_point_bounding_box (f32 0)))
        [pt32 0 0; pt32 0x40000000 0; pt32 0 0x40A00000].
Proof.
  apply (point_bounding_boxes_all_ids_differ binary32 Z.eq_dec [0; 1; 0]);
    [reflexivity|].
  repeat split; discriminate.
Defined.

Lemma point_bounding_boxes_repeat
      (T : float_type) {IdType : Type}
      (eq_dec : forall a b : IdType, {a = b} + {a <> b})
      (k : IdType) (p : vec_2d) (points : list vec_2d) (r : spec_float)
      (t : list event) :
  boxes_of (point_bounding_boxes T eq_dec (repeat k (S (length points)))
              (p :: points) r t)
  = [fold_left box_minmax
       (map (point_bounding_box_call T (make_point_bounding_box r)) points)
       (point_bounding_box_call T (make_point_bounding_box r) p)].
Proof.
  unfold boxes_of, point_bounding_boxes, bind, emit, ret. cbn [fst].
  unfold reduce_by_key. cbn [repeat map combine].
  rewrite <- (length_map (point_bounding_box_call T (make_point_bounding_box r))
                         points) at 1.
  rewrite combine_repeat.
  rewrite <- (app_nil_r (map (pair k) _)).
  rewrite reduce_loop_same. reflexivity.
Qed.

(** X15.  When all the ids are equal, the points, however many, give one
    box: the left-to-right [box_minmax] merge of their expansions. *)
Theorem point_bounding_boxes_single_id
        (T : float_type) {IdType : Type}
        (eq_dec : forall a b : IdType, {a = b} + {a <> b})
        (k : IdType) (p : vec_2d) (points : list vec_2d) (r : spec_float)
        (t : list event) :
  let expand := point_bounding_box_call T (make_point_bounding_box r) in
  boxes_of (point_bounding_boxes T eq_dec (repeat k (S (length points)))
              (p :: points) r t)
  = [fold_left box_minmax (map expand points) (expand p)].
Proof. cbv zeta. apply point_bounding_boxes_repeat. Qed.

Lemma reduce_loop_app {K V} (eq_dec : forall a b : K, {a = b} + {a <> b})
      (op : V -> V -> V) (k : K) (v : V) (l1 : list (K * V))
      (k2 : K) (v2 : V) (l2 : list (K * V)) :
  last (k :: map fst l1) k <> k2 ->
  reduce_loop (equal_to eq_dec) op k v (l1 ++ (k2, v2) :: l2)
  = reduce_loop (equal_to eq_dec) op k v l1
    ++ reduce_loop (equal_to eq_dec) op k2 v2 l2.
Proof.
  revert k v. induction l1 as [|[k' v'] l1 IH]; intros k v Hne.
  - cbn [app reduce_loop]. unfold equal_to at 1.
    destruct (eq_dec k k2); [simpl in Hne; contradiction | reflexivity].
  - rewrite <- app_comm_cons. cbn [reduce_loop].
    assert (Hl : last (k' :: map fst l1) k' <> k2).
    { intros E. apply Hne. rewrite <- E. cbn [map fst].
      change (last (k :: k' :: map fst l1) k) with (last (k' :: map fst l1) k).
      apply last_cons_indep. }
    destruct (equal_to eq_dec k k') eqn:E.
    + unfold equal_to in E. destruct (eq_dec k k') as [<- | ];
        [|discriminate].
      apply IH. exact Hl.
    + rewrite <- app_comm_cons. f_equal. apply IH. exact Hl.
Qed.

(** X16.  Batches compose: when the last id of a first batch differs from
    the first id of a second one, the boxes of the two batches put end to
    end are the boxes of the first batch followed by those of the second. *)
Theorem point_bounding_boxes_app
        (T : float_type) {IdType : Type}
        (eq_dec : forall a b : IdType, {a = b} + {a <> b})
        (ids1 : list IdType) (k1 k2 : IdType) (ids2 : list IdType)
        (points1 points2 : list vec_2d) (r : spec_float) (t t1 t2 : list event) :
  length (ids1 ++ [k1]) = length points1 -> k1 <> k2 ->
  boxes_of (point_bounding_boxes T eq_dec ((ids1 ++ [k1]) ++ k2 :: ids2)
              (points1 ++ points2) r t)
  = boxes_of (point_bounding_boxes T eq_dec (ids1 ++ [k1]) points1 r t1)
    ++ boxes_of (point_bounding_boxes T eq_dec (k2 :: ids2) points2 r t2).
Proof.
  intros Hlen Hne.
  unfold boxes_of, point_bounding_boxes, bind, emit, ret. cbn [fst].
  unfold reduce_by_key. rewrite map_app.
  rewrite combine_app by (now rewrite length_map).
  set (f := point_bounding_box_call T (make_point_bounding_box r)).
  destruct (combine (ids1 ++ [k1]) (map f points1)) as [|[k v] l1] eqn:E1.
  { destruct ids1, points1; discriminate. }
  destruct points2 as [|p2 points2].
  - cbn [map combine]. now rewrite !app_nil_r.
  - cbn [map combine app]. apply reduce_loop_app.
    assert (Hk : map fst (combine (ids1 ++ [k1]) (map f points1)) = ids1 ++ [k1])
      by (apply map_fst_combine; now rewrite length_map).
    rewrite E1 in Hk. cbn [map fst] in Hk. rewrite Hk.
    now rewrite last_last.
Qed.

Lemma point_bounding_boxes_app_witness :
  boxes_of (point_bounding_boxes binary32 Z.eq_dec (([5] ++ [5]) ++ 6 :: [6])
              ([pt32 0 0; pt32 0x40000000 0] ++ [pt32 0 0; pt32 0 0x40A00000])
              (f32 0) [])
  = boxes_of (point_bounding_boxes binary32 Z.eq_dec ([5] ++ [5])
                [pt32 0 0; pt32 0x40000000 0] (f32 0) [])
    ++ boxes_of (point_bounding_boxes binary32 Z.eq_dec (6 :: [6])
                   [pt32 0 0; pt32 0 0x40A00000] (f32 0) []).
Proof.
  apply (point_bounding_boxes_app binary32 Z.eq_dec [5] 5 6 [6]);
    [reflexivity | discriminate].
Defined.

(** ** [box_minmax] on boxes in any orientation *)

Section IntervalsAnyOrientation.
Variables a1 a2 b1 b2 : spec_float.
Hypothesis Ha1 : not_nan a1.
Hypothesis Ha2 : not_nan a2.
Hypothesis Hb1 : not_nan b1.
Hypothesis Hb2 : not_nan b2.

Lemma merge_normalizes :
  SFleb (fmin (fmin a1 a2) b1) (fmax (fmax a1 a2) b2) = true /\
  SFleb (fmin (fmin a1 a2) b1) a1 = true /\
  SFleb (fmin (fmin a1 a2) b1) a2 = true /\
  SFleb a1 (fmax (fmax a1 a2) b2) = true /\
  SFleb a2 (fmax (fmax a1 a2) b2) = true /\
  SFleb (fmin (fmin a1 a2) b1) b1 = true /\
  SFleb b2 (fmax (fmax a1 a2) b2) = true.
Proof.
  rewrite !SFleb_fle. repeat split; try (nn; fail); fle_auto.
Qed.
End IntervalsAnyOrientation.

(** X17.  Whatever the orientation of its arguments, as long as no
    coordinate is a NaN, [box_minmax a b] satisfies the box invariant; it
    contains both corners of its first argument, and of its second argument
    it bounds the first corner from below and the second one from above
    only. *)
Theorem box_minmax_normalizes (a b : box) :
  not_nan (x (v1 a)) -> not_nan (y (v1 a)) ->
  not_nan (x (v2 a)) -> not_nan (y (v2 a)) ->
  not_nan (x (v1 b)) -> not_nan (y (v1 b)) ->
  not_nan (x (v2 b)) -> not_nan (y (v2 b)) ->
  let m := box_minmax a b in
  box_ordered m /\
  box_contains m (mk_box (v1 a) (v1 a)) /\
  box_contains m (mk_box (v2 a) (v2 a)) /\
  SFleb (x (v1 m)) (x (v1 b)) = true /\ SFleb (y (v1 m)) (y (v1 b)) = true /\
  SFleb (x (v2 b)) (x (v2 m)) = true /\ SFleb (y (v2 b)) (y (v2 m)) = true.
Proof.
  intros X1 Y1 X2 Y2 U1 W1 U2 W2. cbv zeta.
  destruct a as [[a1x a1y] [a2x a2y]], b as [[b1x b1y] [b2x b2y]].
  cbn [x y v1 v2] in *.
  unfold box_ordered, box_contains, box_minmax, box_min, box_max.
  cbn [x y v1 v2].
  destruct (merge_normalizes a1x a2x b1x b2x X1 X2 U1 U2)
    as (? & ? & ? & ? & ? & ? & ?).
  destruct (merge_normalizes a1y a2y b1y b2y Y1 Y2 W1 W2)
    as (? & ? & ? & ? & ? & ? & ?).
  repeat split; assumption.
Qed.

Lemma box_minmax_normalizes_witness :
  box_ordered
    (box_minmax (mk_box (pt32 0x40A00000 0x40A00000) (pt32 0xC0A00000 0xC0A00000))
                (mk_box (pt32 0x40400000 0x40400000) (pt32 0 0))).
Proof.
  apply (box_minmax_normalizes
           (mk_box (pt32 0x40A00000 0x40A00000) (pt32 0xC0A00000 0xC0A00000))
           (mk_box (pt32 0x40400000 0x40400000) (pt32 0 0)));
    reflexivity.
Defined.

Section IntervalAbsorbs.
Variables a1 a2 b1 b2 : spec_float.
Hypothesis Ha : SFleb a1 a2 = true.
Hypothesis Hb : SFleb b1 b2 = true.
Hypothesis H1 : SFleb a1 b1 = true.
Hypothesis H2 : SFleb b2 a2 = true.

End IntervalAbsorbs.




(** ** The order of the merges does not matter *)

Lemma same_value_sym a b : same_value a b -> same_value b a.
Proof.
  unfold same_value. rewrite !SFeqb_fle. intros (? & ? & ? & ?).
  repeat split; assumption.
Qed.

Lemma box_same_sym a b : box_same a b -> box_same b a.
Proof.
  intros (? & ? & ? & ?). repeat split; now apply same_value_sym.
Qed.

Lemma box_same_trans a b c : box_same a b -> box_same b c -> box_same a c.
Proof.
  intros (? & ? & ? & ?) (? & ? & ? & ?).
  repeat split; eapply same_value_trans; eassumption.
Qed.

Lemma box_same_refl a : box_ordered a -> box_same a a.
Proof.
  intros [Hx Hy]. apply SFleb_fle in Hx, Hy.
  destruct Hx as (? & ? & _), Hy as (? & ? & _).
  repeat split; now apply same_value_refl.
Qed.

Section IntervalCongruence.
Variables a1 a2 b1 b2 a1' a2' b1' b2' : spec_float.
Hypothesis Ha : SFleb a1 a2 = true.
Hypothesis Hb : SFleb b1 b2 = true.
Hypothesis E1 : same_value a1 a1'.
Hypothesis E2 : same_value a2 a2'.
Hypothesis E3 : same_value b1 b1'.
Hypothesis E4 : same_value b2 b2'.

Lemma merge_congruent :
  same_value (fmin (fmin a1 a2) b1) (fmin (fmin a1' a2') b1') /\
  same_value (fmax (fmax a1 a2) b2) (fmax (fmax a1' a2') b2').
Proof.
  unfold same_value in *. rewrite SFeqb_fle in E1, E2, E3, E4.
  destruct E1 as (? & ? & ? & ?), E2 as (? & ? & ? & ?),
           E3 as (? & ? & ? & ?), E4 as (? & ? & ? & ?).
  rewrite !SFeqb_fle.
  repeat split; try (nn; fail); fle_auto.
Qed.
End IntervalCongruence.

Lemma box_same_ordered a b : box_ordered a -> box_same a b -> box_ordered b.
Proof.
  intros [Hx Hy] (E1 & E2 & E3 & E4). unfold same_value in *.
  rewrite SFeqb_fle in E1, E2, E3, E4. apply SFleb_fle in Hx, Hy.
  destruct E1 as (? & ? & ? & ?), E2 as (? & ? & ? & ?),
           E3 as (? & ? & ? & ?), E4 as (? & ? & ? & ?),
           Hx as (_ & _ & ?), Hy as (_ & _ & ?).
  split; apply SFleb_fle; repeat split; trivial.
  - apply fle_trans with (x (v1 a)); trivial.
    apply fle_trans with (x (v2 a)); trivial.
  - apply fle_trans with (y (v1 a)); trivial.
    apply fle_trans with (y (v2 a)); trivial.
Qed.

Lemma box_minmax_congruent a b a' b' :
  box_ordered a -> box_ordered b -> box_same a a' -> box_same b b' ->
  box_same (box_minmax a b) (box_minmax a' b').
Proof.
  intros [Hax Hay] [Hbx Hby] (A1 & A2 & A3 & A4) (B1 & B2 & B3 & B4).
  unfold box_same, box_minmax, box_min, box_max. cbn [x y v1 v2].
  destruct (merge_congruent _ _ _ _ _ _ _ _ A1 A3 B1 B3).
  destruct (merge_congruent _ _ _ _ _ _ _ _ A2 A4 B2 B4).
  repeat split; assumption.
Qed.

Lemma box_minmax_ordered a b :
  box_ordered a -> box_ordered b -> box_ordered (box_minmax a b).
Proof.
  intros [Hax Hay] [Hbx Hby]. split.
  - exact (merge_ordered _ _ _ _ Hax Hbx).
  - exact (merge_ordered _ _ _ _ Hay Hby).
Qed.

Lemma fold_box_minmax_congruent (l : list box) (b b' : box) :
  box_ordered b -> Forall box_ordered l -> box_same b b' ->
  box_same (fold_left box_minmax l b) (fold_left box_minmax l b').
Proof.
  revert b b'. induction l as [|c l IH]; intros b b' Hb Hl E; [exact E|].
  inversion Hl as [|? ? Hc Hl']; subst. cbn [fold_left].
  apply IH; [now apply box_minmax_ordered | exact Hl'|].
  apply box_minmax_congruent; trivial. now apply box_same_refl.
Qed.

Lemma box_minmax_assoc a b c :
  box_ordered a -> box_ordered b -> box_ordered c ->
  box_same (box_minmax (box_minmax a b) c) (box_minmax a (box_minmax b c)).
Proof.
  intros [Hax Hay] [Hbx Hby] [Hcx Hcy].
  unfold box_same, box_minmax, box_min, box_max. cbn [x y v1 v2].
  destruct (merge_associates _ _ _ _ (x (v1 c)) (x (v2 c)) Hax Hbx Hcx).
  destruct (merge_associates _ _ _ _ (y (v1 c)) (y (v2 c)) Hay Hby Hcy).
  repeat split; assumption.
Qed.

Lemma box_minmax_comm a b :
  box_ordered a -> box_ordered b ->
  box_same (box_minmax a b) (box_minmax b a).
Proof.
  intros [Hax Hay] [Hbx Hby].
  unfold box_same, box_minmax, box_min, box_max. cbn [x y v1 v2].
  destruct (merge_commutes _ _ _ _ Hax Hbx).
  destruct (merge_commutes _ _ _ _ Hay Hby).
  repeat split; assumption.
Qed.

Lemma fold_box_minmax_split (l1 l2 : list box) (b c : box) :
  box_ordered b -> Forall box_ordered l1 -> box_ordered c ->
  Forall box_ordered l2 ->
  box_same (fold_left box_minmax (l1 ++ c :: l2) b)
           (box_minmax (fold_left box_minmax l1 b) (fold_left box_minmax l2 c)).
Proof.
  intros Hb Hl1 Hc Hl2. rewrite fold_left_app. cbn [fold_left].
  pose proof (fold_box_minmax_ordered l1 b Hb Hl1) as HB.
  set (B := fold_left box_minmax l1 b) in *. clearbody B.
  revert c Hc. induction l2 as [|d l2 IH]; intros c Hc.
  - cbn [fold_left]. apply box_same_refl. now apply box_minmax_ordered.
  - inversion Hl2 as [|? ? Hd Hl2']; subst. cbn [fold_left].
    apply box_same_trans with (fold_left box_minmax l2 (box_minmax B (box_minmax c d))).
    + apply fold_box_minmax_congruent; trivial.
      * apply box_minmax_ordered; [now apply box_minmax_ordered | exact Hd].
      * now apply box_minmax_assoc.
    + apply IH; [exact Hl2'|]. now apply box_minmax_ordered.
Qed.

(** X19.  The reduction of a run may be split: for boxes that satisfy the
    invariant, merging a sequence left to right gives the same box, up to
    the comparison of the coordinates, as merging a first part and the rest
    separately and then merging the two results.  The sequential fold
    therefore agrees with a reduction that combines partial results. *)
Theorem box_minmax_fold_splits (l1 l2 : list box) (b c : box) :
  Forall box_ordered (b :: l1 ++ c :: l2) ->
  box_same (fold_left box_minmax (l1 ++ c :: l2) b)
           (box_minmax (fold_left box_minmax l1 b) (fold_left box_minmax l2 c)).
Proof.
  intros H. inversion H as [|? ? Hb H']; subst.
  apply Forall_app in H'. destruct H' as [Hl1 H'].
  inversion H' as [|? ? Hc Hl2]; subst.
  now apply fold_box_minmax_split.
Qed.

Lemma box_minmax_fold_splits_witness :
  box_same
    (fold_left box_minmax
       ([mk_box (pt32 0x40000000 0) (pt32 0x40A00000 0x40000000)]
        ++ mk_box (pt32 0x80000000 0) (pt32 0 0)
           :: [mk_box (pt32 0xC0A00000 0) (pt32 0 0x40E00000)])
       (mk_box (pt32 0 0) (pt32 0x40000000 0x40000000)))
    (box_minmax
       (fold_left box_minmax
          [mk_box (pt32 0x40000000 0) (pt32 0x40A00000 0x40000000)]
          (mk_box (pt32 0 0) (pt32 0x40000000 0x40000000)))
       (fold_left box_minmax
          [mk_box (pt32 0xC0A00000 0) (pt32 0 0x40E00000)]
          (mk_box (pt32 0x80000000 0) (pt32 0 0)))).
Proof.
  apply (box_minmax_fold_splits
           [mk_box (pt32 0x40000000 0) (pt32 0x40A00000 0x40000000)]
           [mk_box (pt32 0xC0A00000 0) (pt32 0 0x40E00000)]
           (mk_box (pt32 0 0) (pt32 0x40000000 0x40000000))
           (mk_box (pt32 0x80000000 0) (pt32 0 0))).
  repeat constructor.
Defined.

Lemma box_minmax_swap b c d :
  box_ordered b -> box_ordered c -> box_ordered d ->
  box_same (box_minmax (box_minmax b c) d) (box_minmax (box_minmax b d) c).
Proof.
  intros Hb Hc Hd.
  apply box_same_trans with (box_minmax b (box_minmax c d));
    [now apply box_minmax_assoc|].
  apply box_same_trans with (box_minmax b (box_minmax d c)).
  - apply box_minmax_congruent; trivial.
    + now apply box_minmax_ordered.
    + now apply box_same_refl.
    + now apply box_minmax_comm.
  - apply box_same_sym. now apply box_minmax_assoc.
Qed.

Lemma fold_box_minmax_permutation (l l' : list box) :
  Permutation l l' ->
  forall b, box_ordered b -> Forall box_ordered l ->
  box_same (fold_left box_minmax l b) (fold_left box_minmax l' b).
Proof.
  induction 1 as [|c l l' HP IH|c d l|l l' l'' HP1 IH1 HP2 IH2];
    intros b Hb Hl.
  - now apply box_same_refl.
  - inversion Hl as [|? ? Hc Hl']; subst. cbn [fold_left].
    apply IH; [now apply box_minmax_ordered | exact Hl'].
  - inversion Hl as [|? ? Hd Hl']; subst.
    inversion Hl' as [|? ? Hc Hl'']; subst. cbn [fold_left].
    apply fold_box_minmax_congruent; trivial.
    + apply box_minmax_ordered; [now apply box_minmax_ordered | exact Hc].
    + now apply box_minmax_swap.
  - apply box_same_trans with (fold_left box_minmax l' b).
    + now apply IH1.
    + apply IH2; [exact Hb|]. eapply Permutation_Forall; eassumption.
Qed.

Lemma fold_box_minmax_permutation_head (b b' : box) (l l' : list box) :
  Permutation (b :: l) (b' :: l') -> Forall box_ordered (b :: l) ->
  box_same (fold_left box_minmax l b) (fold_left box_minmax l' b').
Proof.
  intros HP Hall. inversion Hall as [|? ? Hb Hl]; subst.
  assert (Hin : In b' (b :: l)).
  { eapply Permutation_in; [apply Permutation_sym, HP | now left]. }
  destruct Hin as [<- | Hin].
  - apply fold_box_minmax_permutation; trivial.
    eapply Permutation_cons_inv, HP.
  - apply in_split in Hin. destruct Hin as (l1 & l2 & ->).
    assert (Hl12 : Forall box_ordered (b' :: l1 ++ l2)).
    { eapply Permutation_Forall; [|exact Hl].
      apply Permutation_sym, Permutation_middle. }
    inversion Hl12 as [|? ? Hb' Hl12']; subst.
    assert (HP' : Permutation (b :: l1 ++ l2) l').
    { apply Permutation_cons_inv with b'.
      eapply Permutation_trans; [|exact HP].
      apply (Permutation_middle (b :: l1) l2 b'). }
    apply box_same_trans with (fold_left box_minmax (b' :: l1 ++ l2) b).
    { apply fold_box_minmax_permutation; trivial.
      apply Permutation_sym, Permutation_middle. }
    cbn [fold_left].
    apply box_same_trans with (fold_left box_minmax (l1 ++ l2) (box_minmax b' b)).
    { apply fold_box_minmax_congruent; trivial.
      - now apply box_minmax_ordered.
      - now apply box_minmax_comm. }
    change (fold_left box_minmax (l1 ++ l2) (box_minmax b' b))
      with (fold_left box_minmax (b :: l1 ++ l2) b').
    apply fold_box_minmax_permutation; trivial.
    now constructor.
Qed.

(** X20.  The box of a group does not depend on the order of its points:
    for a radius that is not negative and coordinates that are not NaN (nor
    infinite together with the radius), the points of one id taken in two
    different orders give one box each, and the two boxes have coordinates
    that compare equal. *)
Theorem point_bounding_boxes_point_order
        (T : float_type) {IdType : Type}
        (eq_dec : forall a b : IdType, {a = b} + {a <> b})
        (k : IdType) (p p' : vec_2d) (points points' : list vec_2d)
        (r : spec_float) (t : list event) :
  is_float T r -> SFleb (S754_zero false) r = true ->
  (forall q, In q (p :: points) ->
             coordinate_ok T r (x q) /\ coordinate_ok T r (y q)) ->
  Permutation (p :: points) (p' :: points') ->
  exists b b',
    boxes_of (point_bounding_boxes T eq_dec (repeat k (S (length points)))
                (p :: points) r t) = [b] /\
    boxes_of (point_bounding_boxes T eq_dec (repeat k (S (length points')))
                (p' :: points') r t) = [b'] /\
    box_same b b'.
Proof.
  intros Hr Hr0 Hq HP. rewrite !point_bounding_boxes_repeat.
  do 2 eexists. split; [reflexivity|]. split; [reflexivity|].
  set (expand := point_bounding_box_call T (make_point_bounding_box r)).
  apply fold_box_minmax_permutation_head.
  - change (Permutation (map expand (p :: points)) (map expand (p' :: points'))).
    now apply Permutation_map.
  - change (Forall box_ordered (map expand (p :: points))).
    apply Forall_forall. intros c Hc. apply in_map_iff in Hc.
    destruct Hc as (q & <- & Hin). destruct (Hq q Hin).
    now apply point_box_ordered.
Qed.

Lemma point_bounding_boxes_point_order_witness :
  exists b b',
    boxes_of (point_bounding_boxes binary32 Z.eq_dec (repeat 7 3)
                [pt32 0 0; pt32 0x40000000 0x80000000; pt32 0xC0A00000 0x40E00000]
                (f32 0x3F800000) []) = [b] /\
    boxes_of (point_bounding_boxes binary32 Z.eq_dec (repeat 7 3)
                [pt32 0xC0A00000 0x40E00000; pt32 0 0; pt32 0x40000000 0x80000000]
                (f32 0x3F800000) []) = [b'] /\
    box_same b b'.
Proof.
  apply (point_bounding_boxes_point_order binary32 Z.eq_dec 7
           (pt32 0 0) (pt32 0xC0A00000 0x40E00000)
           [pt32 0x40000000 0x80000000; pt32 0xC0A00000 0x40E00000]
           [pt32 0 0; pt32 0x40000000 0x80000000] (f32 0x3F800000) []).
  - reflexivity.
  - reflexivity.
  - intros q [<- | [<- | [<- | []]]]; repeat split; reflexivity.
  - apply Permutation_sym.
    apply (Permutation_middle
             [pt32 0 0; pt32 0x40000000 0x80000000] [] (pt32 0xC0A00000 0x40E00000)).
Defined.

(** ** The expansion of a point contains the point *)

Section RoundingExact.
Variables prec emax : Z.
Hypothesis Hprec : 0 < prec.

(** Rounding leaves a value of the format as it is. *)
Lemma rounded_exact (m p : positive) (ec e : Z) :
  emin prec emax <= e <= ec ->
  fexp prec emax (Z.pos (digits2_pos m) + ec) = ec ->
  Z.pos p = Z.pos m * 2 ^ (ec - e) ->
  rounded prec emax p e = (Z.pos m, ec).
Proof.
  intros He Hc Hp.
  pose proof (digits2_pos_bounds m) as Hm.
  set (dm := Z.pos (digits2_pos m)) in *.
  assert (Hdm : 0 < dm) by (unfold dm; lia).
  assert (Hk : 0 < 2 ^ (ec - e)) by (apply Z.pow_pos_nonneg; lia).
  assert (Hd : Z.pos (digits2_pos p) = dm + (ec - e)).
  { apply digits2_pos_unique. rewrite Hp.
    replace (dm + (ec - e) - 1) with ((dm - 1) + (ec - e)) by lia.
    rewrite !Z.pow_add_r by lia. nia. }
  unfold rounded. rewrite Hd.
  replace (dm + (ec - e) + e) with (dm + ec) by lia. rewrite Hc.
  unfold fexp in Hc.
  destruct (Z.leb_spec (dm + (ec - e)) prec) as [Hle | Hgt].
  - assert (ec = e) by lia. subst ec.
    rewrite Hp, Z.sub_diag, Z.pow_0_r. f_equal. lia.
  - assert (Hn : dm + (ec - e) - prec = ec - e) by lia.
    rewrite Hn.
    assert (Hq : rne (Z.pos p) (ec - e) = Z.pos m).
    { unfold rne. rewrite Hp, Z.mod_mul, Z.div_mul by lia.
      destruct (Z.ltb_spec (2 * 0) (2 ^ (ec - e))); [reflexivity | lia]. }
    rewrite Hq.
    assert (Hdp : dm = prec) by lia.
    clearbody dm. subst dm.
    destruct (Z.eqb_spec (Z.pos m) (2 ^ prec)) as [E | _]; [lia|].
    f_equal. lia.
Qed.

Lemma shl_align_value (m : positive) (ec e : Z) :
  e <= ec -> Z.pos (fst (shl_align m ec e)) = Z.pos m * 2 ^ (ec - e).
Proof.
  intros He. unfold shl_align.
  destruct (e - ec) as [| k | k] eqn:E; cbn [fst]; try lia.
  - replace (ec - e) with 0 by lia. rewrite Z.pow_0_r. lia.
  - unfold shift_pos. rewrite (pos_iter_xO m k).
    replace (ec - e) with (Z.pos k) by lia. reflexivity.
Qed.

Lemma binary_normalize_exact (s : bool) (m : positive) (ec e : Z) :
  valid_binary prec emax (S754_finite s m ec) = true ->
  emin prec emax <= e <= ec ->
  binary_normalize prec emax
    (cond_Zopp s (Z.pos (fst (shl_align m ec e)))) e false
  = S754_finite s m ec.
Proof.
  intros Hv He. unfold valid_binary, bounded, canonical_mantissa in Hv.
  apply andb_true_iff in Hv. destruct Hv as [Hc Hb].
  apply Z.eqb_eq in Hc. apply Z.leb_le in Hb.
  pose proof (shl_align_value m ec e ltac:(lia)) as Hp.
  set (p := fst (shl_align m ec e)) in *.
  assert (Hr : float_of_rounded prec emax s (rounded prec emax p e)
               = S754_finite s m ec).
  { rewrite (rounded_exact m p ec e He Hc Hp).
    unfold float_of_rounded. cbn [fst snd].
    destruct (Z.leb_spec ec (emax - prec)); [reflexivity | lia]. }
  destruct s; cbn [cond_Zopp binary_normalize Z.opp];
    rewrite (binary_round_rounded prec emax Hprec) by lia; exact Hr.
Qed.
End RoundingExact.

(** A coordinate lies between its two expansions. *)
Lemma expand_contains (T : float_type) (c r : spec_float) :
  is_float T r -> SFleb (S754_zero false) r = true ->
  coordinate_ok T r c ->
  SFleb (fsub T c r) c = true /\ SFleb c (fadd T c r) = true.
Proof.
  intros Hr Hr0 (Hc & Hn & Hi). unfold fsub, fadd.
  destruct r as [sr|[]| |[] mr er]; try discriminate;
    destruct c as [sc|sc| |sc mc ec]; try discriminate.
  - destruct sc, sr; split; reflexivity.
  - destruct sc; split; reflexivity.
  - cbn [SFsub SFadd]. split; apply SFleb_refl_finite.
  - destruct sc; split; reflexivity.
  - split; reflexivity.
  - split; reflexivity.
  - destruct sc; split; reflexivity.
  - cbn [SFsub SFadd]. cbn [negb cond_Zopp].
    pose proof (valid_exponent T _ _ _ Hr). pose proof (valid_exponent T _ _ _ Hc).
    pose proof (binary_normalize_exact (prec T) (emax T) (prec_positive T)
                  sc mc ec (Z.min ec er) Hc ltac:(lia)) as Hex.
    set (C := cond_Zopp sc (Z.pos (fst (shl_align mc ec (Z.min ec er))))) in *.
    set (R := Z.pos (fst (shl_align mr er (Z.min ec er)))).
    split.
    + pose proof (binary_normalize_mono (prec T) (emax T) (prec_positive T)
                    (C - R) C (Z.min ec er) ltac:(lia) ltac:(lia)) as H1.
      now rewrite Hex in H1.
    + pose proof (binary_normalize_mono (prec T) (emax T) (prec_positive T)
                    C (C + R) (Z.min ec er) ltac:(lia) ltac:(lia)) as H1.
      now rewrite Hex in H1.
Qed.

Lemma point_box_contains_point (T : float_type) (r : spec_float) (p : vec_2d) :
  is_float T r -> SFleb (S754_zero false) r = true ->
  coordinate_ok T r (x p) -> coordinate_ok T r (y p) ->
  box_contains (point_bounding_box_call T (make_point_bounding_box r) p)
               (mk_box p p).
Proof.
  intros Hr Hr0 Hx Hy.
  destruct (expand_contains T _ _ Hr Hr0 Hx).
  destruct (expand_contains T _ _ Hr Hr0 Hy).
  repeat split; assumption.
Qed.

Lemma in_combine_exists {A B} (l : list A) (l' : list B) (b : B) :
  length l = length l' -> In b l' -> exists a, In (a, b) (combine l l').
Proof.
  revert l'. induction l as [|a l IH]; intros [|b' l'] Hlen Hin;
    try discriminate; [destruct Hin|].
  destruct Hin as [-> | Hin].
  - exists a. now left.
  - destruct (IH l' ltac:(now injection Hlen) Hin) as (a' & Ha').
    exists a'. now right.
Qed.

Lemma point_bounding_boxes_cover_expansions
      (T : float_type) {IdType} (eq_dec : forall a b : IdType, {a = b} + {a <> b})
      (ids : list IdType) (points : list vec_2d) (r : spec_float) t :
  (forall p, In p points ->
     box_ordered (point_bounding_box_call T (make_point_bounding_box r) p)) ->
  length ids = length points ->
  forall p, In p points ->
    exists b, In b (boxes_of (point_bounding_boxes T eq_dec ids points r t)) /\
              box_contains b
                (point_bounding_box_call T (make_point_bounding_box r) p).
Proof.
  intros Hp Hlen p Hin.
  unfold boxes_of, point_bounding_boxes, bind, emit, ret. cbn [fst].
  rewrite reduce_by_key_runs, runs_map, map_map.
  destruct (in_combine_exists ids points p Hlen Hin) as (k & Hk).
  rewrite <- (runs_items eq_dec) in Hk. apply in_flat_map in Hk.
  destruct Hk as (rn & Hrn & Hitem).
  assert (Hprn : In p (run_head rn :: run_tail rn)).
  { unfold run_items in Hitem. destruct Hitem as [E | Hitem].
    - left. now injection E.
    - right. apply in_map_iff in Hitem. destruct Hitem as (q & E & Hq).
      injection E as E. now subst q. }
  exists (run_box T r rn). split.
  - apply in_map_iff. exists rn. split; [reflexivity | exact Hrn].
  - pose proof (run_points_in eq_dec ids points rn Hrn) as Hsub.
    destruct (fold_box_minmax_bounding
                (map (point_bounding_box_call T (make_point_bounding_box r))
                     (run_tail rn))
                (point_bounding_box_call T (make_point_bounding_box r)
                                         (run_head rn))) as [Hcont _].
    { apply Hp, Hsub. now left. }
    { apply Forall_forall. intros c Hc. apply in_map_iff in Hc.
      destruct Hc as (q & <- & Hq). apply Hp, Hsub. now right. }
    rewrite Forall_forall in Hcont.
    apply Hcont.
    change (In (point_bounding_box_call T (make_point_bounding_box r) p)
               (map (point_bounding_box_call T (make_point_bounding_box r))
                    (run_head rn :: run_tail rn))).
    now apply in_map.
Qed.

Lemma point_bounding_boxes_cover
      (T : float_type) {IdType} (eq_dec : forall a b : IdType, {a = b} + {a <> b})
      (ids : list IdType) (points : list vec_2d) (r : spec_float) t :
  is_float T r -> SFleb (S754_zero false) r = true ->
  (forall p, In p points -> coordinate_ok T r (x p) /\ coordinate_ok T r (y p)) ->
  length ids = length points ->
  forall p, In p points ->
    exists b, In b (boxes_of (point_bounding_boxes T eq_dec ids points r t)) /\
              box_contains b (mk_box p p).
Proof.
  intros Hr Hr0 Hp Hlen p Hin.
  destruct (point_bounding_boxes_cover_expansions T eq_dec ids points r t)
    with (p := p) as (b & Hb & Hc); trivial.
  { intros q Hq. destruct (Hp q Hq). now apply point_box_ordered. }
  exists b. split; [exact Hb|].
  eapply box_contains_trans; [exact Hc|].
  destruct (Hp p Hin). now apply point_box_contains_point.
Qed.

Lemma length_indices (n : nat) : length (indices n) = n.
Proof. unfold indices. now rewrite length_map, length_seq. Qed.

(** X21.  No vertex is left outside: for a radius that is not negative and
    coordinates that are not NaN (nor infinite together with the radius),
    every point passed to [point_bounding_boxes] with one id per point lies
    inside one of the boxes written; so does every vertex passed to
    [linestring_bounding_boxes] when the offsets do not describe zero
    linestrings, and every vertex passed to [polygon_bounding_boxes] when
    there is a polygon, the sizes pass the validation and the ring count
    is not zero. *)
Theorem bounding_boxes_cover_every_vertex
        (T : float_type) (r : spec_float) (points : list vec_2d) (t : list event) :
  is_float T r -> SFleb (S754_zero false) r = true ->
  (forall p, In p points -> coordinate_ok T r (x p) /\ coordinate_ok T r (y p)) ->
  (forall (IdType : Type) (eq_dec : forall a b : IdType, {a = b} + {a <> b})
          (ids : list IdType),
      length ids = length points ->
      forall p, In p points ->
        exists b, In b (boxes_of (point_bounding_boxes T eq_dec ids points r t))
                  /\ box_contains b (mk_box p p)) /\
  (forall linestring_offsets,
      Z.of_nat (length linestring_offsets) - 1 <> 0 ->
      forall p, In p points ->
        exists b, In b (boxes_of (linestring_bounding_boxes T linestring_offsets
                                    points r t))
                  /\ box_contains b (mk_box p p)) /\
  (forall valid_polygon_sizes polygon_offsets ring_offsets,
      0 < Z.of_nat (length polygon_offsets) - 1 ->
      valid_polygon_sizes (Z.of_nat (length points))
        (Z.of_nat (length polygon_offsets)) (Z.of_nat (length ring_offsets))
      = true ->
      Z.of_nat (length ring_offsets) - 1 <> 0 ->
      forall p, In p points ->
        exists b, In b (boxes_of (polygon_bounding_boxes T valid_polygon_sizes
                                    polygon_offsets ring_offsets points r t))
                  /\ box_contains b (mk_box p p)).
Proof.
  intros Hr Hr0 Hp. split; [|split].
  - intros IdType eq_dec ids Hlen p Hin.
    now apply point_bounding_boxes_cover.
  - intros offsets Hn p Hin. unfold linestring_bounding_boxes.
    destruct (Z.eqb_spec (Z.of_nat (length offsets) - 1) 0); [lia|].
    destruct (Z.eqb_spec (Z.of_nat (length points)) 0) as [E | _].
    { destruct points; [destruct Hin | discriminate]. }
    cbn [orb]. apply point_bounding_boxes_cover; trivial.
    now rewrite length_map, length_indices.
  - intros valid po ro Hpolys Hvalid Hrings p Hin.
    unfold polygon_bounding_boxes.
    destruct (Z.gtb_spec (Z.of_nat (length po) - 1) 0); [|lia].
    unfold CUSPATIAL_EXPECTS_VALID_POLYGON_SIZES.
    unfold bind at 1 2. unfold emit at 1. rewrite Hvalid. unfold ret at 1.
    destruct (Z.eqb_spec (Z.of_nat (length po) - 1) 0); [lia|].
    destruct (Z.eqb_spec (Z.of_nat (length ro) - 1) 0); [lia|].
    destruct (Z.eqb_spec (Z.of_nat (length points)) 0) as [E | _].
    { destruct points; [destruct Hin | discriminate]. }
    cbn [orb]. apply point_bounding_boxes_cover; trivial.
    now rewrite length_map, length_indices.
Qed.

Lemma bounding_boxes_cover_every_vertex_witness :
  exists b,
    In b (boxes_of (linestring_bounding_boxes binary32 [0; 2; 3]
            [pt32 0 0x80000000; pt32 0x40000000 0xC0A00000; pt32 0x7F800000 0x00000001]
            (f32 0x3F800000) [])) /\
    box_contains b (mk_box (pt32 0x40000000 0xC0A00000)
                           (pt32 0x40000000 0xC0A00000)).
Proof.
  refine (proj1 (proj2 (bounding_boxes_cover_every_vertex binary32 (f32 0x3F800000)
     [pt32 0 0x80000000; pt32 0x40000000 0xC0A00000; pt32 0x7F800000 0x00000001]
     [] _ _ _)) [0; 2; 3] _ (pt32 0x40000000 0xC0A00000) _).
  - reflexivity.
  - reflexivity.
  - intros p [<- | [<- | [<- | []]]]; repeat split; reflexivity.
  - simpl. lia.
  - right. now left.
Defined.

(** ** The radius zero *)

Lemma expand_zero (T : float_type) (c : spec_float) (s : bool) :
  not_nan c ->
  same_value (fsub T c (S754_zero s)) c /\ same_value (fadd T c (S754_zero s)) c.
Proof.
  intros Hn. unfold fsub, fadd.
  destruct c as [sc|sc| |sc mc ec]; try discriminate.
  - destruct sc, s; split; reflexivity.
  - destruct sc; split; reflexivity.
  - cbn [SFsub SFadd]. split; now apply same_value_refl.
Qed.

Lemma same_value_SFleb a b : same_value a b -> SFleb a b = true.
Proof.
  unfold same_value. rewrite SFeqb_fle, SFleb_fle. intros (? & ? & ? & ?).
  repeat split; assumption.
Qed.

Lemma point_box_zero (T : float_type) (s : bool) (p : vec_2d) :
  not_nan (x p) -> not_nan (y p) ->
  box_same (point_bounding_box_call T (make_point_bounding_box (S754_zero s)) p)
           (mk_box p p).
Proof.
  intros Hx Hy.
  destruct (expand_zero T (x p) s Hx). destruct (expand_zero T (y p) s Hy).
  repeat split; assumption.
Qed.

(** X22.  With the radius zero (of either sign) and no NaN coordinate,
    every box written by [point_bounding_boxes] is tight: each of its four
    bounds compares equal to that coordinate of one of the points, and with
    one id per point every point is inside one of the boxes. *)
Theorem point_bounding_boxes_radius_zero
        (T : float_type) {IdType : Type}
        (eq_dec : forall a b : IdType, {a = b} + {a <> b})
        (ids : list IdType) (points : list vec_2d) (s : bool) (t : list event) :
  (forall p, In p points -> not_nan (x p) /\ not_nan (y p)) ->
  let boxes := boxes_of (point_bounding_boxes T eq_dec ids points
                           (S754_zero s) t) in
  (forall b, In b boxes ->
     (exists p, In p points /\ same_value (x (v1 b)) (x p)) /\
     (exists p, In p points /\ same_value (x (v2 b)) (x p)) /\
     (exists p, In p points /\ same_value (y (v1 b)) (y p)) /\
     (exists p, In p points /\ same_value (y (v2 b)) (y p))) /\
  (length ids = length points ->
   forall p, In p points ->
     exists b, In b boxes /\ box_contains b (mk_box p p)).
Proof.
  intros Hp. cbv zeta.
  set (expand := point_bounding_box_call T
                   (make_point_bounding_box (S754_zero s))).
  assert (Hsame : forall p, In p points -> box_same (expand p) (mk_box p p)).
  { intros p Hin. destruct (Hp p Hin). now apply point_box_zero. }
  assert (Hord : forall p, In p points -> box_ordered (expand p)).
  { intros p Hin. destruct (Hsame p Hin) as (E1 & E2 & E3 & E4).
    cbn [x y v1 v2] in *. split; apply same_value_SFleb.
    - eapply same_value_trans; [exact E1 | now apply same_value_sym].
    - eapply same_value_trans; [exact E2 | now apply same_value_sym]. }
  split.
  - intros b Hb.
    unfold boxes_of, point_bounding_boxes, bind, emit, ret in Hb. cbn [fst] in Hb.
    rewrite reduce_by_key_runs, runs_map, map_map in Hb.
    apply in_map_iff in Hb. destruct Hb as (rn & <- & Hrn).
    pose proof (run_points_in eq_dec ids points rn Hrn) as Hsub.
    destruct (fold_box_minmax_bounding (map expand (run_tail rn))
                                       (expand (run_head rn)))
      as [_ (A1 & A2 & A3 & A4)].
    { apply Hord, Hsub. now left. }
    { apply Forall_forall. intros c Hc. apply in_map_iff in Hc.
      destruct Hc as (q & <- & Hq). apply Hord, Hsub. now right. }
    assert (Hlift : forall (g : box -> spec_float) (h : vec_2d -> spec_float) res,
               (forall p, In p points -> same_value (g (expand p)) (h p)) ->
               (exists c, In c (expand (run_head rn) :: map expand (run_tail rn))
                          /\ same_value res (g c)) ->
               exists p, In p points /\ same_value res (h p)).
    { intros g h res Hg (c & Hc & Hs).
      change (In c (map expand (run_head rn :: run_tail rn))) in Hc.
      apply in_map_iff in Hc. destruct Hc as (q & <- & Hq).
      exists q. split; [now apply Hsub|].
      eapply same_value_trans; [exact Hs | apply Hg; now apply Hsub]. }
    repeat split.
    + apply (Hlift (fun c => x (v1 c)) x _); [|exact A1].
      intros p Hin. apply (Hsame p Hin).
    + apply (Hlift (fun c => x (v2 c)) x _); [|exact A2].
      intros p Hin. apply (Hsame p Hin).
    + apply (Hlift (fun c => y (v1 c)) y _); [|exact A3].
      intros p Hin. apply (Hsame p Hin).
    + apply (Hlift (fun c => y (v2 c)) y _); [|exact A4].
      intros p Hin. apply (Hsame p Hin).
  - intros Hlen p Hin.
    destruct (point_bounding_boxes_cover_expansions T eq_dec ids points
                (S754_zero s) t Hord Hlen p Hin) as (b & Hb & Hc).
    exists b. split; [exact Hb|].
    eapply box_contains_trans; [exact Hc|].
    destruct (Hsame p Hin) as (E1 & E2 & E3 & E4). cbn [x y v1 v2] in *.
    repeat split; cbn [x y v1 v2]; apply same_value_SFleb; trivial;
      now apply same_value_sym.
Qed.

Lemma point_bounding_boxes_radius_zero_witness :
  exists b,
    In b (boxes_of (point_bounding_boxes binary32 Z.eq_dec [1; 1; 2]
            [pt32 0x80000000 0; pt32 0x40000000 0xC0A00000; pt32 0x7F800000 0]
            (S754_zero true) [])) /\
    box_contains b (mk_box (pt32 0x80000000 0) (pt32 0x80000000 0)).
Proof.
  refine (proj2 (point_bounding_boxes_radius_zero binary32 Z.eq_dec [1; 1; 2]
            [pt32 0x80000000 0; pt32 0x40000000 0xC0A00000; pt32 0x7F800000 0]
            true [] _) eq_refl (pt32 0x80000000 0) _).
  - intros p [<- | [<- | [<- | []]]]; split; reflexivity.
  - now left.
Defined.

(** ** Returning, throwing and writing nothing *)

Lemma point_bounding_boxes_nil_iff
      (T : float_type) {IdType} (eq_dec : forall a b : IdType, {a = b} + {a <> b})
      (ids : list IdType) (points : list vec_2d) (r : spec_float) t :
  length ids = length points ->
  (boxes_of (point_bounding_boxes T eq_dec ids points r t) = [] <->
   points = []).
Proof.
  intros Hlen. unfold boxes_of, point_bounding_boxes, bind, emit, ret.
  cbn [fst]. unfold reduce_by_key.
  destruct ids as [|k ids], points as [|p points]; try discriminate;
    [tauto|].
  cbn [map combine]. split; [|discriminate].
  intros H. apply (f_equal (@length box)) in H.
  rewrite reduce_loop_length in H. discriminate.
Qed.

(** X23.  Which calls throw, and which write nothing.
    [linestring_bounding_boxes] never throws, for any input, and writes no
    box exactly when the offsets describe zero linestrings or there is no
    vertex.  [polygon_bounding_boxes] throws exactly when there is at least
    one polygon and the size validation rejects; when it returns, it writes
    no box exactly when the polygon count is not positive or the ring
    count or the vertex count is zero. *)
Theorem bounding_boxes_throw_and_empty
        (T : float_type) (vertices : list vec_2d) (r : spec_float)
        (t : list event) :
  (forall linestring_offsets,
     let o := linestring_bounding_boxes T linestring_offsets vertices r t in
     fst o <> thrown_invalid_geometry /\
     (boxes_of o = [] <->
      Z.of_nat (length linestring_offsets) - 1 = 0 \/ vertices = [])) /\
  (forall valid_polygon_sizes polygon_offsets ring_offsets,
     let o := polygon_bounding_boxes T valid_polygon_sizes polygon_offsets
                ring_offsets vertices r t in
     let num_polys := Z.of_nat (length polygon_offsets) - 1 in
     let num_rings := Z.of_nat (length ring_offsets) - 1 in
     (fst o = thrown_invalid_geometry <->
      0 < num_polys /\
      valid_polygon_sizes (Z.of_nat (length vertices))
        (Z.of_nat (length polygon_offsets)) (Z.of_nat (length ring_offsets))
      = false) /\
     (fst o <> thrown_invalid_geometry ->
      (boxes_of o = [] <->
       num_polys <= 0 \/ num_rings = 0 \/ vertices = []))).
Proof.
  split.
  - intros offsets. cbv zeta. unfold linestring_bounding_boxes.
    destruct (Z.eqb_spec (Z.of_nat (length offsets) - 1) 0) as [E | NE].
    { cbn [orb]. split; [discriminate|]. unfold boxes_of, ret. cbn [fst]. tauto. }
    destruct (Z.eqb_spec (Z.of_nat (length vertices)) 0) as [E | NE'].
    { cbn [orb]. split; [discriminate|]. unfold boxes_of, ret. cbn [fst].
      destruct vertices; [tauto | discriminate]. }
    cbn [orb]. split.
    + unfold point_bounding_boxes, bind, emit, ret. cbn [fst]. discriminate.
    + rewrite point_bounding_boxes_nil_iff
        by (now rewrite length_map, length_indices).
      split; [intros ->; now right|].
      intros [H | H]; [lia | exact H].
  - intros valid po ro. cbv zeta. unfold polygon_bounding_boxes.
    destruct (Z.gtb_spec (Z.of_nat (length po) - 1) 0) as [Hp | Hp].
    2:{ unfold ret, boxes_of. cbn [fst]. split.
        - split; [discriminate | lia].
        - intros _. split; [left; lia | reflexivity]. }
    unfold CUSPATIAL_EXPECTS_VALID_POLYGON_SIZES, bind, emit.
    destruct (valid _ _ _) eqn:Hv.
    2:{ unfold throw. cbn [fst]. split; [tauto|]. intros H. now elim H. }
    unfold ret. cbv beta iota.
    destruct (Z.eqb_spec (Z.of_nat (length po) - 1) 0) as [E | _]; [lia|].
    destruct (Z.eqb_spec (Z.of_nat (length ro) - 1) 0) as [E | NE].
    { cbn [orb]. unfold ret, boxes_of. cbn [fst]. split.
      - split; [discriminate | intros [_ H]; discriminate].
      - intros _. split; [right; left; exact E | reflexivity]. }
    destruct (Z.eqb_spec (Z.of_nat (length vertices)) 0) as [E | NE'].
    { cbn [orb]. unfold ret, boxes_of. cbn [fst]. split.
      - split; [discriminate | intros [_ H]; discriminate].
      - intros _. destruct vertices; [|discriminate].
        split; [right; right; reflexivity | reflexivity]. }
    cbn [orb]. split.
    + unfold point_bounding_boxes, bind, emit, ret. cbn [fst].
      split; [discriminate | intros [_ H]; discriminate].
    + intros _. rewrite point_bounding_boxes_nil_iff
        by (now rewrite length_map, length_indices).
      split; [intros ->; right; now right|].
      intros [H | [H | H]]; [lia | lia | exact H].
Qed.

Lemma bounding_boxes_throw_and_empty_witness :
  fst (polygon_bounding_boxes binary32 polygon_sizes_check [0; 1] [0; 4]
         [pt32 0 0; pt32 0 0] (f32 0) [])
  = thrown_invalid_geometry.
Proof.
  apply (proj2 (proj1 (proj2 (bounding_boxes_throw_and_empty binary32
           [pt32 0 0; pt32 0 0] (f32 0) []) polygon_sizes_check [0; 1] [0; 4]))).
  split; [simpl; lia | reflexivity].
Defined.

(** ** Polygons of one ring each *)

Lemma owner_from_positions (i v : Z) (m : nat) :
  i <= v < i + Z.of_nat (S m) ->
  owner_from i (positions i (S (S m))) v = Some v.
Proof.
  revert i. induction m as [|m IH]; intros i Hv.
  - cbn [positions]. rewrite owner_from_cons.
    destruct (Z.leb_spec i v); [|lia]. destruct (Z.ltb_spec v (i + 1)); [|lia].
    cbn. f_equal. lia.
  - change (positions i (S (S (S m))))
      with (i :: (i + 1) :: positions (i + 1 + 1) (S m)).
    rewrite owner_from_cons.
    destruct (Z.leb_spec i v); [|lia].
    destruct (Z.ltb_spec v (i + 1)); cbn [andb].
    + f_equal. lia.
    + apply (IH (i + 1)). lia.
Qed.

Lemma boxes_of_point_bounding_boxes_trace
      (T : float_type) {IdType} (eq_dec : forall a b : IdType, {a = b} + {a <> b})
      (ids : list IdType) (points : list vec_2d) (r : spec_float) t t' :
  boxes_of (point_bounding_boxes T eq_dec ids points r t)
  = boxes_of (point_bounding_boxes T eq_dec ids points r t').
Proof. reflexivity. Qed.

(** X24.  Polygons of exactly one ring each are linestrings: with the
    polygon offsets [0, 1, ..., n] over ring offsets of [n + 1] entries, and
    sizes that pass the validation, [polygon_bounding_boxes] writes the
    boxes that [linestring_bounding_boxes] writes for the ring offsets. *)
Theorem polygon_single_rings_as_linestrings
        (T : float_type) (valid_polygon_sizes : Z -> Z -> Z -> bool)
        (ring_offsets : list Z) (vertices : list vec_2d) (r : spec_float)
        (t : list event) :
  ring_offsets <> [] ->
  valid_polygon_sizes (Z.of_nat (length vertices))
    (Z.of_nat (length ring_offsets)) (Z.of_nat (length ring_offsets)) = true ->
  boxes_of (polygon_bounding_boxes T valid_polygon_sizes
              (indices (length ring_offsets)) ring_offsets vertices r t)
  = boxes_of (linestring_bounding_boxes T ring_offsets vertices r t).
Proof.
  intros Hne Hvalid.
  unfold polygon_bounding_boxes, linestring_bounding_boxes.
  rewrite length_indices.
  destruct (Z.gtb_spec (Z.of_nat (length ring_offsets) - 1) 0) as [Hp | Hp].
  2:{ destruct (Z.eqb_spec (Z.of_nat (length ring_offsets) - 1) 0) as [_ | NE];
        [reflexivity|].
      destruct ring_offsets; [congruence | cbn [length] in *; lia]. }
  unfold CUSPATIAL_EXPECTS_VALID_POLYGON_SIZES.
  unfold bind at 1 2. unfold emit at 1. rewrite Hvalid. unfold ret at 1.
  rewrite orb_diag.
  destruct ((Z.of_nat (length ring_offsets) - 1 =? 0)
            || (Z.of_nat (length vertices) =? 0)); [reflexivity|].
  rewrite (boxes_of_point_bounding_boxes_trace T option_Z_eq_dec _ _ _ _ t).
  do 2 f_equal. apply map_ext. intros v.
  unfold make_geometry_id_iterator2, make_geometry_id_iterator.
  destruct (owner_from 0 ring_offsets v) as [j|] eqn:Ej; [|reflexivity].
  destruct (owner_from_sound _ _ _ _ Ej) as (k & -> & Hk & _).
  rewrite indices_positions.
  destruct (length ring_offsets) as [|[|m]] eqn:El; try (simpl in Hk; lia).
  apply owner_from_positions. lia.
Qed.

Lemma polygon_single_rings_as_linestrings_witness :
  boxes_of (polygon_bounding_boxes binary32 polygon_sizes_check
              (indices (length [0; 3; 6])) [0; 3; 6]
              [pt32 0 0; pt32 0x40000000 0; pt32 0x40000000 0x40000000;
               pt32 0x40A00000 0x40A00000; pt32 0x40E00000 0x40E00000;
               pt32 0x40A00000 0x40E00000] (f32 0) [])
  = boxes_of (linestring_bounding_boxes binary32 [0; 3; 6]
              [pt32 0 0; pt32 0x40000000 0; pt32 0x40000000 0x40000000;
               pt32 0x40A00000 0x40A00000; pt32 0x40E00000 0x40E00000;
               pt32 0x40A00000 0x40E00000] (f32 0) []).
Proof.
  apply (polygon_single_rings_as_linestrings binary32 polygon_sizes_check
           [0; 3; 6]); [discriminate | reflexivity].
Defined.
